(** * goa: design validation and type transformation

    A shallow embedding of the validation code of goa's [design] package
    (APIDefinition.Validate and the Validate methods it reaches) and of the
    type transformation code of its [codegen] package (GoTypeTransform,
    transformObject, computeMapping), followed by the properties proved
    about them.

    Conventions of the embedding:
    - a Go pointer to an attribute is an optional handle into a heap of
      attribute definitions ([None] is the nil pointer);
    - a Go call either returns or panics; recursion over the (possibly
      cyclic) attribute graph is bounded by a fuel argument, and running out
      of fuel is a third, separate outcome;
    - a Go map that is ranged over is a list of entries, in the order the
      range loop visits them;
    - the package-level variable [validated] is a field of the state that
      every validation function threads. *)

From Stdlib Require DecimalString DecimalZ.
From stdpp Require Import gmap strings list fin_maps sets sorting.

Set Warnings "-clear-no-such-hyp".

(** ** Outcomes *)

Inductive result (A : Type) : Type :=
| Ok (a : A)
| Panic
| OutOfFuel.
Arguments Ok {A} a.
Arguments Panic {A}.
Arguments OutOfFuel {A}.

(** A helper outside the sources that returns a value or panics. *)
Definition orPanic {A} (o : option A) : result A :=
  match o with
  | Some a => Ok a
  | None => Panic
  end.

Definition rbind {A B} (r : result A) (k : A → result B) : result B :=
  match r with
  | Ok a => k a
  | Panic => Panic
  | OutOfFuel => OutOfFuel
  end.

(** ** Package dslengine: aggregated validation errors *)

Module dslengine.

(** The definition a diagnostic is attached to (dslengine.Definition). *)
Inductive Definition_ : Type :=
| DesignDef
| ResourceDef (name : string)
| ActionDef (name : string)
| RouteDef (path : string)
| ResponseDef (name : string)
| AttributeDef (a : nat)
| UserTypeDef (typeName : string)
| MediaTypeDef (identifier : string)
| ViewDef (name : string)
| LinkDef (name : string)
| EncodingDef (mimeTypes : list string).

(** [ValidationErrors] holds two parallel slices, the errors and the
    definitions they are about; they only grow together, so the aggregate
    is a list of pairs.  The error type is left to the client package. *)
Section Errors.
Context {E : Type}.

Definition ValidationErrors : Type := list (Definition_ * E).

(** [verr.Add(def, format, vals...)] *)
Definition Add (verr : ValidationErrors) (def : Definition_) (e : E)
  : ValidationErrors :=
  verr ++ [(def, e)].

(** [verr.Merge(err)]: merging a nil aggregate does nothing. *)
Definition Merge (verr : ValidationErrors) (err : option ValidationErrors)
  : ValidationErrors :=
  match err with
  | None => verr
  | Some e => verr ++ e
  end.

(** [verr.AsError()]: nil when there is no error. *)
Definition AsError (verr : ValidationErrors) : option ValidationErrors :=
  match verr with
  | [] => None
  | _ :: _ => Some verr
  end.

End Errors.
Arguments ValidationErrors E : clear implicits.

End dslengine.

(** ** Package design: the data model *)

Module design.
Import dslengine.

Inductive Kind : Type :=
| BooleanKind | IntegerKind | NumberKind | StringKind | DateTimeKind | AnyKind
| ArrayKind | ObjectKind | HashKind | UserTypeKind | MediaTypeKind.

#[global] Instance Kind_eq_dec : EqDecision Kind.
Proof. solve_decision. Defined.

(** [*AttributeDefinition]: nil, or the handle of an attribute. *)
Definition aptr : Type := option nat.

(** [UserTypeDefinition] embeds a [*AttributeDefinition] and adds a name. *)
Record UserTypeDefinition : Type := {
  ut_AttributeDefinition : aptr;
  TypeName : string
}.

(** [ViewDefinition] embeds a [*AttributeDefinition]; of the parent media
    type only nil-ness is read. *)
Record ViewDefinition : Type := {
  view_AttributeDefinition : aptr;
  view_Name : string;
  view_Parent : option UserTypeDefinition
}.

(** [LinkDefinition]; the parent media type is kept as its embedded user
    type, from which [Parent.ToObject()] is computed. *)
Record LinkDefinition : Type := {
  link_Name : string;
  link_View : string;
  link_Parent : option UserTypeDefinition
}.

Record MediaTypeDefinition : Type := {
  mt_UserTypeDefinition : UserTypeDefinition;
  Identifier : string;
  Links : list (string * LinkDefinition);
  Views : list (string * ViewDefinition)
}.

(** [Object] is [map[string]*AttributeDefinition]. *)
Definition Object : Type := list (string * aptr).

(** The implementations of the [DataType] interface. *)
Inductive DataType : Type :=
| PrimitiveT (k : Kind)
| ArrayT (ElemType : aptr)
| ObjectT (o : Object)
| HashT (KeyType ElemType : aptr)
| UserTypeT (u : UserTypeDefinition)
| MediaTypeT (m : MediaTypeDefinition).

Definition String_ : DataType := PrimitiveT StringKind.
Definition Integer : DataType := PrimitiveT IntegerKind.

Record AttributeDefinition : Type := {
  Type_ : option DataType;               (* nil interface = None *)
  AllRequired : list string;             (* what a.AllRequired() returns *)
  Metadata : gmap string (list string);
  View : string
}.

Abbreviation Heap := (gmap nat AttributeDefinition).

Definition deref (h : Heap) (a : aptr) : result AttributeDefinition :=
  match a with
  | None => Panic
  | Some p => match h !! p with Some att => Ok att | None => Panic end
  end.

(** [a.Type], where a method is about to be called on it: a nil pointer
    and a nil interface both panic. *)
Definition typeOf (h : Heap) (a : aptr) : result DataType :=
  rbind (deref h a) (λ att,
    match Type_ att with Some t => Ok t | None => Panic end).

(** Modelled from the spec: the methods of the DataType interface, whose
    implementations (design package, type declarations) are not among the
    sources.  Named and media types answer the shape questions for the type
    of their embedded attribute ("unwrapped to their underlying shape");
    a chain of named types that never reaches a shape overflows the stack. *)
Fixpoint unwrap (fuel : nat) (h : Heap) (t : DataType) : result DataType :=
  let via (u : UserTypeDefinition) :=
    match fuel with
    | 0 => Panic
    | S fuel' => rbind (typeOf h (ut_AttributeDefinition u)) (unwrap fuel' h)
    end in
  match t with
  | UserTypeT u => via u
  | MediaTypeT m => via (mt_UserTypeDefinition m)
  | _ => Ok t
  end.

Definition underlying (h : Heap) (t : DataType) : result DataType :=
  unwrap (size h) h t.

Definition ToObject (h : Heap) (t : DataType) : result (option Object) :=
  rbind (underlying h t) (λ t',
    Ok match t' with ObjectT o => Some o | _ => None end).

Definition ToArray (h : Heap) (t : DataType) : result (option aptr) :=
  rbind (underlying h t) (λ t',
    Ok match t' with ArrayT e => Some e | _ => None end).

Definition ToHash (h : Heap) (t : DataType) : result (option (aptr * aptr)) :=
  rbind (underlying h t) (λ t',
    Ok match t' with HashT k e => Some (k, e) | _ => None end).

Definition IsObject (h : Heap) (t : DataType) : result bool :=
  rbind (ToObject h t) (λ o, Ok (bool_decide (is_Some o))).

Definition IsArray (h : Heap) (t : DataType) : result bool :=
  rbind (ToArray h t) (λ o, Ok (bool_decide (is_Some o))).

Definition IsHash (h : Heap) (t : DataType) : result bool :=
  rbind (ToHash h t) (λ o, Ok (bool_decide (is_Some o))).

(** Modelled from the spec: [Kind()] of the DataType interface (not among
    the sources), with one kind for each case of the "Type kind" of the
    spec: the primitives, Object, Array, Map, Named and Media Type. *)
Definition KindOf (t : DataType) : Kind :=
  match t with
  | PrimitiveT k => k
  | ArrayT _ => ArrayKind
  | ObjectT _ => ObjectKind
  | HashT _ _ => HashKind
  | UserTypeT _ => UserTypeKind
  | MediaTypeT _ => MediaTypeKind
  end.

(** Modelled from the spec: [Name()] of the DataType interface (not among
    the sources): the name of the shape of the type, whatever its fields
    are; named and media types give the name of their underlying shape. *)
Definition shapeName (t : DataType) : string :=
  match t with
  | PrimitiveT BooleanKind => "boolean"
  | PrimitiveT IntegerKind => "integer"
  | PrimitiveT NumberKind => "number"
  | PrimitiveT StringKind => "string"
  | PrimitiveT DateTimeKind => "string"
  | PrimitiveT _ => "any"
  | ArrayT _ => "array"
  | ObjectT _ => "object"
  | HashT _ _ => "hash"
  | UserTypeT _ | MediaTypeT _ => "object"
  end.

Definition Name (h : Heap) (t : DataType) : result string :=
  rbind (underlying h t) (λ t', Ok (shapeName t')).

(** [o[n]] on an Object. *)
Fixpoint lookupField (o : Object) (n : string) : option aptr :=
  match o with
  | [] => None
  | (n', a) :: o' => if decide (n' = n) then Some a else lookupField o' n
  end.

(** ** Package design: definitions of the API *)

Record ResponseDefinition : Type := {
  resp_Name : string;
  Status : nat;
  Headers : aptr
}.

(** A route; [route_FullPath] is what [r.FullPath()] returns (the design
    package composes it from the base paths of the API and the resource). *)
Record RouteDefinition : Type := {
  Verb : string;
  Path : string;
  route_FullPath : string
}.

(** An action.  Of the parent resource, [Validate] reads nil-ness and
    [Parent.FullPath()]: [act_Parent] is nil or that path. *)
Record ActionDefinition : Type := {
  act_Name : string;
  act_Docs : option string;                      (* Docs, by its URL *)
  Routes : list RouteDefinition;
  act_Responses : list (string * ResponseDefinition);
  act_Params : aptr;
  Payload : option UserTypeDefinition;
  act_Parent : option string
}.

Record ResourceDefinition : Type := {
  res_Name : string;
  BasePath : string;
  ParentName : string;
  CanonicalActionName : string;
  Actions : list ActionDefinition;
  res_BaseParams : aptr;
  res_Params : aptr;
  res_Responses : list ResponseDefinition
}.

Record EncodingDefinition : Type := {
  MIMETypes : list string;
  PackagePath : string;
  Function : string
}.

(** The API; resources, media types, user types and responses are listed
    in the order their iterators visit them. *)
Record APIDefinition : Type := {
  api_BaseParams : aptr;
  Contact : option string;                       (* Contact, by its URL *)
  License : option string;
  api_Docs : option string;
  Resources : list ResourceDefinition;
  MediaTypes : list MediaTypeDefinition;
  Types : list UserTypeDefinition;
  api_Responses : list ResponseDefinition;
  Consumes : list EncodingDefinition;
  Produces : list EncodingDefinition
}.

(** What validation takes from outside the sources: the standard library
    (URL and MIME parsing, the file system) and helpers of the design
    package. *)
Record Env : Type := {
  ParseRequestURI : string → option string;      (* the error, if any *)
  ParseMediaType : string → option string;       (* the error, if any *)
  PackageExists : string → bool;                 (* os.Stat under a GOPATH entry *)
  KnownEncoders : list string;                   (* keys, sorted *)
  ExtractWildcards : string → list string;
  WildcardKey : string → string;                 (* WildcardRegex replaced by a star *)
  Params : RouteDefinition → list string;        (* route.Params() *)
  CanonicalAction : ResourceDefinition → option ActionDefinition
}.

Record wildCardInfo : Type := {
  wc_Name : string;
  Orig : Definition_
}.

Record routeInfo : Type := {
  Key : string;
  ri_Resource : ResourceDefinition;
  ri_Action : ActionDefinition;
  ri_Route : RouteDefinition;
  Wildcards : list wildCardInfo
}.

(** The diagnostics, one constructor per format string of the sources,
    with the values the format string is filled with. *)
Inductive Msg : Type :=
| InvalidActionDocsURL (err : string)
| DuplicateWildcard (wc resourcePath routePath : string)
| RouteConflict (route other resource action : string)
    (conflicts : list (wildCardInfo * wildCardInfo))
| InvalidContactURL (err : string)
| InvalidLicenseURL (err : string)
| InvalidDocsURL (err : string)
| ResourceNameEmpty
| UnknownCanonicalAction (name : string)
| InvalidBaseParamsType
| BasePathParamsCount (vars : list string) (n : nat)
| BasePathVariableUnmatched (v basePath : string)
| BasePathUnusedParams
| ParentResourceNotFound (name : string)
| ParentNoCanonicalAction (name : string)
| MissingMIMEType
| InvalidMIMEType (m err : string)
| InvalidGoPackagePath (path : string)
| EncodersNotKnown (known : list string)
| MustSpecifyEncoderPackage
| ActionNameEmpty
| NoRouteDefined
| MultipleResponseStatus (status : nat)
| MissingParentResource
| ParamsNotObject
| ParamNoName
| ParamDefinitionNil (n : string)
| ParamTypeNil (n : string)
| ParamIsObject (n : string)
| AttributeTypeNil
| RequiredFieldMissing (ctx n : string)
| ResponseStatusUndefined
| MissingRouteParent
| UserTypeNoName (ctx : string)
| ArrayElemTypeNil
| CollectionElemNotMediaType (typeName : string)
| ViewOnNonMediaType (n : string)
| UnknownView (n view : string)
| NoDefaultView
| LinkNoName
| LinkNoParent
| LinkParentNotObject
| LinkNameUnmatched
| LinkAttrNotMediaType
| LinkViewMissing (view identifier : string)
| ViewNoParent.

Abbreviation VErrs := (ValidationErrors Msg).

(** ** The state validation runs in *)

(** [heap] holds the attribute definitions, [validated] is the package-level
    map of the sources.  [visits] is a ghost field: the attributes whose
    validation body ran, in that order; no result depends on it. *)
Record State : Type := {
  heap : Heap;
  validated : gset nat;
  visits : list nat
}.

Definition M (A : Type) : Type := State → result (A * State).

Definition ret {A} (a : A) : M A := λ st, Ok (a, st).

Definition bind {A B} (m : M A) (k : A → M B) : M B :=
  λ st, rbind (m st) (λ '(a, st'), k a st').

Definition lift {A} (r : result A) : M A :=
  λ st, rbind r (λ a, Ok (a, st)).

Definition getHeap : M Heap := λ st, Ok (heap st, st).

Notation "x <~ m ;; k" := (bind m (λ x, k))
  (at level 100, m at next level, right associativity).

(** A range loop whose body updates the local aggregate [v]. *)
Fixpoint range {A V} (l : list A) (body : A → V → M V) (v : V) : M V :=
  match l with
  | [] => ret v
  | x :: l' => v' <~ body x v ;; range l' body v'
  end.

(** [validated[a] = true] *)
Definition mark (p : nat) (st : State) : State :=
  {| heap := heap st;
     validated := {[p]} ∪ validated st;
     visits := visits st ++ [p] |}.

(** The attribute [att] with its [Type] field set to [t]. *)
Definition withType (att : AttributeDefinition) (t : DataType)
  : AttributeDefinition :=
  {| Type_ := Some t;
     AllRequired := AllRequired att;
     Metadata := Metadata att;
     View := View att |}.

(** [a.Type = t] *)
Definition setType (p : nat) (t : DataType) : M unit :=
  λ st,
    match heap st !! p with
    | None => Panic
    | Some att =>
        Ok (tt, {| heap := <[p := withType att t]> (heap st);
                   validated := validated st;
                   visits := visits st |})
    end.

(** ** Validation of attributes and types *)

(** The names of [required] that are no field of [o]: one diagnostic each. *)
Definition requiredMissing (parent : Definition_) (ctx : string)
    (required : list string) (o : Object) (verr : VErrs) : VErrs :=
  foldl (λ verr n,
           if bool_decide (n ∈ o.*1) then verr
           else Add verr parent (RequiredFieldMissing ctx n))
        verr required.

(** [func (a *AttributeDefinition) Validate(ctx, parent)].
    A nil receiver passes the [validated] test (nil is marked only by a call
    that then panics) and panics on [a.Type]. *)
Fixpoint AttributeDefinition_Validate (fuel : nat) (a : aptr) (ctx : string)
    (parent : Definition_) : M (option VErrs) :=
  match fuel with
  | 0 => λ _, OutOfFuel
  | S fuel' =>
    match a with
    | None => λ _, Panic
    | Some p => λ st,
      if bool_decide (p ∈ validated st) then Ok (None, st)
      else
        let st := mark p st in
        match heap st !! p with
        | None => Panic
        | Some att =>
          match Type_ att with
          | None => Ok (Some (Add [] parent AttributeTypeNil), st)
          | Some t =>
            let ctx := if bool_decide (ctx = EmptyString) then ctx
                       else ctx +:+ " - " in
            (o <~ lift (ToObject (heap st) t) ;;
             match o with
             | Some o =>
               let verr := requiredMissing parent ctx (AllRequired att) o [] in
               verr <~ range o (λ '(n, att) verr,
                         r <~ AttributeDefinition_Validate fuel' att
                                ("field " +:+ n) (AttributeDef p) ;;
                         ret (Merge verr r)) verr ;;
               ret (AsError verr)
             | None =>
               isArray <~ lift (IsArray (heap st) t) ;;
               if isArray : bool then
                 arr <~ lift (ToArray (heap st) t) ;;
                 match arr with
                 | None => lift Panic
                 | Some elemType =>
                   r <~ AttributeDefinition_Validate fuel' elemType ctx
                          (AttributeDef p) ;;
                   ret (AsError (Merge [] r))
                 end
               else ret None
             end) st
          end
        end
    end
  end.

(** [func (r *ResponseDefinition) Validate()] *)
Definition ResponseDefinition_Validate (fuel : nat) (r : ResponseDefinition)
  : M (option VErrs) :=
  let def := ResponseDef (resp_Name r) in
  verr <~ match Headers r with
          | None => ret []
          | Some _ =>
            e <~ AttributeDefinition_Validate fuel (Headers r)
                   "response headers" def ;;
            ret (Merge [] e)
          end ;;
  let verr := if bool_decide (Status r = 0)
              then Add verr def ResponseStatusUndefined else verr in
  ret (AsError verr).

(** [func (r *RouteDefinition) Validate()]; [parentIsNil] is [r.Parent == nil]. *)
Definition RouteDefinition_Validate (r : RouteDefinition) (parentIsNil : bool)
  : option VErrs :=
  let verr := if parentIsNil then Add [] (RouteDef (Path r)) MissingRouteParent
              else [] in
  AsError verr.

(** [func (u *UserTypeDefinition) Validate(ctx, parent)] *)
Definition UserTypeDefinition_Validate (fuel : nat) (u : UserTypeDefinition)
    (ctx : string) (parent : Definition_) : M (option VErrs) :=
  let verr := if bool_decide (TypeName u = EmptyString)
              then Add [] parent (UserTypeNoName ctx) else [] in
  e <~ AttributeDefinition_Validate fuel (ut_AttributeDefinition u) ctx parent ;;
  ret (AsError (Merge verr e)).

(** [func (v *ViewDefinition) Validate()] *)
Definition ViewDefinition_Validate (fuel : nat) (v : ViewDefinition)
  : M (option VErrs) :=
  let def := ViewDef (view_Name v) in
  let verr := if bool_decide (view_Parent v = None)
              then Add [] def ViewNoParent else [] in
  e <~ AttributeDefinition_Validate fuel (view_AttributeDefinition v)
         EmptyString def ;;
  ret (AsError (Merge verr e)).

#[global] Instance UserTypeDefinition_eq_dec : EqDecision UserTypeDefinition.
Proof. solve_decision. Defined.

(** [view] names one of [views] *)
Definition hasView (views : list (string * ViewDefinition)) (view : string)
  : bool :=
  bool_decide (view ∈ views.*1).

(** [func (l *LinkDefinition) Validate()] *)
Definition LinkDefinition_Validate (l : LinkDefinition) : M (option VErrs) :=
  let def := LinkDef (link_Name l) in
  let verr := if bool_decide (link_Name l = EmptyString)
              then Add [] def LinkNoName else [] in
  let verr := if bool_decide (link_Parent l = None)
              then Add verr def LinkNoParent else verr in
  h <~ getHeap ;;
  match link_Parent l with
  | None => lift Panic                       (* l.Parent.ToObject() on nil *)
  | Some parent =>
    o <~ lift (ToObject h (UserTypeT parent)) ;;
    let verr := if bool_decide (o = None)
                then Add verr def LinkParentNotObject else verr in
    match lookupField (default [] o) (link_Name l) with
    | None => ret (AsError (Add verr def LinkNameUnmatched))
    | Some att =>
      a <~ lift (deref h att) ;;
      match Type_ a with
      | Some (MediaTypeT mediaType) =>
        if hasView (Views mediaType) (link_View l) then ret (AsError verr)
        else ret (AsError (Add verr def
                    (LinkViewMissing (link_View l) (Identifier mediaType))))
      | _ => ret (AsError (Add verr def LinkAttrNotMediaType))
      end
    end
  end.

(** One iteration of the loop over the attributes of a media type. *)
Definition mediaTypeAttribute (fuel : nat) (def : Definition_)
    (natt : string * aptr) (verr : VErrs) : M VErrs :=
  let '(n, att) := natt in
  e <~ AttributeDefinition_Validate fuel att ("attribute " +:+ n) def ;;
  let verr := Merge verr e in
  h <~ getHeap ;;
  a <~ lift (deref h att) ;;
  if bool_decide (View a = EmptyString) then ret verr
  else
    match Type_ a with
    | Some (MediaTypeT cmt) =>
      if hasView (Views cmt) (View a) then ret verr
      else ret (Add verr def (UnknownView n (View a)))
    | _ =>
      (* the diagnostic is added, then [cmt.Views] is read from a nil [cmt] *)
      let verr := Add verr def (ViewOnNonMediaType n) in
      lift Panic
    end.

(** [func (m *MediaTypeDefinition) Validate()] *)
Definition MediaTypeDefinition_Validate (fuel : nat) (m : MediaTypeDefinition)
  : M (option VErrs) :=
  let def := MediaTypeDef (Identifier m) in
  let self := ut_AttributeDefinition (mt_UserTypeDefinition m) in
  e <~ UserTypeDefinition_Validate fuel (mt_UserTypeDefinition m)
         EmptyString def ;;
  let verr := Merge [] e in
  h <~ getHeap ;;
  att <~ lift (deref h self) ;;
  _ <~ match Type_ att, self with
       | None, Some p => setType p String_
       | _, _ => ret tt
       end ;;
  h <~ getHeap ;;
  t <~ lift (typeOf h self) ;;
  a <~ lift (ToArray h t) ;;
  vo <~
    match a with
    | Some None => ret (Add verr def ArrayElemTypeNil, None)
    | Some (Some elem) =>
      err <~ AttributeDefinition_Validate fuel (Some elem) "array element" def ;;
      match err with
      | Some _ => ret (Merge verr err, None)
      | None =>
        h <~ getHeap ;;
        eatt <~ lift (deref h (Some elem)) ;;
        match Type_ eatt with
        | Some (MediaTypeT em) =>
          o <~ lift (ToObject h (MediaTypeT em)) ;; ret (verr, o)
        | Some et =>
          name <~ lift (Name h et) ;;
          ret (Add verr def (CollectionElemNotMediaType name), None)
        | None => lift Panic                 (* a.ElemType.Type.Name() on nil *)
        end
      end
    | None => o <~ lift (ToObject h t) ;; ret (verr, o)
    end ;;
  let '(verr, obj) := vo in
  verr <~ match obj with
          | Some o => range o (mediaTypeAttribute fuel def) verr
          | None => ret verr
          end ;;
  h <~ getHeap ;;
  t <~ lift (typeOf h self) ;;
  isArray <~ lift (IsArray h t) ;;
  verr <~ (if isArray : bool then ret verr
           else
             verr <~ range (Views m) (λ '(_, v) verr,
                       e <~ ViewDefinition_Validate fuel v ;;
                       ret (Merge verr e)) verr ;;
             ret (if hasView (Views m) "default" then verr
                  else Add verr def NoDefaultView)) ;;
  verr <~ range (Links m) (λ '(_, l) verr,
            e <~ LinkDefinition_Validate l ;; ret (Merge verr e)) verr ;;
  ret (AsError verr).

(** ** Validation of actions, resources and encodings *)

(** One iteration of the loop over the parameters of an action.  After the
    if / else-if chain the loop body calls [p.Type.Kind()] whatever the
    chain found. *)
Definition validateParam (fuel : nat) (def : Definition_)
    (np : string * aptr) (verr : VErrs) : M VErrs :=
  let '(n, p) := np in
  h <~ getHeap ;;
  verr <~ (if bool_decide (n = EmptyString) then ret (Add verr def ParamNoName)
           else match p with
                | None => ret (Add verr def (ParamDefinitionNil n))
                | Some _ =>
                  att <~ lift (deref h p) ;;
                  ret (match Type_ att with
                       | None => Add verr def (ParamTypeNil n)
                       | Some _ => verr
                       end)
                end) ;;
  t <~ lift (typeOf h p) ;;
  let verr := if bool_decide (KindOf t = ObjectKind)
              then Add verr def (ParamIsObject n) else verr in
  e <~ AttributeDefinition_Validate fuel p ("parameter " +:+ n) def ;;
  ret (Merge verr e).

(** [func (a *ActionDefinition) ValidateParams()].  The loop that collects
    the wildcards of the routes fills a local that is never read. *)
Definition ValidateParams (fuel : nat) (a : ActionDefinition)
  : M (option VErrs) :=
  let def := ActionDef (act_Name a) in
  match act_Params a with
  | None => ret None
  | Some _ =>
    h <~ getHeap ;;
    patt <~ lift (deref h (act_Params a)) ;;
    let '(params, verr) :=
      match Type_ patt with
      | Some (ObjectT o) => (o, [])
      | _ => ([], Add [] def ParamsNotObject)
      end in
    verr <~ range params (validateParam fuel def) verr ;;
    verr <~ range (act_Responses a) (λ '(_, resp) verr,
              e <~ ResponseDefinition_Validate fuel resp ;;
              ret (Merge verr e)) verr ;;
    ret (AsError verr)
  end.

(** [func (a *ActionDefinition) Validate()] *)
Definition ActionDefinition_Validate (fuel : nat) (a : ActionDefinition)
  : M (option VErrs) :=
  let def := ActionDef (act_Name a) in
  let verr := if bool_decide (act_Name a = EmptyString)
              then Add [] def ActionNameEmpty else [] in
  let verr := if bool_decide (length (Routes a) = 0)
              then Add verr def NoRouteDefined else verr in
  verr <~ range (act_Responses a) (λ '(i, r) verr,
            let verr :=
              foldl (λ verr '(j, r2),
                       if bool_decide (i ≠ j ∧ Status r = Status r2)
                       then Add verr (ResponseDef (resp_Name r))
                              (MultipleResponseStatus (Status r))
                       else verr)
                    verr (act_Responses a) in
            e <~ ResponseDefinition_Validate fuel r ;;
            ret (Merge verr e)) verr ;;
  e <~ ValidateParams fuel a ;;
  let verr := Merge verr e in
  verr <~ match Payload a with
          | None => ret verr
          | Some u =>
            e <~ UserTypeDefinition_Validate fuel u "action payload" def ;;
            ret (Merge verr e)
          end ;;
  let verr := if bool_decide (act_Parent a = None)
              then Add verr def MissingParentResource else verr in
  ret (AsError verr).

Section WithEnv.
Context (env : Env).

(** [func (r *ResourceDefinition) validateActions(verr)] *)
Definition validateActions (fuel : nat) (r : ResourceDefinition)
    (verr : VErrs) : M VErrs :=
  verr <~ range (Actions r) (λ a verr,
            e <~ ActionDefinition_Validate fuel a ;; ret (Merge verr e)) verr ;;
  let found := bool_decide (CanonicalActionName r ∈ act_Name <$> Actions r) in
  ret (if bool_decide (CanonicalActionName r ≠ EmptyString) && negb found
       then Add verr (ResourceDef (res_Name r))
              (UnknownCanonicalAction (CanonicalActionName r))
       else verr).

(** [func (r *ResourceDefinition) validateBaseParams(verr)] *)
Definition validateBaseParams (r : ResourceDefinition) (verr : VErrs)
  : M VErrs :=
  let def := ResourceDef (res_Name r) in
  h <~ getHeap ;;
  att <~ lift (deref h (res_BaseParams r)) ;;
  match Type_ att with
  | Some (ObjectT baseParams) =>
    let vars := ExtractWildcards env (BasePath r) in
    if bool_decide (0 < length vars) then
      let verr := if bool_decide (length vars ≠ length baseParams)
                  then Add verr def
                         (BasePathParamsCount vars (length baseParams))
                  else verr in
      ret (foldl (λ verr v,
                    if bool_decide (v ∈ baseParams.*1) then verr
                    else Add verr def
                           (BasePathVariableUnmatched v (BasePath r)))
                 verr vars)
    else
      ret (if bool_decide (0 < length baseParams)
           then Add verr def BasePathUnusedParams else verr)
  | _ => ret (Add verr def InvalidBaseParamsType)
  end.

(** [func (r *ResourceDefinition) validateParent(verr)]; [Design] is the
    package-level API definition. *)
Definition validateParent (Design : APIDefinition) (r : ResourceDefinition)
    (verr : VErrs) : VErrs :=
  let def := ResourceDef (res_Name r) in
  match list_find (λ p, res_Name p = ParentName r) (Resources Design) with
  | None => Add verr def (ParentResourceNotFound (ParentName r))
  | Some (_, p) =>
    match CanonicalAction env p with
    | None => Add verr def (ParentNoCanonicalAction (ParentName r))
    | Some _ => verr
    end
  end.

(** [func (r *ResourceDefinition) Validate()] *)
Definition ResourceDefinition_Validate (fuel : nat) (Design : APIDefinition)
    (r : ResourceDefinition) : M (option VErrs) :=
  let def := ResourceDef (res_Name r) in
  let verr := if bool_decide (res_Name r = EmptyString)
              then Add [] def ResourceNameEmpty else [] in
  verr <~ validateActions fuel r verr ;;
  verr <~ match res_BaseParams r with
          | None => ret verr
          | Some _ => validateBaseParams r verr
          end ;;
  let verr := if bool_decide (ParentName r ≠ EmptyString)
              then validateParent Design r verr else verr in
  verr <~ range (res_Responses r) (λ resp verr,
            e <~ ResponseDefinition_Validate fuel resp ;;
            ret (Merge verr e)) verr ;;
  verr <~ match res_Params r with
          | None => ret verr
          | Some _ =>
            e <~ AttributeDefinition_Validate fuel (res_Params r)
                   "resource parameters" def ;;
            ret (Merge verr e)
          end ;;
  ret (AsError verr).

(** [func (enc *EncodingDefinition) Validate()]: it returns its aggregate
    itself, never nil. *)
Definition EncodingDefinition_Validate (enc : EncodingDefinition)
  : option VErrs :=
  let def := EncodingDef (MIMETypes enc) in
  if bool_decide (length (MIMETypes enc) = 0)
  then Some (Add [] def MissingMIMEType)
  else
    let verr :=
      foldl (λ verr m,
               match ParseMediaType env m with
               | Some err => Add verr def (InvalidMIMEType m err)
               | None => verr
               end) [] (MIMETypes enc) in
    let verr :=
      if bool_decide (0 < String.length (PackagePath enc)) then
        if PackageExists env (PackagePath enc) then verr
        else Add verr def (InvalidGoPackagePath (PackagePath enc))
      else
        foldl (λ verr m,
                 if bool_decide (m ∈ KnownEncoders env) then verr
                 else Add verr def (EncodersNotKnown (KnownEncoders env)))
              verr (MIMETypes enc) in
    let verr :=
      if bool_decide (Function enc ≠ EmptyString)
         && bool_decide (PackagePath enc = EmptyString)
      then Add verr def MustSpecifyEncoderPackage else verr in
    Some verr.

End WithEnv.

(** ** Routes and the top-level validation *)

(** [strings.Contains(s, sub)] *)
Fixpoint Contains (s sub : string) : bool :=
  if String.prefix sub s then true
  else match s with
       | EmptyString => false
       | String _ s' => Contains s' sub
       end.

(** The comparison loop of [DifferentWildcards]: [i] is the index of the
    next wildcard of the other route; [r.Wildcards[i]] panics when the
    receiver has fewer wildcards. *)
Fixpoint differentFrom (rws : list wildCardInfo) (i : nat)
    (ows : list wildCardInfo) (res : list (wildCardInfo * wildCardInfo))
  : result (list (wildCardInfo * wildCardInfo)) :=
  match ows with
  | [] => Ok res
  | wc :: ows' =>
    match rws !! i with
    | None => Panic
    | Some rw =>
      differentFrom rws (S i) ows'
        (if bool_decide (wc_Name rw ≠ wc_Name wc) then res ++ [(rw, wc)]
         else res)
    end
  end.

(** [func (r *routeInfo) DifferentWildcards(other)] *)
Definition DifferentWildcards (r other : routeInfo)
  : result (list (wildCardInfo * wildCardInfo)) :=
  differentFrom (Wildcards r) 0 (Wildcards other) [].

(** A conflict found by the scan: the two routes, each with its position in
    [allRoutes] (the identity that [route == other] compares), and the
    wildcards that differ. *)
Record conflict : Type := {
  c_route : nat * routeInfo;
  c_other : nat * routeInfo;
  c_diffs : list (wildCardInfo * wildCardInfo)
}.

(** [verr.Add(route.Action, ...)] for a conflict *)
Definition conflictError (c : conflict) : Definition_ * Msg :=
  let route := c_route c in
  let other := c_other c in
  (ActionDef (act_Name (ri_Action route.2)),
   RouteConflict (route_FullPath (ri_Route route.2))
     (route_FullPath (ri_Route other.2))
     (res_Name (ri_Resource other.2))
     (act_Name (ri_Action other.2))
     (c_diffs c)).

(** The inner loop of the scan, for route number [i]; [j] is the position
    of the head of [others]. *)
Fixpoint scanOthers (i : nat) (route : routeInfo) (j : nat)
    (others : list routeInfo) (found : list conflict)
  : result (list conflict) :=
  match others with
  | [] => Ok found
  | other :: others' =>
    if bool_decide (i = j) then scanOthers i route (S j) others' found
    else if String.prefix (Key other) (Key route) then
      rbind (DifferentWildcards route other) (λ diffs,
        scanOthers i route (S j) others'
          (if bool_decide (0 < length diffs)
           then found ++ [{| c_route := (i, route);
                             c_other := (j, other);
                             c_diffs := diffs |}]
           else found))
    else scanOthers i route (S j) others' found
  end.

(** The outer loop of the scan over [allRoutes]. *)
Fixpoint scanRoutes (allRoutes : list routeInfo) (i : nat)
    (routes : list routeInfo) (found : list conflict)
  : result (list conflict) :=
  match routes with
  | [] => Ok found
  | route :: routes' =>
    rbind (scanOthers i route 0 allRoutes found)
          (scanRoutes allRoutes (S i) routes')
  end.

Definition routeConflicts (allRoutes : list routeInfo)
  : result (list conflict) :=
  scanRoutes allRoutes 0 allRoutes [].

Section WithEnv.
Context (env : Env).

(** [func newRouteInfo(resource, action, route)] *)
Definition newRouteInfo (resource : ResourceDefinition)
    (action : ActionDefinition) (route : RouteDefinition) : routeInfo :=
  let vars := Params env route in
  let wi :=
    (λ v, {| wc_Name := v;
             Orig := if Contains (Path route) v then RouteDef (Path route)
                     else if Contains (BasePath resource) v
                          then ResourceDef (res_Name resource)
                          else DesignDef |}) <$> vars in
  {| Key := WildcardKey env (route_FullPath route);
     ri_Resource := resource;
     ri_Action := action;
     ri_Route := route;
     Wildcards := wi |}.

(** A URL that is set and does not parse gives a diagnostic. *)
Definition validateURL (url : option string) (def : Definition_)
    (msg : string → Msg) (verr : VErrs) : VErrs :=
  match url with
  | None => verr
  | Some u =>
    if bool_decide (u = EmptyString) then verr
    else match ParseRequestURI env u with
         | Some err => Add verr def (msg err)
         | None => verr
         end
  end.

(** The wildcards an action route shares with the base path of its resource. *)
Definition duplicateWildcards (def : Definition_) (parentPath : string)
    (ro : RouteDefinition) (verr : VErrs) : VErrs :=
  foldl (λ verr rwc,
           foldl (λ verr wc,
                    if bool_decide (rwc = wc)
                    then Add verr def
                           (DuplicateWildcard wc parentPath (Path ro))
                    else verr)
                 verr (ExtractWildcards env (Path ro)))
        verr (ExtractWildcards env parentPath).

(** The body of the callback given to [r.IterateActions]. *)
Definition validateActionRoutes (r : ResourceDefinition)
    (ac : ActionDefinition) (acc : VErrs * list routeInfo)
  : M (VErrs * list routeInfo) :=
  let def := ActionDef (act_Name ac) in
  let verr := validateURL (act_Docs ac) def InvalidActionDocsURL acc.1 in
  range (Routes ac) (λ ro '(verr, allRoutes),
    let allRoutes := allRoutes ++ [newRouteInfo r ac ro] in
    match act_Parent ac with
    | None => lift Panic                      (* ac.Parent.FullPath() on nil *)
    | Some parentPath =>
      ret (duplicateWildcards def parentPath ro verr, allRoutes)
    end) (verr, acc.2).

(** [func (a *APIDefinition) Validate()] *)
Definition APIDefinition_Validate (fuel : nat) (Design a : APIDefinition)
  : M (option VErrs) :=
  verr <~ match api_BaseParams a with
          | None => ret []
          | Some _ =>
            e <~ AttributeDefinition_Validate fuel (api_BaseParams a)
                   "base parameters" DesignDef ;;
            ret (Merge [] e)
          end ;;
  let verr := validateURL (Contact a) DesignDef InvalidContactURL verr in
  let verr := validateURL (License a) DesignDef InvalidLicenseURL verr in
  let verr := validateURL (api_Docs a) DesignDef InvalidDocsURL verr in
  acc <~ range (Resources a) (λ r '(verr, allRoutes),
           e <~ ResourceDefinition_Validate env fuel Design r ;;
           range (Actions r) (validateActionRoutes r)
                 (Merge verr e, allRoutes)) (verr, []) ;;
  let '(verr, allRoutes) := acc in
  conflicts <~ lift (routeConflicts allRoutes) ;;
  let verr := verr ++ (conflictError <$> conflicts) in
  verr <~ range (MediaTypes a) (λ mt verr,
            e <~ MediaTypeDefinition_Validate fuel mt ;;
            ret (Merge verr e)) verr ;;
  verr <~ range (Types a) (λ t verr,
            e <~ UserTypeDefinition_Validate fuel t EmptyString DesignDef ;;
            ret (Merge verr e)) verr ;;
  verr <~ range (api_Responses a) (λ r verr,
            e <~ ResponseDefinition_Validate fuel r ;;
            ret (Merge verr e)) verr ;;
  let verr := foldl (λ verr dec, Merge verr (EncodingDefinition_Validate env dec))
                    verr (Consumes a) in
  let verr := foldl (λ verr enc, Merge verr (EncodingDefinition_Validate env enc))
                    verr (Produces a) in
  ret (AsError verr).

End WithEnv.

End design.

(** ** Package codegen: transformation of one type into another *)

Module codegen.
Import dslengine design.

Definition TransformMapKey : string := "transform:key".

Definition nl : string := String (Ascii.ascii_of_nat 10) EmptyString.
Definition tab : string := String (Ascii.ascii_of_nat 9) EmptyString.

(** What a function of this package returns: [(string, error)], or for
    computeMapping [(map, error)]. *)
Definition error : Type := string.

(** The helpers that only shape the generated text; those that may panic
    answer [None] when they do.  [anonymousRef] stands for the evaluation of
    [gotyperef .Target.Type .Target.AllRequired 1] by the template engine,
    which the object template asks for when the target has no type name. *)
Record TextEnv : Type := {
  Tabs : nat → string;
  Goify : string → bool → string;
  GoTypeRef : Heap → DataType → list string → nat → option string;
  anonymousRef : Heap → Object → option string
}.

(** The first loops of computeMapping: the map from match key to field
    name.  [word] is the spelling of "attribute" in the error message, which
    differs between the two loops of the sources. *)
Fixpoint keyMap (h : Heap) (word : string) (o : Object) (ctx : string)
    (m : gmap string string) : result (gmap string string + error) :=
  match o with
  | [] => Ok (inl m)
  | (name, att) :: o' =>
    rbind (deref h att) (λ a,
      match Metadata a !! TransformMapKey with
      | Some [] =>
        Ok (inr ("invalid metadata transform key: missing value on "
                 +:+ word +:+ " " +:+ name +:+ " of " +:+ ctx))
      | Some (key :: _) => keyMap h word o' ctx (<[key := name]> m)
      | None => keyMap h word o' ctx (<[name := name]> m)
      end)
  end.

(** The last loop of computeMapping. *)
Definition joinMaps (sourceMap targetMap : gmap string string)
  : gmap string string :=
  foldl (λ attributeMap '(key, attName),
           match targetMap !! key with
           | Some targetAtt => <[attName := targetAtt]> attributeMap
           | None => attributeMap
           end)
        ∅ (map_to_list sourceMap).

(** [func computeMapping(source, target, sctx, tctx)] *)
Definition computeMapping (h : Heap) (source target : Object)
    (sctx tctx : string) : result (option (gmap string string) * option error) :=
  rbind (keyMap h "attribte" source sctx ∅) (λ r,
    match r with
    | inr e => Ok (None, Some e)
    | inl sourceMap =>
      rbind (keyMap h "attribute" target tctx ∅) (λ r,
        match r with
        | inr e => Ok (None, Some e)
        | inl targetMap => Ok (Some (joinMaps sourceMap targetMap), None)
        end)
    end).

(** The error of a kind mismatch between two matched fields: the two
    contexts, each followed by the name of the enclosing object type, and
    the names of the types of the two fields. *)
Definition incompatibleFields (sctx sname stype tctx tname ttype : string)
  : error :=
  "incompatible attribute types: " +:+ sctx +:+ "." +:+ sname
  +:+ " is of type " +:+ stype +:+ " but " +:+ tctx +:+ "." +:+ tname
  +:+ " is of type " +:+ ttype.

(** The validation loop of transformObject over the attribute map. *)
Fixpoint checkKinds (h : Heap) (source target : Object) (sctx tctx : string)
    (pairs : list (string * string)) : result (option error) :=
  match pairs with
  | [] => Ok None
  | (s, t) :: pairs' =>
    rbind (typeOf h (default None (lookupField source s))) (λ sT,
    rbind (typeOf h (default None (lookupField target t))) (λ tT,
      if bool_decide (KindOf sT ≠ KindOf tT) then
        rbind (Name h (ObjectT source)) (λ sname,
        rbind (Name h sT) (λ stype,
        rbind (Name h (ObjectT target)) (λ tname,
        rbind (Name h tT) (λ ttype,
          Ok (Some (incompatibleFields sctx sname stype
                      tctx tname ttype))))))
      else checkKinds h source target sctx tctx pairs'))
  end.

(** A function called from a template: an error it returns stops the
    execution of the template, and RunTemplate panics. *)
Definition called (r : result (string * option error)) : result string :=
  match r with
  | Ok (text, None) => Ok text
  | Ok (_, Some _) => Panic
  | Panic => Panic
  | OutOfFuel => OutOfFuel
  end.

(** [func typeName(att)] *)
Definition typeName (te : TextEnv) (h : Heap) (att : aptr) : result string :=
  rbind (deref h att) (λ a,
    Ok match Type_ a with
       | Some (UserTypeT ut) => Goify te (TypeName ut) true
       | Some (MediaTypeT mt) =>
         Goify te (TypeName (mt_UserTypeDefinition mt)) true
       | _ => EmptyString
       end).

(** The keys of an attribute map in the order a template ranges over it. *)
Definition sortedPairs (m : gmap string string) : list (string * string) :=
  merge_sort (λ a b, String.leb a.1 b.1) (map_to_list m).

Section Transform.
Context (te : TextEnv) (h : Heap).

(** transformAttribute, transformObject, transformArray and transformHash
    call each other, the last three through the templates they render;
    [fuel] bounds the depth of these calls.  A nil [*Array] or [*Hash]
    argument is [None]. *)
Fixpoint transformAttribute (fuel : nat) (source target : aptr)
    (targetPkg sctx tctx : string) (depth : nat)
  : result (string * option error) :=
  match fuel with
  | 0 => OutOfFuel
  | S fuel' =>
    rbind (typeOf h source) (λ sT,
    rbind (typeOf h target) (λ tT,
      if bool_decide (KindOf sT ≠ KindOf tT) then
        rbind (Name h sT) (λ stype,
        rbind (Name h tT) (λ ttype,
          Ok (EmptyString,
              Some ("incompatible attribute types: " +:+ sctx
                    +:+ " is of type " +:+ stype +:+ " but " +:+ tctx
                    +:+ " is of type " +:+ ttype))))
      else
        rbind (IsArray h sT) (λ isArray,
        if isArray : bool then
          rbind (ToArray h sT) (λ sa,
          rbind (ToArray h tT) (λ ta,
            transformArray fuel' sa ta targetPkg sctx tctx depth))
        else
          rbind (IsHash h sT) (λ isHash,
          if isHash : bool then
            rbind (ToHash h sT) (λ sh,
            rbind (ToHash h tT) (λ th,
              transformHash fuel' sh th targetPkg sctx tctx depth))
          else
            rbind (IsObject h sT) (λ isObject,
            if isObject : bool then
              rbind (ToObject h sT) (λ so,
              rbind (ToObject h tT) (λ to,
              rbind (typeName te h target) (λ tn,
                transformObject fuel' (default [] so) (default [] to)
                  targetPkg tn sctx tctx depth)))
            else
              Ok (Tabs te depth +:+ tctx +:+ " = " +:+ sctx +:+ nl,
                  None))))))
  end

with transformObject (fuel : nat) (source target : Object)
    (targetPkg targetType sctx tctx : string) (depth : nat)
  : result (string * option error) :=
  match fuel with
  | 0 => OutOfFuel
  | S fuel' =>
    rbind (computeMapping h source target sctx tctx) (λ '(m, err),
      match err with
      | Some e => Ok (EmptyString, Some e)
      | None =>
        let attributeMap := default ∅ m in
        rbind (checkKinds h source target sctx tctx
                 (map_to_list attributeMap)) (λ err,
          match err with
          | Some e => Ok (EmptyString, Some e)
          | None =>
            (* RunTemplate(transformObjectT, data) *)
            rbind (if bool_decide (targetType = EmptyString)
                   then orPanic (anonymousRef te h target)
                   else Ok targetType) (λ ref,
            let header :=
              Tabs te depth +:+ tctx +:+ " = new("
              +:+ (if bool_decide (targetPkg = EmptyString) then EmptyString
                   else targetPkg +:+ ".")
              +:+ ref +:+ ")" +:+ nl in
            rbind
              ((fix fields (pairs : list (string * string)) (text : string)
                  : result string :=
                  match pairs with
                  | [] => Ok text
                  | (s, t) :: pairs' =>
                    let sourceAtt := default None (lookupField source s) in
                    let targetAtt := default None (lookupField target t) in
                    let sctx' := sctx +:+ "." +:+ Goify te s true in
                    let tctx' := tctx +:+ "." +:+ Goify te t true in
                    rbind (typeOf h sourceAtt) (λ sT,
                    rbind (IsArray h sT) (λ isArray,
                    rbind
                      (if isArray : bool then
                         rbind (ToArray h sT) (λ sa,
                         rbind (typeOf h targetAtt) (λ tT,
                         rbind (ToArray h tT) (λ ta,
                           called (transformArray fuel' sa ta targetPkg
                                     sctx' tctx' depth))))
                       else
                         rbind (IsHash h sT) (λ isHash,
                         if isHash : bool then
                           rbind (ToHash h sT) (λ sh,
                           rbind (typeOf h targetAtt) (λ tT,
                           rbind (ToHash h tT) (λ th,
                             called (transformHash fuel' sh th targetPkg
                                       sctx' tctx' depth))))
                         else
                           rbind (IsObject h sT) (λ isObject,
                           if isObject : bool then
                             rbind (ToObject h sT) (λ so,
                             rbind (typeOf h targetAtt) (λ tT,
                             rbind (ToObject h tT) (λ to,
                             rbind (typeName te h targetAtt) (λ tn,
                               called (transformObject fuel'
                                         (default [] so) (default [] to)
                                         targetPkg tn sctx' tctx' depth)))))
                           else
                             Ok (Tabs te depth +:+ tctx' +:+ " = "
                                 +:+ sctx' +:+ nl))))
                      (λ piece, fields pairs' (text +:+ piece))))
                  end) (sortedPairs attributeMap) header)
              (λ text, Ok (text, None)))
          end)
      end)
  end

with transformArray (fuel : nat) (source target : option aptr)
    (targetPkg sctx tctx : string) (depth : nat)
  : result (string * option error) :=
  match fuel with
  | 0 => OutOfFuel
  | S fuel' =>
    match source, target with
    | Some se, Some te' =>
      rbind (typeOf h se) (λ sT,
      rbind (typeOf h te') (λ tT,
        if bool_decide (KindOf sT ≠ KindOf tT) then
          rbind (Name h sT) (λ stype,
          rbind (Name h tT) (λ ttype,
            Ok (EmptyString,
                Some ("incompatible attribute types: " +:+ sctx
                      +:+ " is an array with elements of type " +:+ stype
                      +:+ " but " +:+ tctx
                      +:+ " is an array with elements of type " +:+ ttype))))
        else
          (* RunTemplate(transformArrayT, data) *)
          rbind (orPanic (GoTypeRef te h tT [] 0)) (λ ref,
          rbind (called (transformAttribute fuel' se te' targetPkg
                           (sctx +:+ "[i]") (tctx +:+ "[i]") (depth + 1)))
            (λ elem,
              Ok (Tabs te depth +:+ tctx +:+ " = make([]" +:+ ref
                  +:+ ", len(" +:+ sctx +:+ "))" +:+ nl
                  +:+ Tabs te depth +:+ "for i, v := range " +:+ sctx
                  +:+ " {" +:+ nl
                  +:+ elem
                  +:+ Tabs te depth +:+ "}" +:+ nl,
                  None)))))
    | _, _ => Panic
    end
  end

with transformHash (fuel : nat) (source target : option (aptr * aptr))
    (targetPkg sctx tctx : string) (depth : nat)
  : result (string * option error) :=
  match fuel with
  | 0 => OutOfFuel
  | S fuel' =>
    match source, target with
    | Some (sk, se), Some (tk, te') =>
      rbind (typeOf h se) (λ sT,
      rbind (typeOf h te') (λ tT,
        if bool_decide (KindOf sT ≠ KindOf tT) then
          rbind (Name h sT) (λ stype,
          rbind (Name h tT) (λ ttype,
            Ok (EmptyString,
                Some ("incompatible attribute types: " +:+ sctx
                      +:+ " is a hash with elements of type " +:+ stype
                      +:+ " but " +:+ tctx
                      +:+ " is a hash with elements of type " +:+ ttype))))
        else
          rbind (typeOf h sk) (λ skT,
          rbind (typeOf h tk) (λ tkT,
            if bool_decide (KindOf skT ≠ KindOf tkT) then
              rbind (Name h skT) (λ stype,
              rbind (Name h tkT) (λ ttype,
                Ok (EmptyString,
                    Some ("incompatible attribute types: " +:+ sctx
                          +:+ " is a hash with keys of type " +:+ stype
                          +:+ " but " +:+ tctx
                          +:+ " is a hash with keys of type " +:+ ttype))))
            else
              (* RunTemplate(transformHashT, data) *)
              rbind (orPanic (GoTypeRef te h tkT [] 0)) (λ kref,
              rbind (orPanic (GoTypeRef te h tT [] 0)) (λ eref,
              rbind (called (transformAttribute fuel' sk tk targetPkg
                               "k" "tk" (depth + 1))) (λ key,
              rbind (called (transformAttribute fuel' se te' targetPkg
                               "v" "tv" (depth + 1))) (λ elem,
                Ok (Tabs te depth +:+ tctx +:+ " = make(map[" +:+ kref +:+ "]"
                    +:+ eref +:+ ", len(" +:+ sctx +:+ "))" +:+ nl
                    +:+ Tabs te depth +:+ "for k, v := range " +:+ sctx
                    +:+ " {" +:+ nl
                    +:+ Tabs te depth +:+ tab +:+ "var tk " +:+ kref +:+ nl
                    +:+ key
                    +:+ Tabs te depth +:+ tab +:+ "var tv " +:+ eref +:+ nl
                    +:+ elem
                    +:+ Tabs te depth +:+ tab +:+ tctx +:+ "[tk] = tv" +:+ nl
                    +:+ Tabs te depth +:+ "}" +:+ nl,
                    None)))))))))
    | _, _ => Panic
    end
  end.

(** [func GoTypeTransform(source, target, targetPkg, funcName)] *)
Definition GoTypeTransform (fuel : nat) (source target : UserTypeDefinition)
    (targetPkg funcName : string) : result (string * option error) :=
  let src := UserTypeT source in
  let tgt := UserTypeT target in
  let targetName :=
    rbind (typeOf h (ut_AttributeDefinition target)) (Name h) in
  rbind (IsObject h src) (λ sObject,
  rbind
    (if sObject : bool then
       rbind (IsObject h tgt) (λ tObject,
         if tObject : bool then
           rbind (ToObject h src) (λ so,
           rbind (ToObject h tgt) (λ to,
             transformObject fuel (default [] so) (default [] to) targetPkg
               (TypeName target) "source" "target" 1))
         else
           rbind targetName (λ n,
             Ok (EmptyString,
                 Some ("source is an object but target type is " +:+ n))))
     else
       rbind (IsArray h src) (λ sArray,
       if sArray : bool then
         rbind (IsArray h tgt) (λ tArray,
           if tArray : bool then
             rbind (ToArray h src) (λ sa,
             rbind (ToArray h tgt) (λ ta,
               transformArray fuel sa ta targetPkg "source" "target" 1))
           else
             rbind targetName (λ n,
               Ok (EmptyString,
                   Some ("source is an array but target type is " +:+ n))))
       else
         rbind (IsHash h src) (λ sHash,
         if sHash : bool then
           rbind (IsHash h tgt) (λ tHash,
             if tHash : bool then
               rbind (ToHash h src) (λ sh,
               rbind (ToHash h tgt) (λ th,
                 transformHash fuel sh th targetPkg "source" "target" 1))
             else
               rbind targetName (λ n,
                 Ok (EmptyString,
                     Some ("source is a hash but target type is " +:+ n))))
         else Panic)))             (* cannot transform primitive types *)
    (λ '(impl, err),
      match err with
      | Some e => Ok (EmptyString, Some e)
      | None =>
        rbind (orPanic (GoTypeRef te h tgt [] 0)) (λ t,
        rbind (orPanic (GoTypeRef te h src [] 0)) (λ sref,
          let t := if String.prefix "*" t
                      && bool_decide (0 < String.length targetPkg)
                   then "*" +:+ targetPkg +:+ "."
                        +:+ String.substring 1 (String.length t - 1) t
                   else t in
          Ok ("func " +:+ funcName +:+ "(source " +:+ sref
              +:+ ") (target " +:+ t +:+ ") {" +:+ nl
              +:+ impl +:+ tab +:+ "return" +:+ nl +:+ "}" +:+ nl,
              None)))
      end)).

End Transform.

(** ** Package codegen: identifiers *)

(** Goify, fixReserved and Tempvar.  A Go string is taken
    as the sequence of its runes, which is what [[]rune(str)] makes of it;
    a rune is its code point. *)
Module identifiers.

Definition rune : Type := N.

(** The runes of a string of the sources, all of which are ASCII. *)
Definition runesOf (s : string) : list rune :=
  (λ c, N.of_nat (Ascii.nat_of_ascii c)) <$> String.list_ascii_of_string s.

(** What Goify takes from package unicode, which is not among the
    sources. *)
Record Unicode : Type := {
  IsLetter : rune → bool;
  IsDigit : rune → bool;
  IsLower : rune → bool;
  ToUpper : rune → rune;
  ToLower : rune → rune
}.

Definition commonInitialisms : list string :=
  ["API"; "ASCII"; "CPU"; "CSS"; "DNS"; "EOF"; "GUID"; "HTML"; "HTTP";
   "HTTPS"; "ID"; "IP"; "JSON"; "LHS"; "OK"; "QPS"; "RAM"; "RHS"; "RPC";
   "SLA"; "SMTP"; "SQL"; "SSH"; "TCP"; "TLS"; "TTL"; "UDP"; "UI"; "UID";
   "UUID"; "URI"; "URL"; "UTF8"; "VM"; "XML"; "XSRF"; "XSS"].

(** reserved golang keywords *)
Definition reserved : list string :=
  ["byte"; "complex128"; "complex64"; "float32"; "float64"; "int"; "int16";
   "int32"; "int64"; "int8"; "rune"; "string"; "uint16"; "uint32"; "uint64";
   "uint8";
   "break"; "case"; "chan"; "const"; "continue"; "default"; "defer"; "else";
   "fallthrough"; "for"; "func"; "go"; "goto"; "if"; "import"; "interface";
   "map"; "package"; "range"; "return"; "select"; "struct"; "switch"; "type";
   "var"].

(** [func fixReserved(w)] *)
Definition fixReserved (w : list rune) : list rune :=
  if bool_decide (w ∈ (runesOf <$> reserved)) then w ++ runesOf "_" else w.

Definition underscore : rune := 95%N.

Section Goify.
Context (u : Unicode).

(** [func validIdentifier(r)] *)
Definition validIdentifier (r : rune) : bool := IsLetter u r || IsDigit u r.

(** [runes[i]]: an index out of range panics. *)
Definition at_ (runes : list rune) (i : nat) : result rune :=
  orPanic (runes !! i).

(** The number of underscores that the inner loop of Goify counts from
    position [i+1] on: [n] is the count so far, [rest] the runes from
    position [i+n+1] on. *)
Fixpoint underscores (rest : list rune) (n : nat) : nat :=
  match rest with
  | r :: rest' => if bool_decide (r = underscore) then underscores rest' (S n)
                  else n
  | [] => n
  end.

(** The first part of an iteration of the loop of Goify: the runes it
    leaves, and whether position [i] ends a word. *)
Definition scan (runes : list rune) (i : nat) : result (list rune * bool) :=
  if bool_decide (i + 1 = length runes) then Ok (runes, true)
  else
    rbind (at_ runes i) (λ ri,
      if negb (validIdentifier ri) then
        (* get rid of it *)
        Ok (take i runes ++ drop (i + 1) runes, false)
      else
        rbind (at_ runes (i + 1)) (λ ri1,
          if bool_decide (ri1 = underscore) then
            let n := underscores (drop (i + 2) runes) 1 in
            Ok (take (i + 1) runes ++ drop (i + n + 1) runes, true)
          else if IsLower u ri && negb (IsLower u ri1) then Ok (runes, true)
          else Ok (runes, false))).

(** [runes[w] = f(runes[w])] *)
Definition update (runes : list rune) (w : nat) (f : rune → rune)
  : result (list rune) :=
  rbind (at_ runes w) (λ r, Ok (<[w := f r]> runes)).

(** The second part of an iteration that ends a word: the word
    [runes[w:i]] is put in its case. *)
Definition capitalize (firstUpper : bool) (runes : list rune) (w i : nat)
  : result (list rune) :=
  if bool_decide (w ≤ i ≤ length runes) then
    let word := take (i - w) (drop w runes) in
    let up := ToUpper u <$> word in
    rbind
      (if bool_decide (up ∈ (runesOf <$> commonInitialisms)) then
         let up := if firstUpper then ToUpper u <$> up
                   else if bool_decide (w = 0) then ToLower u <$> up
                   else up in
         (* copy(runes[w:], []rune(u)) *)
         Ok (take w runes ++ take (length runes - w) up
             ++ drop (w + length up) runes)
       else if bool_decide (0 < w) && bool_decide (ToLower u <$> word = word)
       then update runes w (ToUpper u)
       else if bool_decide (w = 0) && bool_decide (ToLower u <$> word = word)
               && firstUpper
       then update runes w (ToUpper u)
       else Ok runes)
      (λ runes,
         if bool_decide (w = 0) && negb firstUpper
         then update runes w (ToLower u)
         else Ok runes)
  else Panic.                        (* the slice runes[w:i] is out of range *)

(** The loop of Goify, from the word start [w] and the position [i]. *)
Fixpoint words (fuel : nat) (firstUpper : bool) (runes : list rune)
    (w i : nat) : result (list rune) :=
  if bool_decide (i + 1 ≤ length runes) then
    match fuel with
    | 0 => OutOfFuel
    | S fuel' =>
      rbind (scan runes i) (λ '(runes, eow),
        let i := i + 1 in
        if eow : bool then
          rbind (capitalize firstUpper runes w i) (λ runes,
            words fuel' firstUpper runes i i)
        else words fuel' firstUpper runes w i)
    end
  else Ok runes.

(** [func Goify(str, firstUpper)] *)
Definition Goify (fuel : nat) (str : list rune) (firstUpper : bool)
  : result (list rune) :=
  rbind (words fuel firstUpper str 0 0) (λ runes, Ok (fixReserved runes)).

End Goify.

(** An int of [bits] bits: the sum of two ints wraps around. *)
Definition wrapInt (bits : Z) (z : Z) : Z :=
  ((z + 2 ^ (bits - 1)) `mod` 2 ^ bits - 2 ^ (bits - 1))%Z.

(** What [%d] prints of an int. *)
Definition decimal (z : Z) : string :=
  DecimalString.NilEmpty.string_of_int (Z.to_int z).

(** [func Tempvar()], on the variable [TempCount], which is an int: the
    name and the new value of [TempCount]. *)
Definition Tempvar (bits : Z) (TempCount : Z) : string * Z :=
  let TempCount := wrapInt bits (TempCount + 1) in
  ("tmp" +:+ decimal TempCount, TempCount).

End identifiers.

End codegen.

(** * Statements about the validation and transformation code *)

Import dslengine design codegen.

(** ** Vocabulary of the statements *)

(** *** Field mapping *)

(** The match key of a field: the first value of its transform:key
    metadata when the metadata is present, its own name otherwise; there is
    none when the metadata is present without a value, or the field is nil. *)
Definition matchKey (h : Heap) (name : string) (a : aptr) : option string :=
  match deref h a with
  | Ok att =>
    match Metadata att !! TransformMapKey with
    | Some [] => None
    | Some (key :: _) => Some key
    | None => Some name
    end
  | _ => None
  end.

(** Every field of the object is an attribute: no entry of the map is nil. *)
Definition allocated (h : Heap) (o : Object) : Prop :=
  ∀ n a, (n, a) ∈ o → ∃ att, deref h a = Ok att.

(** Some field declares the mapping metadata with an empty list of values. *)
Definition malformed (h : Heap) (o : Object) : Prop :=
  ∃ n a att, (n, a) ∈ o ∧ deref h a = Ok att
             ∧ Metadata att !! TransformMapKey = Some [].

(** Every field of the object has a match key. *)
Definition keyed (h : Heap) (o : Object) : Prop :=
  ∀ n a, (n, a) ∈ o → is_Some (matchKey h n a).

(** No two fields of the object have the same match key. *)
Definition distinctKeys (h : Heap) (o : Object) : Prop :=
  ∀ n1 a1 n2 a2 k, (n1, a1) ∈ o → (n2, a2) ∈ o →
    matchKey h n1 a1 = Some k → matchKey h n2 a2 = Some k → n1 = n2.

(** [s] is a field of the source, [t] a field of the target, and their
    match keys are equal. *)
Definition matched (h : Heap) (source target : Object) (s t : string) : Prop :=
  ∃ sa ta k, (s, sa) ∈ source ∧ (t, ta) ∈ target
             ∧ matchKey h s sa = Some k ∧ matchKey h t ta = Some k.

(** computeMapping succeeds, and maps a source field to a target field
    exactly when their match keys are equal. *)
Definition mapsMatchingFields (h : Heap) (source target : Object) : Prop :=
  ∃ m, computeMapping h source target "source" "target" = Ok (Some m, None)
       ∧ ∀ s t, m !! s = Some t ↔ matched h source target s t.

(** [n] is the field of the object that the loop visits last among the
    fields whose match key is [k]; the object lists its fields in the order
    in which the loop visits them. *)
Definition lastWithKey (h : Heap) (o : Object) (k n : string) : Prop :=
  ∃ front a back, o = front ++ (n, a) :: back
    ∧ matchKey h n a = Some k
    ∧ ∀ n' a', (n', a') ∈ back → matchKey h n' a' ≠ Some k.

(** computeMapping succeeds, and maps a source field to a target field
    exactly when, for some match key, each of the two is the field of its
    object visited last among those with this key. *)
Definition mapsLastFields (h : Heap) (source target : Object) : Prop :=
  ∃ m, computeMapping h source target "source" "target" = Ok (Some m, None)
       ∧ ∀ s t, m !! s = Some t
                ↔ ∃ k, lastWithKey h source k s ∧ lastWithKey h target k t.

(** *** Transformation *)

(** The source is an object, an array or a hash and the target is not. *)
Definition shapesDiffer (h : Heap) (source target : UserTypeDefinition) : Prop :=
  (IsObject h (UserTypeT source) = Ok true
   ∧ IsObject h (UserTypeT target) = Ok false)
  ∨ (IsObject h (UserTypeT source) = Ok false
     ∧ IsArray h (UserTypeT source) = Ok true
     ∧ IsArray h (UserTypeT target) = Ok false)
  ∨ (IsObject h (UserTypeT source) = Ok false
     ∧ IsArray h (UserTypeT source) = Ok false
     ∧ IsHash h (UserTypeT source) = Ok true
     ∧ IsHash h (UserTypeT target) = Ok false).

(** The field [s] of the source and the field [t] of the target have types
    of the same kind. *)
Definition sameKind (h : Heap) (source target : Object) (s t : string) : Prop :=
  ∃ sT tT, typeOf h (default None (lookupField source s)) = Ok sT
           ∧ typeOf h (default None (lookupField target t)) = Ok tT
           ∧ KindOf sT = KindOf tT.

(** *** Routes *)

Definition star : Ascii.ascii := Ascii.ascii_of_nat 42.

(** The number of placeholders in a route key. *)
Fixpoint placeholders (key : string) : nat :=
  match key with
  | EmptyString => 0
  | String c key' => (if Ascii.eqb c star then 1 else 0) + placeholders key'
  end.

(** The route has one wildcard name for each placeholder of its key. *)
Definition oneNamePerPlaceholder (r : routeInfo) : Prop :=
  length (Wildcards r) = placeholders (Key r).

(** The two routes have a wildcard at position [p], with different names. *)
Definition differAt (r other : routeInfo) (p : nat) : Prop :=
  ∃ a b, Wildcards r !! p = Some a ∧ Wildcards other !! p = Some b
         ∧ wc_Name a ≠ wc_Name b.

(** The scan reported that [route] conflicts with [other]. *)
Definition reports (found : list conflict) (route other : nat * routeInfo)
  : Prop :=
  ∃ c, c ∈ found ∧ c_route c = route ∧ c_other c = other.

(** The routes whose key is a prefix of the key of [route] have no more
    wildcards than [route]. *)
Definition enoughWildcards (route : routeInfo) (others : list routeInfo) : Prop :=
  ∀ other, other ∈ others → String.prefix (Key other) (Key route) = true →
           length (Wildcards other) ≤ length (Wildcards route).

(** *** Validation *)

(** The state of a process that has validated nothing yet. *)
Definition initial (h : Heap) : State :=
  {| heap := h; validated := ∅; visits := [] |}.

(** The number of attributes of the heap that are not marked validated. *)
Definition unvalidated (st : State) : nat :=
  size (dom (heap st) ∖ validated st).

(** The ghost record of visits agrees with the markers: no attribute body
    ran twice, and every attribute whose body ran is marked. *)
Definition consistent (st : State) : Prop :=
  NoDup (visits st) ∧ ∀ p, p ∈ visits st → p ∈ validated st.

(** What a validation function may do to the state: it allocates and frees
    nothing, it only adds markers, and it only appends visits. *)
Definition extends (st st' : State) : Prop :=
  dom (heap st') = dom (heap st)
  ∧ validated st ⊆ validated st'
  ∧ visits st `prefix_of` visits st'.

(** A computation that, given more fuel than there are unvalidated
    attributes, does not run out of it, and respects [consistent] and
    [extends]. *)
Definition sound (fuel : nat) {A} (m : M A) : Prop :=
  ∀ st, consistent st → unvalidated st < fuel →
    match m st with
    | Ok (_, st') => consistent st' ∧ extends st st'
    | Panic => True
    | OutOfFuel => False
    end.

(** A computation that leaves the heap as it found it. *)
Definition keepsHeap {A} (m : M A) : Prop :=
  ∀ st a st', m st = Ok (a, st') → heap st' = heap st.

(** A computation whose results, when it returns, satisfy [Q]. *)
Definition ensures {A} (m : M A) (Q : A → Prop) : Prop :=
  ∀ st a st', m st = Ok (a, st') → Q a.

(** Diagnostics that are all attached to definitions in [P]. *)
Definition allAbout (P : Definition_ → Prop) (verr : VErrs) : Prop :=
  Forall (λ x, P x.1) verr.

(** The definitions that the diagnostics of an attribute validation are
    attached to: the parent given to it, or an attribute. *)
Definition ofAttribute (parent d : Definition_) : Prop :=
  d = parent ∨ ∃ q, d = AttributeDef q.

(** The parameter is nil, or its type is. *)
Definition absent (h : Heap) (p : aptr) : Prop :=
  p = None ∨ ∃ x att, p = Some x ∧ h !! x = Some att ∧ Type_ att = None.

(** The diagnostic "attribute type is nil" for the media type itself. *)
Definition nilTypeOf (m : MediaTypeDefinition) : Definition_ * Msg :=
  (MediaTypeDef (Identifier m), AttributeTypeNil).




(** ** The examples of the statements *)

(** An attribute of type [t] without rules, metadata or view. *)
Definition plain (t : DataType) : AttributeDefinition :=
  {| Type_ := Some t; AllRequired := []; Metadata := ∅; View := EmptyString |}.

(** An attribute of type [t] with the alias [key]. *)
Definition aliased (t : DataType) (key : string) : AttributeDefinition :=
  {| Type_ := Some t; AllRequired := [];
     Metadata := {[ TransformMapKey := [key] ]}; View := EmptyString |}.

(** An attribute whose type is nil. *)
Definition nilTypeAttribute : AttributeDefinition :=
  {| Type_ := None; AllRequired := []; Metadata := ∅; View := EmptyString |}.

(** Attribute 0 is a string with alias "uid", attribute 1 a string. *)
Definition aliasHeap : Heap :=
  list_to_map [(0, aliased String_ "uid"); (1, plain String_)].

(** Attribute 0 declares the mapping metadata without a value. *)
Definition emptyKeyHeap : Heap :=
  list_to_map [(0, {| Type_ := Some String_; AllRequired := [];
                      Metadata := {[ TransformMapKey := [] ]};
                      View := EmptyString |});
               (1, plain String_)].

(** The source type is an object with the integer field [f], the target
    type an object with the string field [f]. *)
Definition fieldHeap (f : string) : Heap :=
  list_to_map [(0, plain (ObjectT [(f, Some 1)])); (1, plain Integer);
               (2, plain (ObjectT [(f, Some 3)])); (3, plain String_)].
Definition namedSource : UserTypeDefinition :=
  {| ut_AttributeDefinition := Some 0; TypeName := "Source" |}.
Definition namedTarget : UserTypeDefinition :=
  {| ut_AttributeDefinition := Some 2; TypeName := "Target" |}.

(** The source type is an array of objects with the integer field "id",
    the target type an array of objects with the string field "id". *)
Definition elemHeap : Heap :=
  list_to_map [(0, plain (ArrayT (Some 1)));
               (1, plain (ObjectT [("id", Some 2)]));
               (2, plain Integer);
               (3, plain (ArrayT (Some 4)));
               (4, plain (ObjectT [("id", Some 5)]));
               (5, plain String_)].
Definition elemSource : UserTypeDefinition :=
  {| ut_AttributeDefinition := Some 0; TypeName := "Source" |}.
Definition elemTarget : UserTypeDefinition :=
  {| ut_AttributeDefinition := Some 3; TypeName := "Target" |}.

(** The resource "widgets" with the routes "/widgets/:id" of its action
    show and "/widgets/:<wildcard>/items" of its action items. *)
Definition widgetsResource : ResourceDefinition :=
  {| res_Name := "widgets"; BasePath := "/widgets"; ParentName := EmptyString;
     CanonicalActionName := EmptyString; Actions := [];
     res_BaseParams := None; res_Params := None; res_Responses := [] |}.

Definition widgetsAction (name : string) (ro : RouteDefinition)
  : ActionDefinition :=
  {| act_Name := name; act_Docs := None; Routes := [ro]; act_Responses := [];
     act_Params := None; Payload := None; act_Parent := Some "/widgets" |}.

Definition showRoute : RouteDefinition :=
  {| Verb := "GET"; Path := "/:id"; route_FullPath := "/widgets/:id" |}.

Definition itemsRoute (wildcard : string) : RouteDefinition :=
  {| Verb := "GET"; Path := "/:" +:+ wildcard +:+ "/items";
     route_FullPath := "/widgets/:" +:+ wildcard +:+ "/items" |}.

Definition showInfo : routeInfo :=
  {| Key := "/widgets/*"; ri_Resource := widgetsResource;
     ri_Action := widgetsAction "show" showRoute; ri_Route := showRoute;
     Wildcards := [{| wc_Name := "id"; Orig := RouteDef "/:id" |}] |}.

Definition itemsInfo (wildcard : string) : routeInfo :=
  {| Key := "/widgets/*/items"; ri_Resource := widgetsResource;
     ri_Action := widgetsAction "items" (itemsRoute wildcard);
     ri_Route := itemsRoute wildcard;
     Wildcards := [{| wc_Name := wildcard;
                      Orig := RouteDef (Path (itemsRoute wildcard)) |}] |}.

(** An environment in which every URL and MIME type parses and no path
    has wildcards. *)
Definition noEnv : Env :=
  {| ParseRequestURI := λ _, None;
     ParseMediaType := λ _, None;
     PackageExists := λ _, true;
     KnownEncoders := ["application/json"];
     ExtractWildcards := λ _, [];
     WildcardKey := λ path, path;
     Params := λ _, [];
     CanonicalAction := λ _, None |}.

(** An API that has only user types, or only resources. *)
Definition withTypes (types : list UserTypeDefinition) : APIDefinition :=
  {| api_BaseParams := None; Contact := None; License := None;
     api_Docs := None; Resources := []; MediaTypes := []; Types := types;
     api_Responses := []; Consumes := []; Produces := [] |}.

Definition withResources (resources : list ResourceDefinition) : APIDefinition :=
  {| api_BaseParams := None; Contact := None; License := None;
     api_Docs := None; Resources := resources; MediaTypes := []; Types := [];
     api_Responses := []; Consumes := []; Produces := [] |}.

(** A user type Account: an object without fields that requires "id". *)
Definition accountHeap : Heap :=
  {[ 0 := {| Type_ := Some (ObjectT []); AllRequired := ["id"];
             Metadata := ∅; View := EmptyString |} ]}.

(** A user type Node whose field "next" is of type Node: a cycle. *)
Definition nodeType : UserTypeDefinition :=
  {| ut_AttributeDefinition := Some 0; TypeName := "Node" |}.
Definition nodeHeap : Heap :=
  list_to_map [(0, plain (ObjectT [("next", Some 1)]));
               (1, plain (UserTypeT nodeType))].
Definition nodeAPI : APIDefinition := withTypes [nodeType].

(** An action of the resource "widgets" with a parameter "id" whose type
    is nil. *)
Definition nilParamHeap : Heap :=
  list_to_map [(0, plain (ObjectT [("id", Some 1)])); (1, nilTypeAttribute)].
Definition nilParamAction : ActionDefinition :=
  {| act_Name := "show"; act_Docs := None; Routes := [showRoute];
     act_Responses := []; act_Params := Some 0; Payload := None;
     act_Parent := Some "/widgets" |}.
Definition nilParamAPI : APIDefinition :=
  withResources
    [{| res_Name := "widgets"; BasePath := "/widgets";
        ParentName := EmptyString; CanonicalActionName := EmptyString;
        Actions := [nilParamAction];
        res_BaseParams := None; res_Params := None; res_Responses := [] |}].

(** A media type Widget whose attribute "owner" is a string that names
    the view "default". *)
Definition ownerHeap : Heap :=
  list_to_map [(0, plain (ObjectT [("owner", Some 1)]));
               (1, {| Type_ := Some String_; AllRequired := [];
                      Metadata := ∅; View := "default" |})].
Definition widgetMedia : MediaTypeDefinition :=
  {| mt_UserTypeDefinition :=
       {| ut_AttributeDefinition := Some 0; TypeName := "Widget" |};
     Identifier := "application/vnd.widget"; Links := []; Views := [] |}.

(** A media type Bottle whose type is nil, and the state after its
    validation. *)
Definition bottleHeap : Heap := {[ 0 := nilTypeAttribute ]}.
Definition bottleMedia : MediaTypeDefinition :=
  {| mt_UserTypeDefinition :=
       {| ut_AttributeDefinition := Some 0; TypeName := "Bottle" |};
     Identifier := "application/vnd.bottle"; Links := []; Views := [] |}.
Definition afterBottlePass : State :=
  {| heap := {[ 0 := withType nilTypeAttribute String_ ]};
     validated := {[0]}; visits := [0] |}.

(** ** Vocabulary of the further properties *)

(** *** Routes, base parameters and encodings *)

(** The pair [d] holds the wildcards of two routes at position [k], and
    their names differ. *)
Definition differingAt (r other : routeInfo) (k : nat)
    (d : wildCardInfo * wildCardInfo) : Prop :=
  Wildcards r !! k = Some d.1 ∧ Wildcards other !! k = Some d.2
  ∧ wc_Name d.1 ≠ wc_Name d.2.

(** The diagnostic for a wildcard that the base path of the resource and
    the path of the route both use. *)
Definition duplicateOf (def : Definition_) (parentPath : string)
    (ro : RouteDefinition) (wc : string) : Definition_ * Msg :=
  (def, DuplicateWildcard wc parentPath (Path ro)).

(** The base parameters agree with the wildcards of the base path: no
    parameter without wildcard; otherwise as many parameters as wildcards,
    every wildcard being the name of a parameter. *)
Definition baseParamsMatch (vars : list string) (baseParams : Object) : Prop :=
  match vars with
  | [] => baseParams = []
  | _ :: _ =>
    length vars = length baseParams ∧ ∀ v, v ∈ vars → v ∈ baseParams.*1
  end.

(** What an encoding needs for its validation to find nothing. *)
Definition wellFormedEncoding (env : Env) (enc : EncodingDefinition) : Prop :=
  MIMETypes enc ≠ []
  ∧ (∀ m, m ∈ MIMETypes enc → ParseMediaType env m = None)
  ∧ if bool_decide (PackagePath enc = EmptyString)
    then (∀ m, m ∈ MIMETypes enc → m ∈ KnownEncoders env)
         ∧ Function enc = EmptyString
    else PackageExists env (PackagePath enc) = true.

(** A resource whose base parameters are the attribute [p]. *)
Definition withBaseParams (p : nat) : ResourceDefinition :=
  {| res_Name := "accounts"; BasePath := "/accounts";
     ParentName := EmptyString; CanonicalActionName := EmptyString;
     Actions := []; res_BaseParams := Some p; res_Params := None;
     res_Responses := [] |}.

(** *** Attributes *)

(** [c] is an attribute that the validation of the attribute [q] goes on
    to: a field of the object of [q], or the element of the array of [q]. *)
Inductive child (h : Heap) (q : nat) : nat → Prop :=
| child_field att t o n f :
    h !! q = Some att → Type_ att = Some t →
    ToObject h t = Ok (Some o) → (n, Some f) ∈ o → child h q f
| child_elem att t e :
    h !! q = Some att → Type_ att = Some t →
    ToObject h t = Ok None → ToArray h t = Ok (Some (Some e)) → child h q e.

(** The attribute [q] has a type, and when the type is an object every
    name that [q] requires is a field of it. *)
Definition wellFormedAttribute (h : Heap) (q : nat) : Prop :=
  ∃ att t, h !! q = Some att ∧ Type_ att = Some t
    ∧ ∀ o, ToObject h t = Ok (Some o) → ∀ n, n ∈ AllRequired att → n ∈ o.*1.

(** *** Actions and resources *)

(** The parameters of an action are an object given inline; every
    parameter has a name and a type, and the type is no object. *)
Definition wellFormedParams (h : Heap) (a : ActionDefinition) : Prop :=
  act_Params a ≠ None →
  ∃ att o, deref h (act_Params a) = Ok att ∧ Type_ att = Some (ObjectT o)
    ∧ ∀ n q, (n, q) ∈ o →
        n ≠ EmptyString ∧ ∃ t, typeOf h q = Ok t ∧ KindOf t ≠ ObjectKind.

(** The action has a name, a route and a parent resource; its responses
    have a status, and no two of them the same. *)
Definition wellFormedAction (h : Heap) (a : ActionDefinition) : Prop :=
  act_Name a ≠ EmptyString
  ∧ Routes a ≠ []
  ∧ act_Parent a ≠ None
  ∧ (∀ i ri, (i, ri) ∈ act_Responses a → Status ri ≠ 0)
  ∧ (∀ i ri j rj, (i, ri) ∈ act_Responses a → (j, rj) ∈ act_Responses a →
       i ≠ j → Status ri ≠ Status rj)
  ∧ wellFormedParams h a.

(** The resource has a name; its canonical action, when named, is one of
    its actions; its parent, when named, is a resource of the design with
    a canonical action; its base parameters agree with its base path; its
    responses have a status and its actions are well formed. *)
Definition wellFormedResource (env : Env) (Design : APIDefinition) (h : Heap)
    (r : ResourceDefinition) : Prop :=
  res_Name r ≠ EmptyString
  ∧ (CanonicalActionName r ≠ EmptyString →
     CanonicalActionName r ∈ act_Name <$> Actions r)
  ∧ (res_BaseParams r ≠ None →
     ∃ att baseParams, deref h (res_BaseParams r) = Ok att
       ∧ Type_ att = Some (ObjectT baseParams)
       ∧ baseParamsMatch (ExtractWildcards env (BasePath r)) baseParams)
  ∧ (ParentName r ≠ EmptyString →
     ∃ p, p ∈ Resources Design ∧ res_Name p = ParentName r
          ∧ is_Some (CanonicalAction env p))
  ∧ (∀ resp, resp ∈ res_Responses r → Status resp ≠ 0)
  ∧ ∀ a, a ∈ Actions r → wellFormedAction h a.

(** *** The API *)

(** A URL that is set parses. *)
Definition validURL (env : Env) (url : option string) : Prop :=
  ∀ u, url = Some u → u ≠ EmptyString → ParseRequestURI env u = None.

(** The routes of the API, in the order the top-level validation collects
    them. *)
Definition routesOf (env : Env) (a : APIDefinition) : list routeInfo :=
  r ← Resources a; ac ← Actions r; newRouteInfo env r ac <$> Routes ac.

(** The URL of the documentation of the action parses, and no route of the
    action uses a wildcard of the base path of its resource. *)
Definition wellRoutedAction (env : Env) (ac : ActionDefinition) : Prop :=
  validURL env (act_Docs ac)
  ∧ ∀ ro, ro ∈ Routes ac →
      ∃ parentPath, act_Parent ac = Some parentPath
        ∧ ∀ wc, wc ∈ ExtractWildcards env parentPath →
                wc ∉ ExtractWildcards env (Path ro).

(** What the top-level validation checks besides the attribute graphs. *)
Definition wellFormedAPI (env : Env) (Design : APIDefinition) (h : Heap)
    (a : APIDefinition) : Prop :=
  validURL env (Contact a) ∧ validURL env (License a)
  ∧ validURL env (api_Docs a)
  ∧ (∀ r, r ∈ Resources a →
       wellFormedResource env Design h r
       ∧ ∀ ac, ac ∈ Actions r → wellRoutedAction env ac)
  ∧ routeConflicts (routesOf env a) = Ok []
  ∧ (∀ m, m ∈ MediaTypes a →
       TypeName (mt_UserTypeDefinition m) ≠ EmptyString)
  ∧ (∀ t, t ∈ Types a → TypeName t ≠ EmptyString)
  ∧ (∀ resp, resp ∈ api_Responses a → Status resp ≠ 0)
  ∧ ∀ enc, enc ∈ Consumes a ++ Produces a → wellFormedEncoding env enc.

(** The resource "widgets" with its action show. *)
Definition showResource : ResourceDefinition :=
  {| res_Name := "widgets"; BasePath := "/widgets"; ParentName := EmptyString;
     CanonicalActionName := "show";
     Actions := [widgetsAction "show" showRoute];
     res_BaseParams := None; res_Params := None; res_Responses := [] |}.

(** *** Hashes, links and responses *)

(** Attribute 0 is a hash from strings to attribute 2, whose type is nil. *)
Definition hashHeap : Heap :=
  list_to_map [(0, plain (HashT (Some 1) (Some 2))); (1, plain String_);
               (2, nilTypeAttribute)].

(** The link names an attribute of its parent media type whose type is a
    media type that has the view of the link. *)
Definition wellFormedLink (h : Heap) (l : LinkDefinition) : Prop :=
  link_Name l ≠ EmptyString
  ∧ ∃ parent o att a mediaType,
      link_Parent l = Some parent
      ∧ ToObject h (UserTypeT parent) = Ok (Some o)
      ∧ lookupField o (link_Name l) = Some att
      ∧ deref h att = Ok a
      ∧ Type_ a = Some (MediaTypeT mediaType)
      ∧ link_View l ∈ (Views mediaType).*1.

(** The diagnostic for a response without status. *)
Definition noStatus (resp : ResponseDefinition) : Definition_ * Msg :=
  (ResponseDef (resp_Name resp), ResponseStatusUndefined).

(** An action with an empty parameter object and a response without
    status. *)
Definition paramsHeap : Heap := {[ 0 := plain (ObjectT []) ]}.
Definition noStatusResponse : ResponseDefinition :=
  {| resp_Name := "OK"; Status := 0; Headers := None |}.
Definition noStatusAction : ActionDefinition :=
  {| act_Name := "show"; act_Docs := None; Routes := [showRoute];
     act_Responses := [("OK", noStatusResponse)];
     act_Params := Some 0; Payload := None; act_Parent := Some "/widgets" |}.

(** A link of a media type Account to its attribute "owner", a media type
    User with a view "link". *)
Definition userMedia : MediaTypeDefinition :=
  {| mt_UserTypeDefinition :=
       {| ut_AttributeDefinition := Some 2; TypeName := "User" |};
     Identifier := "application/vnd.user"; Links := [];
     Views := [("link", {| view_AttributeDefinition := Some 2;
                           view_Name := "link"; view_Parent := None |})] |}.
Definition linkHeap : Heap :=
  list_to_map [(0, plain (ObjectT [("owner", Some 1)]));
               (1, plain (MediaTypeT userMedia));
               (2, plain (ObjectT []))].
Definition ownerLink : LinkDefinition :=
  {| link_Name := "owner"; link_View := "link";
     link_Parent := Some {| ut_AttributeDefinition := Some 0;
                            TypeName := "Account" |} |}.

(** *** What validation writes *)

(** The heap [h'] is the heap [h] in which the nil type of some attributes
    that satisfy [P] has been set to String. *)
Definition stringified (P : nat → Prop) (h h' : Heap) : Prop :=
  ∀ p, h' !! p = h !! p
       ∨ (P p ∧ ∃ att, h !! p = Some att ∧ Type_ att = None
                       ∧ h' !! p = Some (withType att String_)).

(** [p] is the attribute of a media type of the API. *)
Definition mediaTypeOf (a : APIDefinition) (p : nat) : Prop :=
  ∃ m, m ∈ MediaTypes a
       ∧ ut_AttributeDefinition (mt_UserTypeDefinition m) = Some p.

(** An API that has only media types. *)
Definition withMediaTypes (ms : list MediaTypeDefinition) : APIDefinition :=
  {| api_BaseParams := None; Contact := None; License := None;
     api_Docs := None; Resources := []; MediaTypes := ms; Types := [];
     api_Responses := []; Consumes := []; Produces := [] |}.

(** *** Media types *)

(** Every attribute of the object that names a view has a media type for
    type, and this media type has the view. *)
Definition viewsResolve (h : Heap) (o : Object) : Prop :=
  ∀ n att, (n, att) ∈ o →
    ∃ a, deref h att = Ok a
      ∧ (View a ≠ EmptyString →
         ∃ cmt, Type_ a = Some (MediaTypeT cmt) ∧ View a ∈ (Views cmt).*1).

(** The media type has a name and well-formed links.  When it is no array
    it has the view "default", its views have a parent and the views that
    its attributes name exist; when it is an array, its elements are of a
    media type, and the views that the attributes of this media type name
    exist. *)
Definition wellFormedMediaType (h : Heap) (m : MediaTypeDefinition) : Prop :=
  TypeName (mt_UserTypeDefinition m) ≠ EmptyString
  ∧ (∀ n l, (n, l) ∈ Links m → wellFormedLink h l)
  ∧ ∃ t, typeOf h (ut_AttributeDefinition (mt_UserTypeDefinition m)) = Ok t
    ∧ ((ToArray h t = Ok None
        ∧ "default" ∈ (Views m).*1
        ∧ (∀ n v, (n, v) ∈ Views m → view_Parent v ≠ None)
        ∧ ∀ o, ToObject h t = Ok (Some o) → viewsResolve h o)
       ∨ (∃ e eatt em,
            ToArray h t = Ok (Some (Some e)) ∧ h !! e = Some eatt
            ∧ Type_ eatt = Some (MediaTypeT em)
            ∧ ∀ o, ToObject h (MediaTypeT em) = Ok (Some o) →
                   viewsResolve h o)).

(** A media type Account with the view "default" and an attribute "owner"
    rendered with the view "link" of the media type User. *)
Definition accountMediaHeap : Heap :=
  list_to_map [(0, plain (ObjectT [("owner", Some 1)]));
               (1, {| Type_ := Some (MediaTypeT userMedia); AllRequired := [];
                      Metadata := ∅; View := "link" |});
               (2, plain (ObjectT []))].
Definition accountMedia : MediaTypeDefinition :=
  {| mt_UserTypeDefinition :=
       {| ut_AttributeDefinition := Some 0; TypeName := "Account" |};
     Identifier := "application/vnd.account"; Links := [("owner", ownerLink)];
     Views := [("default",
                {| view_AttributeDefinition := Some 0; view_Name := "default";
                   view_Parent :=
                     Some {| ut_AttributeDefinition := Some 0;
                             TypeName := "Account" |} |})] |}.

(** *** Field mapping and transformation *)

(** The error of computeMapping for the field [n] of the object that
    [ctx] names; [word] is the spelling of "attribute" in the message. *)
Definition missingKeyValue (word n ctx : string) : error :=
  "invalid metadata transform key: missing value on " +:+ word +:+ " "
  +:+ n +:+ " of " +:+ ctx.

(** The field [n] is the first field of [o], in the order of the loop,
    that declares the mapping metadata without a value. *)
Definition firstMalformed (h : Heap) (o : Object) (n : string) : Prop :=
  ∃ before a att after,
    o = before ++ (n, a) :: after ∧ ¬ malformed h before
    ∧ deref h a = Ok att ∧ Metadata att !! TransformMapKey = Some [].

(** How the errors of GoTypeTransform speak of a source that is an
    object, an array or a hash. *)
Definition shapeWord (t : DataType) : option string :=
  match t with
  | ObjectT _ => Some "an object"
  | ArrayT _ => Some "an array"
  | HashT _ _ => Some "a hash"
  | _ => None
  end.

(** Both types are objects, both arrays, or both hashes. *)
Definition sameShape (s t : DataType) : bool :=
  match s, t with
  | ObjectT _, ObjectT _ | ArrayT _, ArrayT _ | HashT _ _, HashT _ _ => true
  | _, _ => false
  end.

(** The text of a transformation function. *)
Definition transformFunction (funcName sref tref impl : string) : string :=
  "func " +:+ funcName +:+ "(source " +:+ sref +:+ ") (target " +:+ tref
  +:+ ") {" +:+ nl +:+ impl +:+ tab +:+ "return" +:+ nl +:+ "}" +:+ nl.

(** A text environment for the examples: no tabulation, identifiers as
    they are, and the name of the shape for the reference to a type. *)
Definition plainText : TextEnv :=
  {| Tabs := λ _, EmptyString;
     Goify := λ s _, s;
     GoTypeRef := λ _ t _ _, Some (shapeName t);
     anonymousRef := λ _ _, Some "struct" |}.

(** A named type whose type is the primitive String. *)
Definition primitiveHeap : Heap := {[ 0 := plain String_ ]}.
Definition primitiveType : UserTypeDefinition :=
  {| ut_AttributeDefinition := Some 0; TypeName := "Name" |}.

(** The named type Target of [elemHeap] seen as a type of its own: a named
    type whose type is the integer of attribute 2. *)
Definition primitiveTarget : UserTypeDefinition :=
  {| ut_AttributeDefinition := Some 2; TypeName := "Count" |}.

(** The line that assigns the field [st.1] of the source to the field
    [st.2] of the target. *)
Definition assignment (te : TextEnv) (depth : nat) (sctx tctx : string)
    (st : string * string) : string :=
  let sctx' := sctx +:+ "." +:+ Goify te st.1 true in
  let tctx' := tctx +:+ "." +:+ Goify te st.2 true in
  Tabs te depth +:+ tctx' +:+ " = " +:+ sctx' +:+ nl.

(** The text that creates the target object, followed by one assignment
    for each pair of the mapping, in the order of the keys. *)
Definition objectPlan (te : TextEnv) (depth : nat) (targetPkg targetType : string)
    (sctx tctx : string) (m : gmap string string) : string :=
  foldl (λ text st, text +:+ assignment te depth sctx tctx st)
        (Tabs te depth +:+ tctx +:+ " = new("
         +:+ (if bool_decide (targetPkg = EmptyString) then EmptyString
              else targetPkg +:+ ".")
         +:+ targetType +:+ ")" +:+ nl)
        (sortedPairs m).

(** The reference to the type of the target, in the package of the target
    when the reference is a pointer and the package is given. *)
Definition qualified (targetPkg t : string) : string :=
  if String.prefix "*" t && bool_decide (0 < String.length targetPkg)
  then "*" +:+ targetPkg +:+ "." +:+ String.substring 1 (String.length t - 1) t
  else t.

(** Every pair of the mapping is a pair of fields of the same primitive
    kind. *)
Definition primitivePairs (h : Heap) (source target : Object)
    (m : gmap string string) : Prop :=
  ∀ s t, m !! s = Some t →
    ∃ sa ta k, lookupField source s = Some sa ∧ lookupField target t = Some ta
      ∧ typeOf h sa = Ok (PrimitiveT k) ∧ typeOf h ta = Ok (PrimitiveT k).

(** Two named types with a string field "id"; the field of the first has
    the alias "uid", which is the name of the field of the second. *)
Definition flatHeap : Heap :=
  list_to_map [(0, plain (ObjectT [("id", Some 1)]));
               (1, aliased String_ "uid");
               (2, plain (ObjectT [("uid", Some 3)]));
               (3, plain String_)].
Definition flatSource : UserTypeDefinition :=
  {| ut_AttributeDefinition := Some 0; TypeName := "Source" |}.
Definition flatTarget : UserTypeDefinition :=
  {| ut_AttributeDefinition := Some 2; TypeName := "Target" |}.

(** *** Identifiers *)

(** The tables of package unicode on the ASCII runes; the other runes are
    taken for symbols without case. *)
Definition asciiTables : identifiers.Unicode :=
  let between (a b r : N) := ((a <=? r) && (r <=? b))%N in
  {| identifiers.IsLetter := λ r, between 65%N 90%N r || between 97%N 122%N r;
     identifiers.IsDigit := between 48%N 57%N;
     identifiers.IsLower := between 97%N 122%N;
     identifiers.ToUpper := λ r, if between 97%N 122%N r then (r - 32)%N else r;
     identifiers.ToLower := λ r, if between 65%N 90%N r then (r + 32)%N else r |}.

(** The value of [TempCount] after [n] calls of Tempvar. *)
Fixpoint calls (bits : Z) (n : nat) (TempCount : Z) : Z :=
  match n with
  | 0 => TempCount
  | S n => (identifiers.Tempvar bits (calls bits n TempCount)).2
  end.

(** The last rune of [runes] is [c]. *)
Definition endsWith (c : identifiers.rune) (runes : list identifiers.rune)
  : Prop :=
  runes !! (length runes - 1) = Some c.

(** *** What a pass validates *)


(** The attributes that a marked attribute leads to are marked as well. *)
Definition closed (st : State) : Prop :=
  ∀ p c, p ∈ validated st → child (heap st) p c → c ∈ validated st.


(** What validation does to the markers and the record of visits: markers
    and visits are only added, and an attribute is marked only when its
    body runs. *)
Definition logs (st st' : State) : Prop :=
  validated st ⊆ validated st'
  ∧ (∀ q, q ∈ visits st → q ∈ visits st')
  ∧ (∀ q, q ∈ validated st' → q ∈ validated st ∨ q ∈ visits st').

(** What validation does to the attribute graph: nil types may become
    String, and markers that were closed under [child] are so again. *)
Definition closes (st st' : State) : Prop :=
  stringified (λ _, True) (heap st) (heap st') ∧ (closed st → closed st').

(** A computation whose runs that return are related by [T]. *)
Definition respects (T : State → State → Prop) {A} (m : M A) : Prop :=
  ∀ st a st', m st = Ok (a, st') → T st st'.










(** * Proofs *)

(** ** Shapes of types *)

(** Objects and primitives are their own underlying type, whatever the heap. *)
Lemma underlying_ObjectT h o : underlying h (ObjectT o) = Ok (ObjectT o).
Proof. unfold underlying. by destruct (size h). Qed.

Lemma underlying_PrimitiveT h k :
  underlying h (PrimitiveT k) = Ok (PrimitiveT k).
Proof. unfold underlying. by destruct (size h). Qed.

Lemma ToArray_ObjectT h o : ToArray h (ObjectT o) = Ok None.
Proof. unfold ToArray. by rewrite underlying_ObjectT. Qed.

Lemma ToObject_ObjectT h o : ToObject h (ObjectT o) = Ok (Some o).
Proof. unfold ToObject. by rewrite underlying_ObjectT. Qed.

Lemma ToArray_PrimitiveT h k : ToArray h (PrimitiveT k) = Ok None.
Proof. unfold ToArray. by rewrite underlying_PrimitiveT. Qed.

Lemma ToObject_PrimitiveT h k : ToObject h (PrimitiveT k) = Ok None.
Proof. unfold ToObject. by rewrite underlying_PrimitiveT. Qed.

Lemma IsArray_PrimitiveT h k : IsArray h (PrimitiveT k) = Ok false.
Proof. unfold IsArray. by rewrite ToArray_PrimitiveT. Qed.

(** ** computeMapping *)

(** keyMap fails exactly on the objects with a field that declares the
    metadata without a value. *)
Lemma keyMap_cases h word o ctx m :
  allocated h o →
  (malformed h o ∧ ∃ e, keyMap h word o ctx m = Ok (inr e))
  ∨ (¬ malformed h o ∧ ∃ m', keyMap h word o ctx m = Ok (inl m')).
Proof.
  revert m. induction o as [|[n a] o IH]; intros m Hal.
  - right. split; [|by eexists]. intros (n & a & att & Hin & _). by apply elem_of_nil in Hin.
  - destruct (Hal n a) as [att Hatt]; [left|].
    assert (Hal' : allocated h o).
    { intros n' a' Hin. apply (Hal n' a'). by right. }
    simpl. rewrite Hatt. simpl.
    destruct (Metadata att !! TransformMapKey) as [[|key keys]|] eqn:Hmeta.
    + left. split; [|by eexists]. exists n, a, att. split_and!; [left|done|done].
    + destruct (IH (<[key:=n]> m) Hal') as [[Hm He]|[Hm He]].
      * left. split; [|done]. destruct Hm as (n' & a' & att' & Hin & H1 & H2).
        exists n', a', att'. split_and!; [by right|done|done].
      * right. split; [|done]. intros (n' & a' & att' & Hin & H1 & H2).
        apply elem_of_cons in Hin as [Heq|Hin].
        -- simplify_eq; congruence.
        -- apply Hm. by exists n', a', att'.
    + destruct (IH (<[n:=n]> m) Hal') as [[Hm He]|[Hm He]].
      * left. split; [|done]. destruct Hm as (n' & a' & att' & Hin & H1 & H2).
        exists n', a', att'. split_and!; [by right|done|done].
      * right. split; [|done]. intros (n' & a' & att' & Hin & H1 & H2).
        apply elem_of_cons in Hin as [Heq|Hin].
        -- simplify_eq; congruence.
        -- apply Hm. by exists n', a', att'.
Qed.

(** C9.  On objects whose fields are attributes (none is nil),
    computeMapping returns an error and no mapping exactly when a field of
    the source or of the target declares the transform:key metadata with an
    empty list of values, and it returns a mapping and no error exactly
    when no field does. *)
Theorem computeMapping_fails_iff h source target sctx tctx :
  allocated h source → allocated h target →
  ((∃ e, computeMapping h source target sctx tctx = Ok (None, Some e))
     ↔ (malformed h source ∨ malformed h target))
  ∧ ((∃ m, computeMapping h source target sctx tctx = Ok (Some m, None))
     ↔ ¬ (malformed h source ∨ malformed h target)).
Proof.
  intros Hs Ht. unfold computeMapping.
  destruct (keyMap_cases h "attribte" source sctx ∅ Hs) as [[Hm [e He]]|[Hm [m He]]];
    rewrite He; simpl.
  { split; split; try naive_solver. }
  destruct (keyMap_cases h "attribute" target tctx ∅ Ht) as [[Hm' [e He']]|[Hm' [m' He']]];
    rewrite He'; simpl.
  { split; split; try naive_solver. }
  split; split; try naive_solver.
Qed.

Lemma allocated_single h n a att : deref h a = Ok att → allocated h [(n, a)].
Proof. intros Ha ?? [= -> ->]%list_elem_of_singleton. by exists att. Qed.

Lemma computeMapping_fails_witness :
  ∃ e, computeMapping emptyKeyHeap [("id", Some 0)] [("uid", Some 1)]
         "source" "target" = Ok (None, Some e).
Proof.
  apply (computeMapping_fails_iff emptyKeyHeap [("id", Some 0)]
           [("uid", Some 1)] "source" "target").
  - by eapply allocated_single.
  - by eapply allocated_single.
  - left. eexists "id", (Some 0), _.
    split_and!; [apply list_elem_of_here|reflexivity|reflexivity].
Defined.

(** One iteration of keyMap on a field that has a match key. *)
Lemma keyMap_step h word n a o ctx m k :
  matchKey h n a = Some k →
  keyMap h word ((n, a) :: o) ctx m = keyMap h word o ctx (<[k := n]> m).
Proof.
  unfold matchKey. simpl. destruct (deref h a) as [att| |]; [|done..]. simpl.
  destruct (Metadata att !! TransformMapKey) as [[|key keys]|]; [done|..];
    intros [= <-]; done.
Qed.

(** On an object whose fields have distinct match keys, keyMap adds to the
    map one entry per field, from its match key to its name. *)
Lemma keyMap_lookup h word o ctx m :
  NoDup o.*1 → keyed h o → distinctKeys h o →
  (∀ k n a, (n, a) ∈ o → matchKey h n a = Some k → m !! k = None) →
  ∃ m', keyMap h word o ctx m = Ok (inl m')
        ∧ ∀ k n, m' !! k = Some n
                 ↔ m !! k = Some n ∨ ∃ a, (n, a) ∈ o ∧ matchKey h n a = Some k.
Proof.
  revert m. induction o as [|[n0 a0] o IH]; intros m Hnd Hk Hd Hfresh.
  - exists m. split; [done|]. intros k n. split; [by left|].
    intros [?|(a & Hin & _)]; [done|]. by apply elem_of_nil in Hin.
  - destruct (Hk n0 a0) as [k0 Hk0]; [left|].
    rewrite (keyMap_step _ _ _ _ _ _ _ k0 Hk0).
    apply NoDup_cons in Hnd as [Hn0 Hnd].
    destruct (IH (<[k0:=n0]> m)) as (m' & Hrun & Hm'); [done|..].
    + intros n a Hin. apply Hk. by right.
    + intros n1 a1 n2 a2 k H1 H2. apply Hd; by right.
    + intros k n a Hin Hkey. rewrite lookup_insert_ne.
      * eapply Hfresh; [by right|done].
      * intros <-. apply Hn0.
        rewrite (Hd n0 a0 n a k0); [|left|by right|done|done].
        apply list_elem_of_fmap. by exists (n, a).
    + exists m'. split; [done|]. intros k n. rewrite Hm'.
      assert (m !! k0 = None) as Hm0 by (eapply Hfresh; [left|done]).
      split.
      * intros [Hl|(a & Hin & Hkey)].
        -- rewrite lookup_insert in Hl. case_decide as Heq.
           ++ simplify_eq. right. exists a0. split; [left|done].
           ++ by left.
        -- right. exists a. split; [by right|done].
      * intros [Hl|(a & Hin & Hkey)].
        -- left. rewrite lookup_insert_ne; [done|]. intros <-. congruence.
        -- apply elem_of_cons in Hin as [Heq|Hin].
           ++ injection Heq as -> ->. left. rewrite Hk0 in Hkey.
              injection Hkey as ->. apply lookup_insert_eq.
           ++ right. by exists a.
Qed.

(** The loop of the join: an entry of the result was in the accumulator or
    comes from a pair of the source map whose key is in the target map. *)
Lemma joinMaps_fold (tm : gmap string string) (l : list (string * string))
    (acc : gmap string string) (s t : string) :
  NoDup l.*2 → (∀ n, n ∈ l.*2 → acc !! n = None) →
  foldl (λ attributeMap '(key, attName),
           match tm !! key with
           | Some targetAtt => <[attName := targetAtt]> attributeMap
           | None => attributeMap
           end) acc l !! s = Some t
  ↔ acc !! s = Some t ∨ ∃ k, (k, s) ∈ l ∧ tm !! k = Some t.
Proof.
  revert acc. induction l as [|[k0 n0] l IH]; intros acc Hnd Hfresh.
  - simpl. split; [by left|]. intros [?|(k & Hin & _)]; [done|].
    by apply elem_of_nil in Hin.
  - simpl in *. apply NoDup_cons in Hnd as [Hn0 Hnd].
    assert (acc !! n0 = None) as Hacc0 by (apply Hfresh; left).
    rewrite IH; [|done|].
    + split.
      * intros [Hl|(k & Hin & Hk)].
        -- destruct (tm !! k0) as [t0|] eqn:Ht0; [|by left].
           rewrite lookup_insert in Hl. case_decide as Heq.
           ++ simplify_eq. right. exists k0. split; [left|done].
           ++ by left.
        -- right. exists k. split; [by right|done].
      * intros [Hl|(k & Hin & Hk)].
        -- left. destruct (tm !! k0); [|done].
           rewrite lookup_insert_ne; [done|]. intros <-. congruence.
        -- apply elem_of_cons in Hin as [Heq|Hin].
           ++ simplify_eq. left. rewrite Hk. apply lookup_insert_eq.
           ++ right. by exists k.
    + intros n Hn. destruct (tm !! k0).
      * rewrite lookup_insert_ne; [apply Hfresh; by right|].
        intros <-. done.
      * apply Hfresh. by right.
Qed.

(** The join of two key maps, when no two keys of the source map lead to
    the same field. *)
Lemma joinMaps_lookup (sm tm : gmap string string) s t :
  (∀ k1 k2 n, sm !! k1 = Some n → sm !! k2 = Some n → k1 = k2) →
  joinMaps sm tm !! s = Some t ↔ ∃ k, sm !! k = Some s ∧ tm !! k = Some t.
Proof.
  intros Hinj. unfold joinMaps. rewrite joinMaps_fold.
  - split.
    + intros [Hl|(k & Hin & Hk)]; [by rewrite lookup_empty in Hl|].
      exists k. by apply elem_of_map_to_list in Hin.
    + intros (k & Hs & Hk). right. exists k. by apply elem_of_map_to_list in Hs.
  - apply NoDup_fmap_2_strong; [|apply NoDup_map_to_list].
    intros [k1 n1] [k2 n2] H1 H2 Heq. simpl in Heq. subst n2.
    apply elem_of_map_to_list in H1, H2. f_equal. by eapply Hinj.
  - intros n _. apply lookup_empty.
Qed.

(** An object without repeated field names gives one attribute per name. *)
Lemma field_fun (o : Object) n a1 a2 :
  NoDup o.*1 → (n, a1) ∈ o → (n, a2) ∈ o → a1 = a2.
Proof.
  induction o as [|[n0 a0] o IH]; intros Hnd H1 H2.
  - by apply elem_of_nil in H1.
  - apply NoDup_cons in Hnd as [Hn0 Hnd].
    apply elem_of_cons in H1 as [H1|H1], H2 as [H2|H2]; simplify_eq; auto.
    + destruct Hn0. apply list_elem_of_fmap. by exists (n0, a2).
    + destruct Hn0. apply list_elem_of_fmap. by exists (n0, a1).
Qed.

(** Without collisions of match keys, computeMapping maps the fields whose
    match keys are equal, and only them. *)
Lemma computeMapping_matching h source target :
  NoDup source.*1 → NoDup target.*1 →
  keyed h source → keyed h target →
  distinctKeys h source → distinctKeys h target →
  mapsMatchingFields h source target.
Proof.
  intros Hns Hnt Hks Hkt Hds Hdt. unfold mapsMatchingFields, computeMapping.
  destruct (keyMap_lookup h "attribte" source "source" ∅) as (sm & -> & Hsm);
    [done..| |].
  { intros. apply lookup_empty. }
  destruct (keyMap_lookup h "attribute" target "target" ∅) as (tm & -> & Htm);
    [done..| |].
  { intros. apply lookup_empty. }
  simpl. eexists. split; [done|]. intros s t.
  rewrite joinMaps_lookup.
  - split.
    + intros (k & Hs & Ht). apply Hsm in Hs as [Hs|(sa & Hs1 & Hs2)];
        [by rewrite lookup_empty in Hs|].
      apply Htm in Ht as [Ht|(ta & Ht1 & Ht2)];
        [by rewrite lookup_empty in Ht|].
      by exists sa, ta, k.
    + intros (sa & ta & k & Hs1 & Ht1 & Hs2 & Ht2). exists k. split.
      * apply Hsm. right. by exists sa.
      * apply Htm. right. by exists ta.
  - intros k1 k2 n H1 H2.
    apply Hsm in H1 as [H1|(a1 & Hin1 & Hk1)]; [by rewrite lookup_empty in H1|].
    apply Hsm in H2 as [H2|(a2 & Hin2 & Hk2)]; [by rewrite lookup_empty in H2|].
    assert (a1 = a2) as <- by (by apply (field_fun source n)).
    congruence.
Qed.

(** Whatever the match keys are, keyMap leaves under each key the field
    visited last among those with this key, and what the map held under the
    keys of no field. *)
Lemma keyMap_last h word o ctx m :
  keyed h o →
  ∃ m', keyMap h word o ctx m = Ok (inl m')
        ∧ ∀ k n, m' !! k = Some n
                 ↔ lastWithKey h o k n
                   ∨ (m !! k = Some n
                      ∧ ∀ n' a', (n', a') ∈ o → matchKey h n' a' ≠ Some k).
Proof.
  revert m. induction o as [|[n0 a0] o IH]; intros m Hk.
  - exists m. split; [done|]. intros k n. split.
    + intros Hm. right. split; [done|]. by intros ?? ?%elem_of_nil.
    + intros [(front & a & back & Ho & _)|[Hm _]]; [|done].
      by destruct front.
  - destruct (Hk n0 a0) as [k0 Hk0]; [left|].
    rewrite (keyMap_step _ _ _ _ _ _ _ k0 Hk0).
    destruct (IH (<[k0:=n0]> m)) as (m' & Hrun & Hm').
    { intros n a Hin. apply Hk. by right. }
    exists m'. split; [done|]. intros k n. rewrite Hm'. split.
    + intros [(front & a & back & -> & Ha & Hback)|[Hl Hnone]].
      * left. by exists ((n0, a0) :: front), a, back.
      * destruct (decide (k = k0)) as [->|Hne].
        -- rewrite lookup_insert_eq in Hl. injection Hl as <-.
           left. by exists [], a0, o.
        -- rewrite lookup_insert_ne in Hl by done. right. split; [done|].
           intros n' a' [[= -> ->]|Hin]%elem_of_cons; [congruence|].
           by apply Hnone.
    + intros [(front & a & back & Ho & Ha & Hback)|[Hl Hnone]].
      * destruct front as [|x front]; simpl in Ho.
        -- injection Ho as <- <- <-. right.
           assert (k = k0) as -> by congruence.
           by rewrite lookup_insert_eq.
        -- injection Ho as <- ->. left. by exists front, a, back.
      * right. split.
        -- rewrite lookup_insert_ne; [done|]. intros <-.
           by apply (Hnone n0 a0); [left|].
        -- intros n' a' Hin. apply Hnone. by right.
Qed.

(** A field visited last with a key is a field of the object with this
    match key. *)
Lemma lastWithKey_field h o k n :
  lastWithKey h o k n → ∃ a, (n, a) ∈ o ∧ matchKey h n a = Some k.
Proof.
  intros (front & a & back & -> & Ha & _). exists a. split; [|done].
  apply elem_of_app. right. left.
Qed.

(** Whatever the match keys are, computeMapping pairs the fields visited
    last with each key. *)
Lemma computeMapping_last h source target :
  NoDup source.*1 → keyed h source → keyed h target →
  mapsLastFields h source target.
Proof.
  intros Hns Hks Hkt. unfold mapsLastFields, computeMapping.
  destruct (keyMap_last h "attribte" source "source" ∅ Hks)
    as (sm & -> & Hsm).
  destruct (keyMap_last h "attribute" target "target" ∅ Hkt)
    as (tm & -> & Htm).
  simpl. eexists. split; [done|].
  assert (∀ k n, sm !! k = Some n ↔ lastWithKey h source k n) as Hsm'.
  { intros k n. rewrite Hsm. split; [|by left].
    intros [?|[Hl _]]; [done|by rewrite lookup_empty in Hl]. }
  assert (∀ k n, tm !! k = Some n ↔ lastWithKey h target k n) as Htm'.
  { intros k n. rewrite Htm. split; [|by left].
    intros [?|[Hl _]]; [done|by rewrite lookup_empty in Hl]. }
  intros s t. rewrite joinMaps_lookup.
  - split; intros (k & Hs & Ht); exists k.
    + by rewrite <-Hsm', <-Htm'.
    + by rewrite Hsm', Htm'.
  - intros k1 k2 n H1 H2.
    apply Hsm', lastWithKey_field in H1 as (a1 & Hin1 & Hk1).
    apply Hsm', lastWithKey_field in H2 as (a2 & Hin2 & Hk2).
    assert (a1 = a2) as <- by (by apply (field_fun source n)).
    congruence.
Qed.

(** The example of the alias: "id" with the alias "uid" is mapped to the
    field "uid". *)
Lemma alias_example :
  computeMapping aliasHeap [("id", Some 0)] [("uid", Some 1)] "source" "target"
  = Ok (Some {[ "id" := "uid" ]}, None).
Proof. vm_compute. reflexivity. Qed.

(** Without alias, fields of different names are not mapped. *)
Lemma no_alias_example :
  computeMapping aliasHeap [("id", Some 1)] [("identifier", Some 1)]
    "source" "target"
  = Ok (Some ∅, None).
Proof. vm_compute. reflexivity. Qed.

(** Two fields of the source with the same match key: whichever of the two
    the loop visits last takes the key, and the other is mapped to nothing
    although its match key is the one of the target field. *)
Lemma computeMapping_collision :
  ¬ mapsMatchingFields aliasHeap [("a", Some 0); ("uid", Some 1)]
      [("uid", Some 1)]
  ∧ ¬ mapsMatchingFields aliasHeap [("uid", Some 1); ("a", Some 0)]
        [("uid", Some 1)].
Proof.
  assert (matchKey aliasHeap "a" (Some 0) = Some "uid") as Ha
    by (vm_compute; reflexivity).
  assert (matchKey aliasHeap "uid" (Some 1) = Some "uid") as Hu
    by (vm_compute; reflexivity).
  split; intros (m & Hrun & Hm).
  - assert (m !! "a" = Some "uid") as H.
    { apply Hm. exists (Some 0), (Some 1), "uid".
      split_and!; [apply list_elem_of_here..|exact Ha|exact Hu]. }
    vm_compute in Hrun. injection Hrun as <-. vm_compute in H. discriminate.
  - assert (m !! "uid" = Some "uid") as H.
    { apply Hm. exists (Some 1), (Some 1), "uid".
      split_and!; [apply list_elem_of_here..|exact Hu|exact Hu]. }
    vm_compute in Hrun. injection Hrun as <-. vm_compute in H. discriminate.
Qed.

(** C5, as amended.  For two objects in which every field has a match key
    and no two fields of the same object have the same match key,
    computeMapping succeeds and maps a source field to a target field
    exactly when their match keys are equal; a field without a partner is
    in no pair.  When fields of one object share a match key, the field
    visited last with a key is the one that takes part: in general a
    source field is mapped to a target field exactly when, for some match
    key, each is the field of its object visited last with this key.  The
    source id (alias "uid") and the target uid give the mapping of id to
    uid; the source id without alias and the target identifier give the
    empty mapping. *)
Theorem computeMapping_matches_distinct_keys :
  (∀ h source target,
     NoDup source.*1 → NoDup target.*1 →
     keyed h source → keyed h target →
     distinctKeys h source → distinctKeys h target →
     mapsMatchingFields h source target)
  ∧ (∀ h source target,
       NoDup source.*1 → keyed h source → keyed h target →
       mapsLastFields h source target)
  ∧ computeMapping aliasHeap [("id", Some 0)] [("uid", Some 1)]
      "source" "target"
    = Ok (Some {[ "id" := "uid" ]}, None)
  ∧ computeMapping aliasHeap [("id", Some 1)] [("identifier", Some 1)]
      "source" "target"
    = Ok (Some ∅, None).
Proof.
  split_and!; [apply computeMapping_matching|apply computeMapping_last
               |apply alias_example|apply no_alias_example].
Qed.

(** An object with one field that has a match key has no collision. *)
Lemma single_field h n a : is_Some (matchKey h n a) →
  NoDup [(n, a)].*1 ∧ keyed h [(n, a)] ∧ distinctKeys h [(n, a)].
Proof.
  intros Hk. split_and!.
  - apply NoDup_singleton.
  - by intros ?? [= -> ->]%list_elem_of_singleton.
  - by intros ????? [= -> ->]%list_elem_of_singleton
               [= -> ->]%list_elem_of_singleton.
Qed.

Lemma computeMapping_witness :
  mapsMatchingFields aliasHeap [("id", Some 0)] [("uid", Some 1)]
  ∧ mapsLastFields aliasHeap [("a", Some 0); ("uid", Some 1)]
      [("uid", Some 1)].
Proof.
  destruct (single_field aliasHeap "id" (Some 0)) as (? & ? & ?); [by eexists|].
  destruct (single_field aliasHeap "uid" (Some 1)) as (? & ? & ?); [by eexists|].
  split.
  - by apply (proj1 computeMapping_matches_distinct_keys).
  - apply (proj1 (proj2 computeMapping_matches_distinct_keys)); [| |done].
    + compute_done.
    + intros n a [[= -> ->]|[= -> ->]%list_elem_of_singleton]%elem_of_cons;
        by eexists.
Defined.

(** ** GoTypeTransform *)

(** The fields of the two example types. *)
Lemma fieldHeap_1 f : fieldHeap f !! 1 = Some (plain Integer).
Proof. reflexivity. Qed.

Lemma fieldHeap_3 f : fieldHeap f !! 3 = Some (plain String_).
Proof. reflexivity. Qed.

(** The mapping between the two example types maps the field to itself. *)
Lemma computeMapping_single f sctx tctx :
  computeMapping (fieldHeap f) [(f, Some 1)] [(f, Some 3)] sctx tctx
  = Ok (Some {[ f := f ]}, None).
Proof.
  unfold computeMapping. simpl. rewrite fieldHeap_1, fieldHeap_3. simpl.
  rewrite !lookup_empty. simpl. unfold joinMaps.
  rewrite insert_empty. rewrite map_to_list_singleton. simpl.
  by rewrite lookup_singleton_eq, insert_empty.
Qed.

(** C8.  What the code does on a source object with one integer field [f]
    and a target object with one string field [f], in particular for the
    field "count": GoTypeTransform returns no text and the kind mismatch
    error, and the error names the contexts followed by the name of the
    object type, "source.object" and "target.object"; it is the same error
    whatever the name of the field is, so it does not name the field. *)
Theorem mismatch_names_object (te : TextEnv) (fuel : nat) (f pkg fn : string) :
  GoTypeTransform te (fieldHeap f) (S fuel) namedSource namedTarget pkg fn
  = Ok (EmptyString,
        Some ("incompatible attribute types: source.object is of type integer"
              +:+ " but target.object is of type string")).
Proof.
  unfold GoTypeTransform.
  change (IsObject (fieldHeap f) (UserTypeT namedSource)) with (@Ok bool true).
  change (IsObject (fieldHeap f) (UserTypeT namedTarget)) with (@Ok bool true).
  change (ToObject (fieldHeap f) (UserTypeT namedSource)) with (Ok (Some [(f, Some 1)])).
  change (ToObject (fieldHeap f) (UserTypeT namedTarget)) with (Ok (Some [(f, Some 3)])).
  simpl. rewrite computeMapping_single. simpl.
  rewrite map_to_list_singleton. simpl.
  rewrite !decide_True by done. simpl.
  change (typeOf (fieldHeap f) (Some 1)) with (Ok Integer).
  change (typeOf (fieldHeap f) (Some 3)) with (Ok String_).
  reflexivity.
Qed.

(** The text of that error does not contain the name of the field. *)
Lemma mismatch_error_does_not_mention_count :
  Contains
    ("incompatible attribute types: source.object is of type integer"
     +:+ " but target.object is of type string")
    "count" = false.
Proof. vm_compute. reflexivity. Qed.

(** C4.  What the code does when the mismatch is below the top level: for
    a source array of objects with an integer field "id" and a target array
    of objects with a string field "id", the fields are matched and differ
    in kind, the error is returned to the template that asked for the
    element transformation, and GoTypeTransform panics: it returns neither
    an error nor an empty text. *)
Theorem nested_mismatch_panics (te : TextEnv) (fuel : nat) (pkg fn : string) :
  GoTypeTransform te elemHeap (3 + fuel) elemSource elemTarget pkg fn = Panic.
Proof.
  unfold GoTypeTransform.
  change (IsObject elemHeap (UserTypeT elemSource)) with (@Ok bool false).
  change (IsArray elemHeap (UserTypeT elemSource)) with (@Ok bool true).
  change (IsArray elemHeap (UserTypeT elemTarget)) with (@Ok bool true).
  change (ToArray elemHeap (UserTypeT elemSource)) with (Ok (Some (Some 1))).
  change (ToArray elemHeap (UserTypeT elemTarget)) with (Ok (Some (Some 4))).
  simpl.
  change (typeOf elemHeap (Some 1)) with (Ok (ObjectT [("id", Some 2)])).
  change (typeOf elemHeap (Some 4)) with (Ok (ObjectT [("id", Some 5)])).
  simpl.
  destruct (GoTypeRef te elemHeap (ObjectT [("id", Some 5)]) [] 0); [|done].
  simpl.
  change (IsArray elemHeap (ObjectT [("id", Some 2)])) with (@Ok bool false).
  change (IsHash elemHeap (ObjectT [("id", Some 2)])) with (@Ok bool false).
  change (IsObject elemHeap (ObjectT [("id", Some 2)])) with (@Ok bool true).
  change (ToObject elemHeap (ObjectT [("id", Some 2)])) with (Ok (Some [("id", Some 2)])).
  change (ToObject elemHeap (ObjectT [("id", Some 5)])) with (Ok (Some [("id", Some 5)])).
  simpl.
  change (typeName te elemHeap (Some 4)) with (@Ok string EmptyString).
  simpl.
  change (computeMapping elemHeap [("id", Some 2)] [("id", Some 5)]
            ("source" +:+ "[i]") ("target" +:+ "[i]"))
    with (Ok (Some ({[ "id" := "id" ]} : gmap string string), @None error)).
  simpl. rewrite map_to_list_singleton. simpl.
  reflexivity.
Qed.

(** A sequence that returns: its first part returned. *)
Lemma rbind_Ok {A B} (r : result A) (k : A → result B) b :
  rbind r k = Ok b → ∃ a, r = Ok a ∧ k a = Ok b.
Proof. destruct r; simpl; [eauto|done..]. Qed.

(** More steps do not change the result of the chase through named types. *)
Lemma unwrap_mono fuel h t t' :
  unwrap fuel h t = Ok t' → unwrap (S fuel) h t = Ok t'.
Proof.
  revert t. induction fuel as [|fuel IH]; intros t.
  - destruct t; try done.
  - destruct t; try done.
    + intros (t0 & Ht0 & H)%rbind_Ok. change (unwrap (S (S fuel)) h (UserTypeT u))
        with (rbind (typeOf h (ut_AttributeDefinition u)) (unwrap (S fuel) h)).
      rewrite Ht0. by apply IH.
    + intros (t0 & Ht0 & H)%rbind_Ok. change (unwrap (S (S fuel)) h (MediaTypeT m))
        with (rbind (typeOf h (ut_AttributeDefinition (mt_UserTypeDefinition m)))
                (unwrap (S fuel) h)).
      rewrite Ht0. by apply IH.
Qed.

(** A named type that has an underlying shape has a type with a name. *)
Lemma named_type_Name h u t' :
  underlying h (UserTypeT u) = Ok t' →
  rbind (typeOf h (ut_AttributeDefinition u)) (Name h) = Ok (shapeName t').
Proof.
  unfold underlying, Name, underlying. destruct (size h) as [|n] eqn:Hn; [done|].
  intros (t0 & -> & H)%rbind_Ok. cbn [rbind].
  by rewrite (unwrap_mono _ _ _ _ H).
Qed.

(** A shape test that answers has found the underlying type. *)
Lemma shape_false_underlying {A} h u (f : DataType → option A) :
  rbind (rbind (underlying h (UserTypeT u)) (λ t', Ok (f t')))
        (λ o, Ok (bool_decide (is_Some o))) = Ok false →
  ∃ t', underlying h (UserTypeT u) = Ok t'.
Proof. destruct (underlying h (UserTypeT u)); [eauto|done..]. Qed.

(** When the shapes of the two types differ at the top, GoTypeTransform
    returns an error and no text. *)
Lemma GoTypeTransform_shapes_differ te h fuel source target pkg fn :
  shapesDiffer h source target →
  ∃ e, GoTypeTransform te h fuel source target pkg fn
       = Ok (EmptyString, Some e).
Proof.
  unfold GoTypeTransform.
  intros [(Hs & Ht)|[(Hso & Hs & Ht)|(Hso & Hsa & Hs & Ht)]].
  - rewrite Hs. simpl. rewrite Ht. simpl.
    apply shape_false_underlying in Ht as [t' Ht'].
    rewrite (named_type_Name _ _ _ Ht'). simpl. by eexists.
  - rewrite Hso. simpl. rewrite Hs. simpl. rewrite Ht. simpl.
    apply shape_false_underlying in Ht as [t' Ht'].
    rewrite (named_type_Name _ _ _ Ht'). simpl. by eexists.
  - rewrite Hso. simpl. rewrite Hsa. simpl. rewrite Hs. simpl. rewrite Ht. simpl.
    apply shape_false_underlying in Ht as [t' Ht'].
    rewrite (named_type_Name _ _ _ Ht'). simpl. by eexists.
Qed.

(** Whenever GoTypeTransform returns an error, it returns no text. *)
Lemma GoTypeTransform_error_has_no_text te h fuel source target pkg fn text e :
  GoTypeTransform te h fuel source target pkg fn = Ok (text, Some e) →
  text = EmptyString.
Proof.
  unfold GoTypeTransform.
  intros (sObject & _ & ([impl [e'|]] & _ & H)%rbind_Ok)%rbind_Ok.
  - by injection H as <- _.
  - apply rbind_Ok in H as (t & _ & (sref & _ & H)%rbind_Ok). done.
Qed.

(** When the check of the kinds finds nothing, the fields of every pair
    have the same kind. *)
Lemma checkKinds_None h source target sctx tctx pairs :
  checkKinds h source target sctx tctx pairs = Ok None →
  ∀ s t, (s, t) ∈ pairs → sameKind h source target s t.
Proof.
  induction pairs as [|[s0 t0] pairs IH]; intros H s t Hin.
  { by apply elem_of_nil in Hin. }
  simpl in H. apply rbind_Ok in H as (sT & HsT & (tT & HtT & H)%rbind_Ok).
  case_bool_decide as Hk.
  - apply rbind_Ok in H as (? & _ & (? & _ & (? & _ & (? & _ & H)%rbind_Ok)%rbind_Ok)%rbind_Ok).
    done.
  - apply elem_of_cons in Hin as [[= -> ->]|Hin]; [|by apply IH].
    exists sT, tT. split_and!; [done..|]. by destruct (decide (KindOf sT = KindOf tT)).
Qed.

(** transformObject gives a plan only when every pair of fields that
    computeMapping matched has the same kind on both sides. *)
Lemma transformObject_plan_same_kinds te h fuel source target pkg tn sctx tctx
    depth text :
  transformObject te h fuel source target pkg tn sctx tctx depth
  = Ok (text, None) →
  ∃ m, computeMapping h source target sctx tctx = Ok (Some m, None)
       ∧ ∀ s t, m !! s = Some t → sameKind h source target s t.
Proof.
  destruct fuel as [|fuel]; [done|]. simpl.
  intros ([m [e|]] & Hm & H)%rbind_Ok; [done|].
  apply rbind_Ok in H as ([e|] & Hck & H); [done|].
  assert (∃ m', m = Some m') as [m' ->].
  { unfold computeMapping in Hm.
    apply rbind_Ok in Hm as ([sm|?] & _ & Hm); [|done].
    apply rbind_Ok in Hm as ([tm|?] & _ & Hm); [|done].
    injection Hm as <-. by eexists. }
  exists m'. split; [done|]. intros s t Hst.
  eapply checkKinds_None; [exact Hck|]. by apply elem_of_map_to_list.
Qed.

(** ** Conflicts between routes *)

(** A prefix has no more placeholders than the whole. *)
Lemma prefix_placeholders s1 s2 :
  String.prefix s1 s2 = true → placeholders s1 ≤ placeholders s2.
Proof.
  revert s2. induction s1 as [|c s1 IH]; intros s2 H; simpl; [lia|].
  destruct s2 as [|c' s2]; simpl in H; [done|].
  destruct (Ascii.ascii_dec c c') as [->|]; [|done].
  simpl. specialize (IH _ H). lia.
Qed.

(** The inner loop of DifferentWildcards collects the positions at which
    the names differ. *)
Lemma differentFrom_ok rws i ows res :
  i + length ows ≤ length rws →
  ∃ d, differentFrom rws i ows res = Ok (res ++ d)
       ∧ ∀ x, x ∈ d ↔ ∃ k rw wc, ows !! k = Some wc ∧ rws !! (i + k) = Some rw
                                  ∧ wc_Name rw ≠ wc_Name wc ∧ x = (rw, wc).
Proof.
  revert i res. induction ows as [|wc ows IH]; intros i res Hlen; simpl in *.
  - exists []. rewrite app_nil_r. split; [done|]. intros x. split.
    + intros Hx. by apply elem_of_nil in Hx.
    + intros (k & rw & wc & Hk & _). by rewrite lookup_nil in Hk.
  - destruct (lookup_lt_is_Some_2 rws i) as [rw Hrw]; [lia|]. rewrite Hrw.
    destruct (IH (S i) (if bool_decide (wc_Name rw ≠ wc_Name wc)
                        then res ++ [(rw, wc)] else res)) as (d & Hrun & Hd);
      [lia|].
    rewrite Hrun. case_bool_decide as Hne.
    + exists ((rw, wc) :: d). split; [by rewrite <-app_assoc|].
      intros x. rewrite elem_of_cons, Hd. split.
      * intros [->|(k & rw' & wc' & H1 & H2 & H3 & ->)].
        -- exists 0, rw, wc. by rewrite Nat.add_0_r.
        -- exists (S k), rw', wc'. by rewrite Nat.add_succ_r.
      * intros ([|k] & rw' & wc' & H1 & H2 & H3 & ->).
        -- left. rewrite Nat.add_0_r in H2. cbn in H1. rewrite Hrw in H2.
           by injection H1 as <-; injection H2 as <-.
        -- right. exists k, rw', wc'. by rewrite Nat.add_succ_r in H2.
    + exists d. split; [done|]. intros x. rewrite Hd. split.
      * intros (k & rw' & wc' & H1 & H2 & H3 & ->).
        exists (S k), rw', wc'. by rewrite Nat.add_succ_r.
      * intros ([|k] & rw' & wc' & H1 & H2 & H3 & ->).
        -- rewrite Nat.add_0_r in H2. cbn in H1. rewrite Hrw in H2.
           injection H1 as <-; injection H2 as <-. by destruct Hne.
        -- exists k, rw', wc'. by rewrite Nat.add_succ_r in H2.
Qed.

(** DifferentWildcards returns a pair exactly when the names differ at
    some position. *)
Lemma DifferentWildcards_ok r other :
  length (Wildcards other) ≤ length (Wildcards r) →
  ∃ d, DifferentWildcards r other = Ok d
       ∧ (0 < length d ↔ ∃ p, differAt r other p).
Proof.
  intros Hlen. unfold DifferentWildcards.
  destruct (differentFrom_ok (Wildcards r) 0 (Wildcards other) []) as (d & -> & Hd);
    [simpl; lia|].
  exists d. split; [done|]. split.
  - destruct d as [|x d]; simpl; [lia|]. intros _.
    destruct (proj1 (Hd x)) as (k & rw & wc & H1 & H2 & H3 & _); [left|].
    exists k, rw, wc. done.
  - intros (p & a & b & Ha & Hb & Hne).
    assert ((a, b) ∈ d) as Hin by (apply Hd; by exists p, a, b).
    destruct d; [by apply elem_of_nil in Hin|simpl; lia].
Qed.

(** The scan of the other routes, for one route. *)
Lemma scanOthers_ok i route j others found :
  enoughWildcards route others →
  ∃ new, scanOthers i route j others found = Ok (found ++ new)
    ∧ (∀ c, c ∈ new → c_route c = (i, route))
    ∧ ∀ l other, (∃ c, c ∈ new ∧ c_other c = (l, other))
        ↔ (∃ k, l = j + k ∧ others !! k = Some other) ∧ i ≠ l
          ∧ String.prefix (Key other) (Key route) = true
          ∧ ∃ p, differAt route other p.
Proof.
  revert j found. induction others as [|o others IH]; intros j found Hen; simpl.
  - exists []. rewrite app_nil_r. split; [done|]. split.
    + intros c Hc. by apply elem_of_nil in Hc.
    + intros l other. split.
      * intros (c & Hc & _). by apply elem_of_nil in Hc.
      * intros ((k & _ & Hk) & _). by rewrite lookup_nil in Hk.
  - assert (enoughWildcards route others) as Hen'.
    { intros other Hin. apply Hen. by right. }
    assert (∀ found', ∃ new,
      scanOthers i route (S j) others found' = Ok (found' ++ new)
      ∧ (∀ c, c ∈ new → c_route c = (i, route))
      ∧ ∀ l other, (∃ c, c ∈ new ∧ c_other c = (l, other))
          ↔ (∃ k, l = j + S k ∧ others !! k = Some other) ∧ i ≠ l
            ∧ String.prefix (Key other) (Key route) = true
            ∧ ∃ p, differAt route other p) as IH'.
    { intros found'. destruct (IH (S j) found' Hen') as (new & Hrun & Hr & Hnew).
      exists new. split_and!; [done..|]. intros l other. rewrite Hnew.
      by setoid_rewrite Nat.add_succ_r. }
    clear IH.
    (* the cases in which the head adds nothing *)
    assert (i = j ∨ String.prefix (Key o) (Key route) = false
            ∨ ¬ (∃ p, differAt route o p) →
            ∀ new : list conflict, (∀ l other, (∃ c, c ∈ new ∧ c_other c = (l, other))
              ↔ (∃ k, l = j + S k ∧ others !! k = Some other) ∧ i ≠ l
                ∧ String.prefix (Key other) (Key route) = true
                ∧ ∃ p, differAt route other p) →
            ∀ l other, (∃ c, c ∈ new ∧ c_other c = (l, other))
              ↔ (∃ k, l = j + k ∧ (o :: others) !! k = Some other) ∧ i ≠ l
                ∧ String.prefix (Key other) (Key route) = true
                ∧ ∃ p, differAt route other p) as Hskip.
    { intros Hcase new Hnew l other. rewrite Hnew. split.
      - intros ((k & -> & Hk) & ?). split; [|done]. by exists (S k).
      - intros (([|k] & -> & Hk) & Hil & Hpre & Hdiff).
        + simpl in Hk. injection Hk as <-. rewrite Nat.add_0_r in Hil.
          destruct Hcase as [?|[?|?]]; [done|congruence|done].
        + split; [|done]. by exists k. }
    case_bool_decide as Hij.
    { destruct (IH' found) as (new & Hrun & Hr & Hnew). exists new.
      split_and!; [done..|]. apply Hskip; auto. }
    destruct (String.prefix (Key o) (Key route)) eqn:Hpre; cycle 1.
    { destruct (IH' found) as (new & Hrun & Hr & Hnew). exists new.
      split_and!; [done..|]. apply Hskip; auto. }
    destruct (DifferentWildcards_ok route o) as (d & -> & Hd).
    { apply Hen; [left|done]. }
    simpl. case_bool_decide as Hlen.
    + destruct (IH' (found ++ [{| c_route := (i, route); c_other := (j, o);
                                  c_diffs := d |}])) as (new & Hrun & Hr & Hnew).
      rewrite Hrun.
      eexists (_ :: new). split; [by rewrite <-app_assoc|]. split.
      * intros c [->|Hc]%elem_of_cons; [done|by apply Hr].
      * intros l other. split.
        -- intros (c & [->|Hc]%elem_of_cons & Hco).
           ++ simpl in Hco. injection Hco as <- <-.
              split; [exists 0; by rewrite Nat.add_0_r|].
              split_and!; [done..|]. by apply Hd.
           ++ destruct (proj1 (Hnew l other)) as ((k & -> & Hk) & ?);
                [by exists c|].
              split; [|done]. by exists (S k).
        -- intros (([|k] & -> & Hk) & Hil & Hpre' & Hdiff).
           ++ simpl in Hk. injection Hk as <-. eexists. split; [left|].
              simpl. by rewrite Nat.add_0_r.
           ++ destruct (proj2 (Hnew (j + S k) other)) as (c & Hc & Hco).
              { split; [by exists k|done]. }
              exists c. split; [by right|done].
    + destruct (IH' found) as (new & Hrun & Hr & Hnew). exists new.
      split_and!; [done..|]. apply Hskip; [|done].
      right; right. intros Hp. apply Hd in Hp. done.
Qed.

(** The scan of all the routes. *)
Lemma scanRoutes_ok all i routes found :
  (∀ route, route ∈ routes → enoughWildcards route all) →
  ∃ new, scanRoutes all i routes found = Ok (found ++ new)
    ∧ ∀ l1 route l2 other, reports new (l1, route) (l2, other)
        ↔ (∃ k, l1 = i + k ∧ routes !! k = Some route)
          ∧ all !! l2 = Some other ∧ l1 ≠ l2
          ∧ String.prefix (Key other) (Key route) = true
          ∧ ∃ p, differAt route other p.
Proof.
  revert i found. induction routes as [|r routes IH]; intros i found Hen; simpl.
  - exists []. rewrite app_nil_r. split; [done|]. intros l1 route l2 other. split.
    + intros (c & Hc & _). by apply elem_of_nil in Hc.
    + intros ((k & _ & Hk) & _). by rewrite lookup_nil in Hk.
  - destruct (scanOthers_ok i r 0 all found) as (new1 & -> & Hr1 & Hnew1).
    { apply Hen. left. }
    simpl.
    destruct (IH (S i) (found ++ new1)) as (new2 & -> & Hnew2).
    { intros route Hin. apply Hen. by right. }
    exists (new1 ++ new2). split; [by rewrite <-app_assoc|].
    intros l1 route l2 other. split.
    + intros (c & [Hc|Hc]%elem_of_app & Hcr & Hco).
      * rewrite (Hr1 c Hc) in Hcr. injection Hcr as <- <-.
        destruct (proj1 (Hnew1 l2 other)) as ((k & -> & Hk) & Hrest);
          [by exists c|].
        split; [exists 0; by rewrite Nat.add_0_r|done].
      * destruct (proj1 (Hnew2 l1 route l2 other)) as ((k & -> & Hk) & Hrest);
          [by exists c|].
        split; [|done]. exists (S k). by rewrite Nat.add_succ_r.
    + intros (([|k] & -> & Hk) & Hl2 & Hne & Hrest).
      * simpl in Hk. injection Hk as <-. rewrite Nat.add_0_r in Hne |- *.
        destruct (proj2 (Hnew1 l2 other)) as (c & Hc & Hco).
        { split; [by exists l2|done]. }
        exists c. split_and!; [apply elem_of_app; by left|by apply Hr1|done].
      * destruct (proj2 (Hnew2 (i + S k) route l2 other)) as (c & Hc & Hcr).
        { split; [|done]. exists k. by rewrite Nat.add_succ_r. }
        exists c. split; [apply elem_of_app; by right|done].
Qed.

Lemma differAt_sym r other p : differAt r other p → differAt other r p.
Proof. intros (a & b & ? & ? & ?). by exists b, a. Qed.

(** What the scan reports, as ordered pairs: the key of the second route is
    a prefix of the key of the first. *)
Lemma routeConflicts_ordered rs :
  Forall oneNamePerPlaceholder rs →
  ∃ found, routeConflicts rs = Ok found
    ∧ ∀ i ri j rj, reports found (i, ri) (j, rj)
        ↔ rs !! i = Some ri ∧ rs !! j = Some rj ∧ i ≠ j
          ∧ String.prefix (Key rj) (Key ri) = true
          ∧ ∃ p, differAt ri rj p.
Proof.
  intros Hwf. unfold routeConflicts.
  destruct (scanRoutes_ok rs 0 rs []) as (found & -> & Hfound).
  { intros route Hr other Ho Hpre. rewrite Forall_forall in Hwf.
    rewrite (Hwf _ Hr), (Hwf _ Ho). by apply prefix_placeholders. }
  exists found. split; [done|]. intros i ri j rj. rewrite Hfound. split.
  - intros ((k & -> & Hk) & ?). done.
  - intros (Hi & ?). split; [by exists i|done].
Qed.



(** ** Validation: termination, and what it does to the state *)

Create HintDb nostarve.
Create HintDb sound.

#[global] Instance extends_refl : Reflexive extends.
Proof. intros st. by split_and!. Qed.

#[global] Instance extends_trans : Transitive extends.
Proof.
  intros st1 st2 st3 (Hd1 & Hv1 & Hl1) (Hd2 & Hv2 & Hl2). split_and!.
  - congruence.
  - set_solver.
  - by etrans.
Qed.

(** A validation step does not increase the number of unvalidated
    attributes; marking an unmarked attribute decreases it. *)
Lemma extends_unvalidated st st' :
  extends st st' → unvalidated st' ≤ unvalidated st.
Proof.
  intros (Hd & Hv & _). unfold unvalidated. rewrite Hd.
  apply subseteq_size. set_solver.
Qed.

Lemma consistent_initial h : consistent (initial h).
Proof. split; [constructor|]. intros p Hp. by apply elem_of_nil in Hp. Qed.

Lemma mark_consistent p st :
  p ∉ validated st → consistent st → consistent (mark p st).
Proof.
  intros Hp [Hnd Hin]. split; simpl.
  - apply NoDup_app. split_and!; [done| |apply NoDup_singleton].
    intros q Hq ->%list_elem_of_singleton. by apply Hp, Hin.
  - intros q [Hq| ->%list_elem_of_singleton]%elem_of_app; [|set_solver].
    specialize (Hin q Hq). set_solver.
Qed.

Lemma mark_extends p st : extends st (mark p st).
Proof.
  split_and!; simpl; [done|set_solver|by apply prefix_app_r].
Qed.

Lemma mark_unvalidated p st :
  p ∉ validated st → is_Some (heap st !! p) →
  unvalidated (mark p st) < unvalidated st.
Proof.
  intros Hp Hs. unfold unvalidated. simpl. apply subset_size.
  apply elem_of_dom in Hs. set_solver.
Qed.

(** The functions on types do not run out of fuel: the chase through named
    types has as many steps as the heap has attributes. *)
Lemma rbind_nostarve {A B} (r : result A) (k : A → result B) :
  r ≠ OutOfFuel → (∀ a, k a ≠ OutOfFuel) → rbind r k ≠ OutOfFuel.
Proof. destruct r; simpl; auto. Qed.

Lemma deref_nostarve h a : deref h a ≠ OutOfFuel.
Proof. unfold deref. repeat case_match; done. Qed.

Lemma typeOf_nostarve h a : typeOf h a ≠ OutOfFuel.
Proof.
  unfold typeOf. apply rbind_nostarve; [apply deref_nostarve|].
  intros att. by case_match.
Qed.

Lemma unwrap_nostarve fuel h t : unwrap fuel h t ≠ OutOfFuel.
Proof.
  revert t. induction fuel as [|fuel IH]; intros t; destruct t; simpl; try done;
    (apply rbind_nostarve; [apply typeOf_nostarve|done]).
Qed.

Lemma ToObject_nostarve h t : ToObject h t ≠ OutOfFuel.
Proof. apply rbind_nostarve; [apply unwrap_nostarve|done]. Qed.

Lemma ToArray_nostarve h t : ToArray h t ≠ OutOfFuel.
Proof. apply rbind_nostarve; [apply unwrap_nostarve|done]. Qed.

Lemma IsArray_nostarve h t : IsArray h t ≠ OutOfFuel.
Proof. apply rbind_nostarve; [apply ToArray_nostarve|done]. Qed.

Lemma Name_nostarve h t : Name h t ≠ OutOfFuel.
Proof. apply rbind_nostarve; [apply unwrap_nostarve|done]. Qed.

Lemma Panic_nostarve {A} : @Panic A ≠ OutOfFuel.
Proof. done. Qed.

#[global] Hint Resolve deref_nostarve typeOf_nostarve ToObject_nostarve
  ToArray_nostarve IsArray_nostarve Name_nostarve Panic_nostarve : nostarve.

Section Sound.
Context (fuel : nat).

(** The combinators preserve soundness. *)
Lemma sound_ret {A} (a : A) : sound fuel (ret a).
Proof. intros st Hc _. simpl. by split. Qed.

Lemma sound_bind {A B} (m : M A) (k : A → M B) :
  sound fuel m → (∀ a, sound fuel (k a)) → sound fuel (bind m k).
Proof.
  intros Hm Hk st Hc Hlt. unfold bind. specialize (Hm st Hc Hlt).
  destruct (m st) as [[a st']| |]; simpl; [|done..].
  destruct Hm as [Hc' Hext].
  specialize (Hk a st' Hc'). 
  destruct (k a st') as [[b st'']| |]; [|done|].
  - destruct Hk as [Hc'' Hext'].
    + pose proof (extends_unvalidated _ _ Hext). lia.
    + split; [done|by etrans].
  - apply Hk. pose proof (extends_unvalidated _ _ Hext). lia.
Qed.

Lemma sound_lift {A} (r : result A) : r ≠ OutOfFuel → sound fuel (lift r).
Proof. intros Hr st Hc _. unfold lift. destruct r; simpl; done. Qed.

Lemma sound_getHeap : sound fuel getHeap.
Proof. intros st Hc _. simpl. by split. Qed.

Lemma sound_setType p t : sound fuel (setType p t).
Proof.
  intros st Hc _. unfold setType. destruct (heap st !! p) as [att|] eqn:Hp; [|done].
  split; [exact Hc|]. split; [|done]. simpl.
  rewrite dom_insert_L. apply elem_of_dom_2 in Hp. set_solver.
Qed.

Lemma sound_range {A V} (l : list A) (body : A → V → M V) (v : V) :
  (∀ x v, sound fuel (body x v)) → sound fuel (range l body v).
Proof.
  intros Hbody. revert v. induction l as [|x l IH]; intros v; simpl.
  - apply sound_ret.
  - apply sound_bind; [apply Hbody|apply IH].
Qed.

End Sound.

Ltac sound_step :=
  first
    [ solve [auto with sound]
    | progress cbv zeta
    | apply sound_ret
    | apply sound_getHeap
    | apply sound_setType
    | apply sound_lift; solve [auto with nostarve]
    | apply sound_bind; [|intros ?]
    | apply sound_range; intros ? ?
    | match goal with
      | |- sound _ (match ?x with _ => _ end) => destruct x
      | |- sound _ (let '(_, _) := ?x in _) => destruct x
      | |- sound _ ((let '(_, _) := ?x in _) _) => destruct x
      end ].

(** The body of the attribute validation, with one unit of fuel spent. *)
Lemma AttributeDefinition_Validate_S fuel p ctx parent st :
  AttributeDefinition_Validate (S fuel) (Some p) ctx parent st
  = if bool_decide (p ∈ validated st) then Ok (None, st)
    else
      let st := mark p st in
      match heap st !! p with
      | None => Panic
      | Some att =>
        match Type_ att with
        | None => Ok (Some (Add [] parent AttributeTypeNil), st)
        | Some t =>
          let ctx := if bool_decide (ctx = EmptyString) then ctx
                     else ctx +:+ " - " in
          (o <~ lift (ToObject (heap st) t) ;;
           match o with
           | Some o =>
             let verr := requiredMissing parent ctx (AllRequired att) o [] in
             verr <~ range o (λ '(n, att) verr,
                       r <~ AttributeDefinition_Validate fuel att
                              ("field " +:+ n) (AttributeDef p) ;;
                       ret (Merge verr r)) verr ;;
             ret (AsError verr)
           | None =>
             isArray <~ lift (IsArray (heap st) t) ;;
             if isArray : bool then
               arr <~ lift (ToArray (heap st) t) ;;
               match arr with
               | None => lift Panic
               | Some elemType =>
                 r <~ AttributeDefinition_Validate fuel elemType ctx
                        (AttributeDef p) ;;
                 ret (AsError (Merge [] r))
               end
             else ret None
           end) st
        end
      end.
Proof. reflexivity. Qed.

(** The validation functions are sound. *)
Lemma AttributeDefinition_Validate_sound fuel a ctx parent :
  sound fuel (AttributeDefinition_Validate fuel a ctx parent).
Proof.
  revert a ctx parent. induction fuel as [|fuel IH]; intros a ctx parent st Hc Hlt.
  { lia. }
  destruct a as [p|]; [|done]. rewrite AttributeDefinition_Validate_S.
  case_bool_decide as Hp; [by split|].
  cbv zeta. change (heap (mark p st)) with (heap st).
  destruct (heap st !! p) as [att|] eqn:Hatt; [|done].
  assert (unvalidated (mark p st) < fuel) as Hlt'.
  { pose proof (mark_unvalidated p st Hp ltac:(by eexists)). lia. }
  destruct (Type_ att) as [t|].
  - match goal with
    | |- match ?m (mark p st) with _ => _ end =>
      assert (sound fuel m) as Hm
    end.
    { repeat (sound_step || apply IH). }
    specialize (Hm (mark p st) (mark_consistent _ _ Hp Hc) Hlt').
    match goal with
    | |- match ?res with _ => _ end => destruct res as [[e st']| |]
    end; [|done..].
    destruct Hm as [Hc' Hext]. split; [done|]. etrans; [apply mark_extends|done].
  - split; [by apply mark_consistent|apply mark_extends].
Qed.

#[global] Hint Resolve AttributeDefinition_Validate_sound : sound.

Lemma ResponseDefinition_Validate_sound fuel r :
  sound fuel (ResponseDefinition_Validate fuel r).
Proof. unfold ResponseDefinition_Validate. repeat sound_step. Qed.

Lemma UserTypeDefinition_Validate_sound fuel u ctx parent :
  sound fuel (UserTypeDefinition_Validate fuel u ctx parent).
Proof. unfold UserTypeDefinition_Validate. repeat sound_step. Qed.

Lemma ViewDefinition_Validate_sound fuel v :
  sound fuel (ViewDefinition_Validate fuel v).
Proof. unfold ViewDefinition_Validate. repeat sound_step. Qed.

Lemma LinkDefinition_Validate_sound fuel l :
  sound fuel (LinkDefinition_Validate l).
Proof. unfold LinkDefinition_Validate. repeat sound_step. Qed.

#[global] Hint Resolve ResponseDefinition_Validate_sound
  UserTypeDefinition_Validate_sound ViewDefinition_Validate_sound
  LinkDefinition_Validate_sound : sound.

Lemma mediaTypeAttribute_sound fuel def natt verr :
  sound fuel (mediaTypeAttribute fuel def natt verr).
Proof. unfold mediaTypeAttribute. repeat sound_step. Qed.

#[global] Hint Resolve mediaTypeAttribute_sound : sound.

Lemma MediaTypeDefinition_Validate_sound fuel m :
  sound fuel (MediaTypeDefinition_Validate fuel m).
Proof. unfold MediaTypeDefinition_Validate. repeat sound_step. Qed.

Lemma validateParam_sound fuel def np verr :
  sound fuel (validateParam fuel def np verr).
Proof. unfold validateParam. repeat sound_step. Qed.

#[global] Hint Resolve MediaTypeDefinition_Validate_sound validateParam_sound
  : sound.

Lemma ValidateParams_sound fuel a : sound fuel (ValidateParams fuel a).
Proof. unfold ValidateParams. repeat sound_step. Qed.

#[global] Hint Resolve ValidateParams_sound : sound.

Lemma ActionDefinition_Validate_sound fuel a :
  sound fuel (ActionDefinition_Validate fuel a).
Proof. unfold ActionDefinition_Validate. repeat sound_step. Qed.

#[global] Hint Resolve ActionDefinition_Validate_sound : sound.

Lemma ResourceDefinition_Validate_sound env fuel Design r :
  sound fuel (ResourceDefinition_Validate env fuel Design r).
Proof.
  unfold ResourceDefinition_Validate, validateActions, validateBaseParams.
  repeat sound_step.
Qed.

#[global] Hint Resolve ResourceDefinition_Validate_sound : sound.

(** The scan of the routes does not run out of fuel: it has none. *)
Lemma differentFrom_nostarve rws i ows res :
  differentFrom rws i ows res ≠ OutOfFuel.
Proof.
  revert i res. induction ows as [|wc ows IH]; intros i res; simpl; [done|].
  by destruct (rws !! i).
Qed.

Lemma scanOthers_nostarve i route j others found :
  scanOthers i route j others found ≠ OutOfFuel.
Proof.
  revert j found. induction others as [|o others IH]; intros j found; simpl;
    [done|].
  repeat case_match; try done.
  apply rbind_nostarve; [apply differentFrom_nostarve|done].
Qed.

Lemma routeConflicts_nostarve allRoutes : routeConflicts allRoutes ≠ OutOfFuel.
Proof.
  unfold routeConflicts. generalize 0 at 1. generalize (@nil conflict).
  generalize allRoutes at 2.
  intros routes. induction routes as [|r routes IH]; intros found i; simpl;
    [done|].
  apply rbind_nostarve; [apply scanOthers_nostarve|done].
Qed.

#[global] Hint Resolve routeConflicts_nostarve : nostarve.

Lemma validateActionRoutes_sound env fuel r ac acc :
  sound fuel (validateActionRoutes env r ac acc).
Proof. unfold validateActionRoutes. repeat sound_step. Qed.

#[global] Hint Resolve validateActionRoutes_sound : sound.


(** ** Validation: what leaves the heap alone *)

Create HintDb keepsHeap.

(** Inversion of the combinators on a run that returns. *)
Lemma bind_Ok {A B} (m : M A) (k : A → M B) st b st'' :
  bind m k st = Ok (b, st'') →
  ∃ a st', m st = Ok (a, st') ∧ k a st' = Ok (b, st'').
Proof.
  unfold bind. destruct (m st) as [[a st']| |]; simpl; [|done..]. eauto.
Qed.

Lemma lift_Ok {A} (r : result A) st a st' :
  lift r st = Ok (a, st') → r = Ok a ∧ st' = st.
Proof. unfold lift. destruct r; simpl; [|done..]. by intros [= -> ->]. Qed.

Lemma ret_Ok {A} (a : A) st b st' : ret a st = Ok (b, st') → b = a ∧ st' = st.
Proof. by intros [= -> ->]. Qed.

Lemma getHeap_Ok st h st' : getHeap st = Ok (h, st') → h = heap st ∧ st' = st.
Proof. by intros [= -> ->]. Qed.

(** The combinators preserve the heap when their parts do. *)
Lemma keepsHeap_ret {A} (a : A) : keepsHeap (ret a).
Proof. by intros st b st' [-> ->]%ret_Ok. Qed.

Lemma keepsHeap_lift {A} (r : result A) : keepsHeap (lift r).
Proof. by intros st b st' [_ ->]%lift_Ok. Qed.

Lemma keepsHeap_getHeap : keepsHeap getHeap.
Proof. by intros st b st' [-> ->]%getHeap_Ok. Qed.

Lemma keepsHeap_bind {A B} (m : M A) (k : A → M B) :
  keepsHeap m → (∀ a, keepsHeap (k a)) → keepsHeap (bind m k).
Proof.
  intros Hm Hk st b st'' (a & st' & H1 & H2)%bind_Ok.
  rewrite (Hk _ _ _ _ H2). by eapply Hm.
Qed.

Lemma keepsHeap_range {A V} (l : list A) (body : A → V → M V) (v : V) :
  (∀ x v, keepsHeap (body x v)) → keepsHeap (range l body v).
Proof.
  intros Hbody. revert v. induction l as [|x l IH]; intros v; simpl.
  - apply keepsHeap_ret.
  - apply keepsHeap_bind; [apply Hbody|apply IH].
Qed.

Ltac keepsHeap_step :=
  first
    [ solve [auto with keepsHeap]
    | progress cbv zeta
    | apply keepsHeap_ret
    | apply keepsHeap_getHeap
    | apply keepsHeap_lift
    | apply keepsHeap_bind; [|intros ?]
    | apply keepsHeap_range; intros ? ?
    | match goal with
      | |- keepsHeap (match ?x with _ => _ end) => destruct x
      | |- keepsHeap (let '(_, _) := ?x in _) => destruct x
      | |- keepsHeap ((let '(_, _) := ?x in _) _) => destruct x
      end ].

(** The attribute validation marks attributes and leaves the heap alone,
    and so do the functions built on it, the media type validation apart. *)
Lemma AttributeDefinition_Validate_keepsHeap fuel a ctx parent :
  keepsHeap (AttributeDefinition_Validate fuel a ctx parent).
Proof.
  revert a ctx parent. induction fuel as [|fuel IH]; intros a ctx parent st e st';
    [done|].
  destruct a as [p|]; [|done]. rewrite AttributeDefinition_Validate_S.
  case_bool_decide as Hp; [by intros [= _ ->]|].
  cbv zeta. change (heap (mark p st)) with (heap st).
  destruct (heap st !! p) as [att|]; [|done].
  destruct (Type_ att) as [t|]; [|by intros [= _ <-]].
  match goal with
  | |- ?m (mark p st) = _ → _ => assert (keepsHeap m) as Hm
  end.
  { repeat (keepsHeap_step || apply IH). }
  intros Hrun. by rewrite (Hm _ _ _ Hrun).
Qed.

#[global] Hint Resolve AttributeDefinition_Validate_keepsHeap : keepsHeap.

Lemma ResponseDefinition_Validate_keepsHeap fuel r :
  keepsHeap (ResponseDefinition_Validate fuel r).
Proof. unfold ResponseDefinition_Validate. repeat keepsHeap_step. Qed.

Lemma UserTypeDefinition_Validate_keepsHeap fuel u ctx parent :
  keepsHeap (UserTypeDefinition_Validate fuel u ctx parent).
Proof. unfold UserTypeDefinition_Validate. repeat keepsHeap_step. Qed.

Lemma ViewDefinition_Validate_keepsHeap fuel v :
  keepsHeap (ViewDefinition_Validate fuel v).
Proof. unfold ViewDefinition_Validate. repeat keepsHeap_step. Qed.

Lemma LinkDefinition_Validate_keepsHeap l :
  keepsHeap (LinkDefinition_Validate l).
Proof. unfold LinkDefinition_Validate. repeat keepsHeap_step. Qed.

Lemma mediaTypeAttribute_keepsHeap fuel def natt verr :
  keepsHeap (mediaTypeAttribute fuel def natt verr).
Proof. unfold mediaTypeAttribute. repeat keepsHeap_step. Qed.

Lemma validateParam_keepsHeap fuel def np verr :
  keepsHeap (validateParam fuel def np verr).
Proof. unfold validateParam. repeat keepsHeap_step. Qed.

#[global] Hint Resolve ResponseDefinition_Validate_keepsHeap
  UserTypeDefinition_Validate_keepsHeap ViewDefinition_Validate_keepsHeap
  LinkDefinition_Validate_keepsHeap mediaTypeAttribute_keepsHeap
  validateParam_keepsHeap : keepsHeap.

(** ** Validation: panics *)

(** A loop does not return when one of its iterations cannot: the
    iterations before it leave the heap alone, and the failing one fails on
    every state with this heap. *)
Lemma range_stuck {A V} (l : list A) (body : A → V → M V) (x : A) (h : Heap) :
  x ∈ l →
  (∀ y v, keepsHeap (body y v)) →
  (∀ v st, heap st = h → ∀ r, body x v st ≠ Ok r) →
  ∀ v st, heap st = h → ∀ r, range l body v st ≠ Ok r.
Proof.
  intros Hin Hkeep Hstuck. induction l as [|y l IH]; intros v st Hh [v' st'].
  { by apply elem_of_nil in Hin. }
  simpl. intros (v1 & st1 & H1 & H2)%bind_Ok.
  apply elem_of_cons in Hin as [<-|Hin].
  - by eapply Hstuck.
  - eapply IH; [done| |exact H2]. rewrite <-Hh. by eapply Hkeep.
Qed.

(** A sound computation that does not return panics. *)
Lemma panics_of_sound {A} fuel (m : M A) st :
  sound fuel m → consistent st → unvalidated st < fuel →
  (∀ r, m st ≠ Ok r) → m st = Panic.
Proof.
  intros Hm Hc Hlt Hno. specialize (Hm st Hc Hlt).
  destruct (m st) as [r| |]; [by destruct (Hno r)|done|done].
Qed.

(** Reading the type of an absent parameter panics. *)
Lemma typeOf_absent h p : absent h p → typeOf h p = Panic.
Proof.
  intros [->|(x & att & -> & Hx & Ht)]; [done|].
  unfold typeOf, deref. rewrite Hx. simpl. by rewrite Ht.
Qed.

(** The iteration of ValidateParams on an absent parameter panics: the
    diagnostic is added, then the kind of the type is read. *)
Lemma validateParam_absent fuel def n p verr st :
  absent (heap st) p → validateParam fuel def (n, p) verr st = Panic.
Proof.
  intros Hp. unfold validateParam, bind. simpl.
  rewrite (typeOf_absent _ _ Hp).
  destruct Hp as [->|(x & att & -> & Hx & Ht)].
  - by case_bool_decide.
  - case_bool_decide; simpl; [done|]. by rewrite Hx.
Qed.

(** C6.  What the code does for a parameter that is nil or whose type is
    nil: whichever other parameters the action has, ValidateParams panics;
    it returns no diagnostic, and the validation pass that called it does
    not continue. *)
Theorem ValidateParams_panics_on_absent_parameter fuel a q patt params n p st :
  consistent st → unvalidated st < fuel →
  act_Params a = Some q → heap st !! q = Some patt →
  Type_ patt = Some (ObjectT params) →
  (n, p) ∈ params → absent (heap st) p →
  ValidateParams fuel a st = Panic.
Proof.
  intros Hc Hlt Ha Hq Ht Hin Hp.
  apply (panics_of_sound fuel); [apply ValidateParams_sound|done..|].
  intros [r st']. unfold ValidateParams. rewrite Ha.
  intros (h & st1 & [-> ->]%getHeap_Ok & H)%bind_Ok.
  apply bind_Ok in H as (patt' & st1 & [Hd ->]%lift_Ok & H).
  simpl in Hd. rewrite Hq in Hd. injection Hd as <-. rewrite Ht in H.
  apply bind_Ok in H as (verr & st1 & H & _).
  revert H. eapply range_stuck; [exact Hin| |intros v st2 Hh r2|done].
  - intros. apply validateParam_keepsHeap.
  - rewrite validateParam_absent; [done|]. by rewrite Hh.
Qed.

Lemma ValidateParams_panics_witness :
  absent nilParamHeap (Some 1)
  ∧ ValidateParams 3 nilParamAction (initial nilParamHeap) = Panic.
Proof.
  assert (absent nilParamHeap (Some 1)) as Habsent.
  { right. exists 1, nilTypeAttribute. split_and!; reflexivity. }
  split; [exact Habsent|].
  apply (ValidateParams_panics_on_absent_parameter 3 nilParamAction 0
           (plain (ObjectT [("id", Some 1)])) [("id", Some 1)] "id" (Some 1)).
  - apply consistent_initial.
  - vm_compute. lia.
  - reflexivity.
  - reflexivity.
  - reflexivity.
  - apply list_elem_of_here.
  - exact Habsent.
Defined.

(** C7.  What the code does for an attribute of a media type that names a
    view and whose type is not a media type: MediaTypeDefinition.Validate
    panics; the diagnostic it has just added is lost with the pass. *)
Theorem MediaTypeDefinition_Validate_panics_on_view_of_other_type
    fuel m q matt o n x att st :
  consistent st → unvalidated st < fuel →
  ut_AttributeDefinition (mt_UserTypeDefinition m) = Some q →
  heap st !! q = Some matt → Type_ matt = Some (ObjectT o) →
  (n, Some x) ∈ o → heap st !! x = Some att →
  View att ≠ EmptyString → (∀ cmt, Type_ att ≠ Some (MediaTypeT cmt)) →
  MediaTypeDefinition_Validate fuel m st = Panic.
Proof.
  intros Hc Hlt Hm Hq Ht Hin Hx Hview Hnomt.
  apply (panics_of_sound fuel); [apply MediaTypeDefinition_Validate_sound|done..|].
  intros [r st']. unfold MediaTypeDefinition_Validate. rewrite Hm.
  intros (e & st1 & He & H)%bind_Ok.
  apply UserTypeDefinition_Validate_keepsHeap in He.
  apply bind_Ok in H as (h & ? & [-> ->]%getHeap_Ok & H).
  apply bind_Ok in H as (matt' & ? & [Hd ->]%lift_Ok & H).
  simpl in Hd. rewrite He, Hq in Hd. injection Hd as <-. rewrite Ht in H.
  apply bind_Ok in H as ([] & ? & [_ ->]%ret_Ok & H).
  apply bind_Ok in H as (h & ? & [-> ->]%getHeap_Ok & H).
  apply bind_Ok in H as (t & ? & [Hd ->]%lift_Ok & H).
  unfold typeOf in Hd. simpl in Hd. rewrite He, Hq in Hd. simpl in Hd.
  rewrite Ht in Hd. injection Hd as <-.
  apply bind_Ok in H as (a & ? & [Hd ->]%lift_Ok & H).
  rewrite ToArray_ObjectT in Hd. injection Hd as <-.
  apply bind_Ok in H as (vo & st2 & H1 & H).
  apply bind_Ok in H1 as (o' & ? & [Hd ->]%lift_Ok & [-> ->]%ret_Ok).
  rewrite ToObject_ObjectT in Hd. injection Hd as <-.
  apply bind_Ok in H as (verr & st3 & H & _).
  revert H. eapply range_stuck; [exact Hin| |intros v st4 Hh [v4 st6]|done].
  - intros. apply mediaTypeAttribute_keepsHeap.
  - unfold mediaTypeAttribute.
    intros (e' & st5 & He' & H)%bind_Ok.
    apply AttributeDefinition_Validate_keepsHeap in He'.
    apply bind_Ok in H as (h & ? & [-> ->]%getHeap_Ok & H).
    apply bind_Ok in H as (att' & ? & [Hd ->]%lift_Ok & H).
    simpl in Hd. rewrite He', Hh, Hx in Hd. injection Hd as <-.
    rewrite bool_decide_eq_false_2 in H by done.
    destruct (Type_ att) as [[]|] eqn:Hty; try done. by destruct (Hnomt m0).
Qed.

Lemma MediaTypeDefinition_Validate_panics_witness :
  MediaTypeDefinition_Validate 3 widgetMedia (initial ownerHeap) = Panic.
Proof.
  apply (MediaTypeDefinition_Validate_panics_on_view_of_other_type 3
           widgetMedia 0 (plain (ObjectT [("owner", Some 1)]))
           [("owner", Some 1)] "owner" 1
           {| Type_ := Some String_; AllRequired := []; Metadata := ∅;
              View := "default" |}).
  - apply consistent_initial.
  - vm_compute. lia.
  - reflexivity.
  - reflexivity.
  - reflexivity.
  - apply list_elem_of_here.
  - reflexivity.
  - discriminate.
  - discriminate.
Defined.

(** ** Validation: the diagnostics and the nil type of media types *)

(** The combinators of postconditions. *)
Lemma ensures_ret {A} (a : A) (Q : A → Prop) : Q a → ensures (ret a) Q.
Proof. by intros HQ st b st' [-> _]%ret_Ok. Qed.

Lemma ensures_lift_Panic {A} (Q : A → Prop) : ensures (lift Panic) Q.
Proof. by intros st b st' [? _]%lift_Ok. Qed.

Lemma ensures_bind {A B} (m : M A) (k : A → M B) (P : A → Prop) (Q : B → Prop) :
  ensures m P → (∀ a, P a → ensures (k a) Q) → ensures (bind m k) Q.
Proof.
  intros Hm Hk st b st'' (a & st' & H1 & H2)%bind_Ok.
  eapply Hk; [|done]. by eapply Hm.
Qed.

Lemma ensures_True {A} (m : M A) : ensures m (λ _, True).
Proof. done. Qed.

Lemma ensures_range {A V} (l : list A) (body : A → V → M V) (v : V)
    (I : V → Prop) :
  I v → (∀ x v, I v → ensures (body x v) I) → ensures (range l body v) I.
Proof.
  intros Hv Hbody. revert v Hv. induction l as [|x l IH]; intros v Hv; simpl.
  - by apply ensures_ret.
  - eapply ensures_bind; [by apply Hbody|]. intros v' Hv'. by apply IH.
Qed.

(** The operations on aggregates keep the diagnostics about [P]. *)
Lemma allAbout_nil P : allAbout P [].
Proof. constructor. Qed.

Lemma allAbout_Add P verr def msg :
  allAbout P verr → P def → allAbout P (Add verr def msg).
Proof. intros Hv Hd. apply Forall_app. split; [done|]. by repeat constructor. Qed.

Lemma allAbout_Merge P verr e :
  allAbout P verr → allAbout P (default [] e) → allAbout P (Merge verr e).
Proof. intros Hv He. destruct e; [|done]. by apply Forall_app. Qed.

Lemma allAbout_AsError P verr :
  allAbout P verr → allAbout P (default [] (AsError verr)).
Proof. by destruct verr. Qed.

Lemma allAbout_weaken (P Q : Definition_ → Prop) verr :
  (∀ d, P d → Q d) → allAbout P verr → allAbout Q verr.
Proof. intros HPQ Hv. eapply Forall_impl; [exact Hv|]. intros x. apply HPQ. Qed.

Lemma allAbout_requiredMissing P parent ctx required o verr :
  P parent → allAbout P verr → allAbout P (requiredMissing parent ctx required o verr).
Proof.
  intros Hp. unfold requiredMissing. revert verr.
  induction required as [|n required IH]; intros verr Hv; simpl; [done|].
  apply IH. case_bool_decide; [done|by apply allAbout_Add].
Qed.

(** The diagnostics of an attribute validation are attached to the parent
    given to it or to an attribute. *)
Lemma AttributeDefinition_Validate_allAbout fuel a ctx parent :
  ensures (AttributeDefinition_Validate fuel a ctx parent)
          (λ e, allAbout (ofAttribute parent) (default [] e)).
Proof.
  revert a ctx parent. induction fuel as [|fuel IH]; intros a ctx parent st e st';
    [done|].
  destruct a as [p|]; [|done]. rewrite AttributeDefinition_Validate_S.
  case_bool_decide as Hp; [intros [= <- _]; apply allAbout_nil|].
  cbv zeta. change (heap (mark p st)) with (heap st).
  destruct (heap st !! p) as [att|]; [|done].
  destruct (Type_ att) as [t|]; cycle 1.
  { intros [= <- _]. apply allAbout_Add; [apply allAbout_nil|by left]. }
  assert (∀ d, ofAttribute (AttributeDef p) d → ofAttribute parent d) as Hw.
  { intros d [->|?]; right; eauto. }
  match goal with
  | |- ?m (mark p st) = _ → _ =>
    assert (ensures m (λ e, allAbout (ofAttribute parent) (default [] e))) as Hm
  end.
  { eapply ensures_bind; [apply ensures_True|]. intros [o|] _.
    - eapply ensures_bind; [|intros v Hv; apply ensures_ret, allAbout_AsError, Hv].
      apply ensures_range.
      + apply allAbout_requiredMissing; [by left|apply allAbout_nil].
      + intros [n c] v Hv. eapply ensures_bind; [apply IH|].
        intros r Hr. apply ensures_ret, allAbout_Merge; [done|].
        by eapply allAbout_weaken.
    - eapply ensures_bind; [apply ensures_True|]. intros [] _.
      + eapply ensures_bind; [apply ensures_True|]. intros [c|] _.
        * eapply ensures_bind; [apply IH|]. intros r Hr.
          apply ensures_ret, allAbout_AsError, allAbout_Merge; [apply allAbout_nil|].
          by eapply allAbout_weaken.
        * apply ensures_lift_Panic.
      + apply ensures_ret, allAbout_nil. }
  apply Hm.
Qed.

(** The diagnostics of a view validation are attached to the view, of a
    link validation to the link. *)
Lemma ViewDefinition_Validate_allAbout fuel v :
  ensures (ViewDefinition_Validate fuel v)
          (λ e, allAbout (ofAttribute (ViewDef (view_Name v))) (default [] e)).
Proof.
  unfold ViewDefinition_Validate.
  eapply ensures_bind; [apply AttributeDefinition_Validate_allAbout|].
  intros e He. apply ensures_ret, allAbout_AsError, allAbout_Merge; [|done].
  case_bool_decide; [|apply allAbout_nil].
  apply allAbout_Add; [apply allAbout_nil|by left].
Qed.

Lemma LinkDefinition_Validate_allAbout l :
  ensures (LinkDefinition_Validate l)
          (λ e, allAbout (λ d, d = LinkDef (link_Name l)) (default [] e)).
Proof.
  unfold LinkDefinition_Validate. cbv zeta.
  eapply ensures_bind; [apply ensures_True|]. intros h _.
  destruct (link_Parent l) as [parent|]; [|apply ensures_lift_Panic].
  eapply ensures_bind; [apply ensures_True|]. intros o _.
  match goal with
  | |- context [Add ?v _ LinkNameUnmatched] =>
    assert (allAbout (λ d, d = LinkDef (link_Name l)) v) as Hverr;
      [|revert Hverr; generalize v]
  end.
  { repeat case_bool_decide; repeat apply allAbout_Add; try apply allAbout_nil; done. }
  intros verr Hverr.
  destruct (lookupField (default [] o) (link_Name l)) as [att|].
  - eapply ensures_bind; [apply ensures_True|]. intros a _.
    destruct (Type_ a) as [[]|]; try destruct (hasView _ _);
      apply ensures_ret, allAbout_AsError; repeat apply allAbout_Add; done.
  - apply ensures_ret, allAbout_AsError, allAbout_Add; done.
Qed.

(** The validation of an attribute of primitive type finds nothing; of an
    unmarked attribute of nil type, that the type is nil. *)
Lemma AttributeDefinition_Validate_PrimitiveT fuel p a k ctx parent st e st' :
  heap st !! p = Some a → Type_ a = Some (PrimitiveT k) →
  AttributeDefinition_Validate fuel (Some p) ctx parent st = Ok (e, st') →
  e = None.
Proof.
  intros Hp Ht. destruct fuel as [|fuel]; [done|].
  rewrite AttributeDefinition_Validate_S.
  case_bool_decide; [by intros [= <- _]|].
  cbv zeta. change (heap (mark p st)) with (heap st). rewrite Hp, Ht.
  unfold bind, lift. rewrite ToObject_PrimitiveT. simpl.
  rewrite IsArray_PrimitiveT. simpl. by intros [= <- _].
Qed.

Lemma AttributeDefinition_Validate_nil fuel p a ctx parent st e st' :
  heap st !! p = Some a → Type_ a = None → p ∉ validated st →
  AttributeDefinition_Validate fuel (Some p) ctx parent st = Ok (e, st') →
  e = Some [(parent, AttributeTypeNil)].
Proof.
  intros Hp Ht Hv. destruct fuel as [|fuel]; [done|].
  rewrite AttributeDefinition_Validate_S.
  rewrite bool_decide_eq_false_2 by done.
  cbv zeta. change (heap (mark p st)) with (heap st). rewrite Hp, Ht.
  by intros [= <- _].
Qed.

Lemma not_allAbout (P : Definition_ → Prop) verr x :
  allAbout P verr → ¬ P x.1 → x ∉ verr.
Proof.
  intros Hv Hx Hin. unfold allAbout in Hv. rewrite Forall_forall in Hv.
  by apply Hx, Hv.
Qed.

(** The part of MediaTypeDefinition.Validate that follows the assignment,
    for a media type whose type is a primitive: the views and the links. *)
Lemma MediaTypeDefinition_Validate_primitive fuel m p a k st verr0 r st' :
  ut_AttributeDefinition (mt_UserTypeDefinition m) = Some p →
  heap st !! p = Some a → Type_ a = Some (PrimitiveT k) →
  nilTypeOf m ∉ verr0 →
  (h <~ getHeap ;;
   t <~ lift (typeOf h (Some p)) ;;
   arr <~ lift (ToArray h t) ;;
   vo <~
     match arr with
     | Some None =>
       ret (Add verr0 (MediaTypeDef (Identifier m)) ArrayElemTypeNil, None)
     | Some (Some elem) =>
       err <~ AttributeDefinition_Validate fuel (Some elem) "array element"
                (MediaTypeDef (Identifier m)) ;;
       match err with
       | Some _ => ret (Merge verr0 err, None)
       | None =>
         h <~ getHeap ;;
         eatt <~ lift (deref h (Some elem)) ;;
         match Type_ eatt with
         | Some (MediaTypeT em) =>
           o <~ lift (ToObject h (MediaTypeT em)) ;; ret (verr0, o)
         | Some et =>
           name <~ lift (Name h et) ;;
           ret (Add verr0 (MediaTypeDef (Identifier m))
                  (CollectionElemNotMediaType name), None)
         | None => lift Panic
         end
       end
     | None => o <~ lift (ToObject h t) ;; ret (verr0, o)
     end ;;
   let '(verr, obj) := vo in
   verr <~ match obj with
           | Some o => range o (mediaTypeAttribute fuel
                                  (MediaTypeDef (Identifier m))) verr
           | None => ret verr
           end ;;
   h <~ getHeap ;;
   t <~ lift (typeOf h (Some p)) ;;
   isArray <~ lift (IsArray h t) ;;
   verr <~ (if isArray : bool then ret verr
            else
              verr <~ range (Views m) (λ '(_, v) verr,
                        e <~ ViewDefinition_Validate fuel v ;;
                        ret (Merge verr e)) verr ;;
              ret (if hasView (Views m) "default" then verr
                   else Add verr (MediaTypeDef (Identifier m)) NoDefaultView)) ;;
   verr <~ range (Links m) (λ '(_, l) verr,
             e <~ LinkDefinition_Validate l ;; ret (Merge verr e)) verr ;;
   ret (AsError verr)) st = Ok (r, st') →
  heap st' = heap st ∧ nilTypeOf m ∉ default [] r.
Proof.
  intros Hm Hp Ht Hclean H.
  assert (typeOf (heap st) (Some p) = Ok (PrimitiveT k)) as Htype.
  { unfold typeOf, deref. rewrite Hp. simpl. by rewrite Ht. }
  apply bind_Ok in H as (h & ? & [-> ->]%getHeap_Ok & H).
  apply bind_Ok in H as (t & ? & [Hd ->]%lift_Ok & H).
  rewrite Htype in Hd. injection Hd as <-.
  apply bind_Ok in H as (arr & ? & [Hd ->]%lift_Ok & H).
  rewrite ToArray_PrimitiveT in Hd. injection Hd as <-.
  apply bind_Ok in H as (vo & ? & H1 & H).
  apply bind_Ok in H1 as (o & ? & [Hd ->]%lift_Ok & [-> ->]%ret_Ok).
  rewrite ToObject_PrimitiveT in Hd. injection Hd as <-.
  apply bind_Ok in H as (verr & ? & [-> ->]%ret_Ok & H).
  apply bind_Ok in H as (h & ? & [-> ->]%getHeap_Ok & H).
  apply bind_Ok in H as (t & ? & [Hd ->]%lift_Ok & H).
  rewrite Htype in Hd. injection Hd as <-.
  apply bind_Ok in H as (isArray & ? & [Hd ->]%lift_Ok & H).
  rewrite IsArray_PrimitiveT in Hd. injection Hd as <-.
  apply bind_Ok in H as (verr1 & st1 & H1 & H).
  apply bind_Ok in H1 as (verr2 & st2 & H1 & [-> ->]%ret_Ok).
  apply bind_Ok in H as (verr3 & st3 & H3 & [-> ->]%ret_Ok).
  pose (I := λ verr : VErrs, nilTypeOf m ∉ verr).
  assert (I verr2) as Hv2.
  { revert H1. apply (ensures_range _ _ _ I); [done|].
    intros [n v] verr HI. eapply ensures_bind; [apply ViewDefinition_Validate_allAbout|].
    intros e He. apply ensures_ret. unfold I. destruct e as [e|]; [|done].
    intros [?|Hin]%elem_of_app; [done|]. revert Hin. eapply not_allAbout; [done|].
    intros [?|[? ?]]; done. }
  assert (I (if hasView (Views m) "default" then verr2
             else Add verr2 (MediaTypeDef (Identifier m)) NoDefaultView)) as Hv2'.
  { destruct (hasView _ _); [done|]. unfold I.
    intros [?|[=]%list_elem_of_singleton]%elem_of_app. done. }
  assert (I verr3) as Hv3.
  { revert H3. apply (ensures_range _ _ _ I); [done|].
    intros [n l] verr HI. eapply ensures_bind; [apply LinkDefinition_Validate_allAbout|].
    intros e He. apply ensures_ret. unfold I. destruct e as [e|]; [|done].
    intros [?|Hin]%elem_of_app; [done|]. revert Hin. by eapply not_allAbout. }
  split.
  - assert (heap st3 = heap st2) as ->.
    { revert H3. apply keepsHeap_range. intros [? ?] ?.
      repeat keepsHeap_step. }
    revert H1. apply keepsHeap_range. intros [? ?] ?. repeat keepsHeap_step.
  - by destruct verr3.
Qed.

(** What a call that returns has done to a media type whose type is nil,
    and what a later call that returns does. *)
Lemma MediaTypeDefinition_Validate_nil_type fuel m p att st r st' :
  ut_AttributeDefinition (mt_UserTypeDefinition m) = Some p →
  heap st !! p = Some att → Type_ att = None →
  MediaTypeDefinition_Validate fuel m st = Ok (r, st') →
  heap st' = <[p := withType att String_]> (heap st)
  ∧ (p ∉ validated st → nilTypeOf m ∈ default [] r)
  ∧ ∀ fuel2 st2 r2 st2',
      heap st2 = heap st' →
      MediaTypeDefinition_Validate fuel2 m st2 = Ok (r2, st2') →
      heap st2' = heap st2 ∧ nilTypeOf m ∉ default [] r2.
Proof.
  intros Hm Hp Ht Hrun.
  assert (heap st' = <[p:=withType att String_]> (heap st)
          ∧ (p ∉ validated st → nilTypeOf m ∈ default [] r)) as [Hheap Hdiag].
  { unfold MediaTypeDefinition_Validate in Hrun. rewrite Hm in Hrun.
    apply bind_Ok in Hrun as (e & st1 & He & H).
    pose proof (UserTypeDefinition_Validate_keepsHeap _ _ _ _ _ _ _ He) as Hh1.
    apply bind_Ok in H as (h & ? & [-> ->]%getHeap_Ok & H).
    apply bind_Ok in H as (att' & ? & [Hd ->]%lift_Ok & H).
    simpl in Hd. rewrite Hh1, Hp in Hd. injection Hd as <-. rewrite Ht in H.
    apply bind_Ok in H as ([] & st2 & Hset & H).
    unfold setType in Hset. rewrite Hh1, Hp in Hset.
    injection Hset as <-. split.
    - match type of H with
      | ?c _ = _ => assert (keepsHeap c) as Hk by (repeat keepsHeap_step)
      end.
      by rewrite (Hk _ _ _ H).
    - intros Hv.
      unfold UserTypeDefinition_Validate in He.
      apply bind_Ok in He as (e0 & ? & He0 & [-> ->]%ret_Ok).
      rewrite Hm in He0.
      apply AttributeDefinition_Validate_nil with (a := att) in He0;
        [|done..]. subst e0.
      assert (∀ verr : VErrs, nilTypeOf m ∈ verr →
              nilTypeOf m ∈ default [] (AsError verr)) as HAs.
      { by intros [|??]. }
      pose (I := λ verr : VErrs, nilTypeOf m ∈ verr).
      set (verr0 := Merge [] _) in H.
      assert (I verr0) as HI0.
      { unfold I, verr0. destruct (bool_decide _); simpl; set_solver. }
      clearbody verr0.
      match type of H with
      | ?c _ = _ =>
        assert (ensures c (λ r, nilTypeOf m ∈ default [] r)) as Hens
      end; [|by eapply Hens].
      assert (∀ v d msg, I v → I (Add v d msg)) as HAdd.
      { intros v d msg Hv'. apply elem_of_app. by left. }
      assert (∀ v e, I v → I (Merge v e)) as HMerge.
      { intros v [e|] Hv'; [|done]. apply elem_of_app. by left. }
      eapply ensures_bind; [apply ensures_True|]. intros h _.
      eapply ensures_bind; [apply ensures_True|]. intros t _.
      eapply ensures_bind; [apply ensures_True|]. intros arr _.
      eapply (ensures_bind _ _ (λ vo, I vo.1)).
      { destruct arr as [[elem|]|].
        - eapply ensures_bind; [apply ensures_True|]. intros [err|] _.
          + apply ensures_ret. by apply HMerge.
          + eapply ensures_bind; [apply ensures_True|]. intros ? _.
            eapply ensures_bind; [apply ensures_True|]. intros eatt _.
            destruct (Type_ eatt) as [[]|];
              try (eapply ensures_bind; [apply ensures_True|]; intros ? _;
                   apply ensures_ret; simpl; auto).
            apply ensures_lift_Panic.
        - apply ensures_ret. by apply HAdd.
        - eapply ensures_bind; [apply ensures_True|]. intros ? _.
          by apply ensures_ret. }
      intros [verr obj] Hvo. simpl in Hvo.
      eapply (ensures_bind _ _ I).
      { destruct obj as [o|]; [|by apply ensures_ret].
        apply ensures_range; [done|]. intros [n a] v Hv'.
        unfold mediaTypeAttribute.
        eapply ensures_bind; [apply ensures_True|]. intros e _.
        eapply ensures_bind; [apply ensures_True|]. intros ? _.
        eapply ensures_bind; [apply ensures_True|]. intros a' _.
        case_bool_decide; [by apply ensures_ret, HMerge|].
        destruct (Type_ a') as [[]|];
          lazymatch goal with
          | |- context [hasView ?a ?b] =>
            destruct (hasView a b); [apply ensures_ret; auto|apply ensures_ret; auto]
          | |- _ => apply ensures_lift_Panic
          end. }
      intros verr1 Hv1.
      eapply ensures_bind; [apply ensures_True|]. intros ? _.
      eapply ensures_bind; [apply ensures_True|]. intros ? _.
      eapply ensures_bind; [apply ensures_True|]. intros isArray _.
      eapply (ensures_bind _ _ I).
      { destruct isArray; [by apply ensures_ret|].
        eapply (ensures_bind _ _ I).
        - apply ensures_range; [done|]. intros [n v] verr' Hv'.
          eapply ensures_bind; [apply ensures_True|]. intros e _.
          by apply ensures_ret, HMerge.
        - intros verr2 Hv2. apply ensures_ret. destruct (hasView _ _); auto. }
      intros verr2 Hv2.
      eapply (ensures_bind _ _ I).
      { apply ensures_range; [done|]. intros [n l] verr' Hv'.
        eapply ensures_bind; [apply ensures_True|]. intros e _.
        by apply ensures_ret, HMerge. }
      intros verr3 Hv3. by apply ensures_ret, HAs. }
  split_and!; [done..|].
  intros fuel2 st2 r2 st2' Hh2 Hrun2.
  assert (heap st2 !! p = Some (withType att String_)) as Hp2.
  { rewrite Hh2, Hheap. apply lookup_insert_eq. }
  unfold MediaTypeDefinition_Validate in Hrun2. rewrite Hm in Hrun2.
  apply bind_Ok in Hrun2 as (e & st3 & He & H).
  pose proof (UserTypeDefinition_Validate_keepsHeap _ _ _ _ _ _ _ He) as Hh3.
  unfold UserTypeDefinition_Validate in He.
  apply bind_Ok in He as (e0 & ? & He0 & [-> ->]%ret_Ok).
  rewrite Hm in He0.
  eapply AttributeDefinition_Validate_PrimitiveT in He0; [|done..]. subst e0.
  apply bind_Ok in H as (h & ? & [-> ->]%getHeap_Ok & H).
  apply bind_Ok in H as (att' & ? & [Hd ->]%lift_Ok & H).
  simpl in Hd. rewrite Hh3, Hp2 in Hd. injection Hd as <-.
  apply bind_Ok in H as ([] & ? & [_ ->]%ret_Ok & H).
  rewrite <-Hh3.
  eapply (MediaTypeDefinition_Validate_primitive fuel2 m p
            (withType att String_) StringKind); [done| |done| |exact H].
  - by rewrite Hh3.
  - simpl. case_bool_decide; [|apply not_elem_of_nil].
    intros [=]%list_elem_of_singleton.
Qed.

(** The validation of a user type whose type is nil or a primitive
    returns, and leaves the heap alone. *)
Lemma UserTypeDefinition_Validate_flat fuel u ctx parent p att st :
  ut_AttributeDefinition u = Some p → heap st !! p = Some att →
  (Type_ att = None ∨ ∃ k, Type_ att = Some (PrimitiveT k)) →
  ∃ e st1, UserTypeDefinition_Validate (S fuel) u ctx parent st = Ok (e, st1)
           ∧ heap st1 = heap st.
Proof.
  intros Hu Hp Ht. unfold UserTypeDefinition_Validate. rewrite Hu.
  unfold bind at 1. rewrite AttributeDefinition_Validate_S.
  case_bool_decide as Hv; [by eexists _, _|].
  cbv zeta. change (heap (mark p st)) with (heap st). rewrite Hp.
  destruct Ht as [->|[k ->]]; [by eexists _, _|].
  unfold bind at 1. unfold lift at 1.
  change (heap (mark p st)) with (heap st).
  rewrite ToObject_PrimitiveT. cbn [rbind].
  unfold bind at 1. unfold lift at 1.
  change (heap (mark p st)) with (heap st).
  rewrite IsArray_PrimitiveT. cbn [rbind]. by eexists _, _.
Qed.

(** The validation of a media type without views and links whose type
    is nil or a primitive returns: the nil type is replaced before the
    first method is called on it. *)
Lemma MediaTypeDefinition_Validate_flat fuel m p att st :
  ut_AttributeDefinition (mt_UserTypeDefinition m) = Some p →
  heap st !! p = Some att →
  (Type_ att = None ∨ ∃ k, Type_ att = Some (PrimitiveT k)) →
  Views m = [] → Links m = [] →
  ∃ r st', MediaTypeDefinition_Validate (S fuel) m st = Ok (r, st').
Proof.
  intros Hm Hp Ht Hviews Hlinks.
  destruct (UserTypeDefinition_Validate_flat fuel (mt_UserTypeDefinition m)
              EmptyString (MediaTypeDef (Identifier m)) p att st Hm Hp Ht)
    as (e & st1 & He & Hh1).
  unfold MediaTypeDefinition_Validate. cbv zeta.
  unfold bind at 1. rewrite He. cbn [rbind].
  unfold bind at 1. unfold getHeap at 1. cbn [rbind].
  unfold bind at 1. unfold lift at 1. rewrite Hm. cbn [deref].
  rewrite Hh1, Hp. cbn [rbind].
  assert (∃ k st2,
    match Type_ att with
    | Some _ => ret ()
    | None => setType p String_
    end st1 = Ok (tt, st2)
    ∧ heap st2 !! p = Some (withType att (PrimitiveT k)))
    as (k & st2 & Hset & Hp2).
  { destruct Ht as [Ht|[k Ht]]; rewrite Ht.
    - exists StringKind. unfold setType. rewrite Hh1, Hp.
      eexists. split; [done|]. simpl. by rewrite lookup_insert_eq.
    - exists k, st1. split; [done|]. rewrite Hh1, Hp. f_equal.
      destruct att; simpl in *; by subst. }
  unfold bind at 1. rewrite Hset. cbn [rbind].
  unfold bind at 1. unfold getHeap at 1. cbn [rbind].
  unfold bind at 1. unfold lift at 1. unfold typeOf at 1. cbn [deref].
  rewrite Hp2. cbn [rbind withType Type_].
  unfold bind at 1. unfold lift at 1. rewrite ToArray_PrimitiveT. cbn [rbind].
  unfold bind at 1. unfold bind at 1. unfold lift at 1.
  rewrite ToObject_PrimitiveT. cbn [rbind ret].
  unfold bind at 1. cbn [ret rbind].
  unfold bind at 1. unfold getHeap at 1. cbn [rbind].
  unfold bind at 1. unfold lift at 1. unfold typeOf at 1. cbn [deref].
  rewrite Hp2. cbn [rbind withType Type_].
  unfold bind at 1. unfold lift at 1. rewrite IsArray_PrimitiveT. cbn [rbind].
  rewrite Hviews, Hlinks. by eexists _, _.
Qed.

(** C10.  Validating a media type whose type is nil changes the
    definition.  The call returns when the media type has no views and no
    links (the nil type is replaced before a method is called on it), and
    whenever it returns the heap is the one it started from with the type
    of the media type set to String; the call itself reports "attribute
    type is nil" if the attribute was not marked validated.  A later
    validation of the media type, whatever the markers are then, returns
    under the same condition, changes nothing more and does not report
    "attribute type is nil" for the media type. *)
Theorem MediaTypeDefinition_Validate_sets_nil_type_to_String
    fuel m p att st :
  ut_AttributeDefinition (mt_UserTypeDefinition m) = Some p →
  heap st !! p = Some att → Type_ att = None →
  (Views m = [] → Links m = [] → 0 < fuel →
   ∃ r st', MediaTypeDefinition_Validate fuel m st = Ok (r, st'))
  ∧ ∀ r st', MediaTypeDefinition_Validate fuel m st = Ok (r, st') →
      heap st' = <[p := withType att String_]> (heap st)
      ∧ (p ∉ validated st → nilTypeOf m ∈ default [] r)
      ∧ ∀ fuel2 st2, heap st2 = heap st' →
          (Views m = [] → Links m = [] → 0 < fuel2 →
           ∃ r2 st2', MediaTypeDefinition_Validate fuel2 m st2
                      = Ok (r2, st2'))
          ∧ ∀ r2 st2',
              MediaTypeDefinition_Validate fuel2 m st2 = Ok (r2, st2') →
              heap st2' = heap st2 ∧ nilTypeOf m ∉ default [] r2.
Proof.
  intros Hm Hp Ht. split.
  { intros Hviews Hlinks Hfuel. destruct fuel as [|fuel]; [lia|].
    eapply MediaTypeDefinition_Validate_flat; eauto. }
  intros r st' Hrun.
  destruct (MediaTypeDefinition_Validate_nil_type fuel m p att st r st'
              Hm Hp Ht Hrun) as (Hheap & Hdiag & Hlater).
  split_and!; [done..|]. intros fuel2 st2 Hh2. split.
  - intros Hviews Hlinks Hfuel. destruct fuel2 as [|fuel2]; [lia|].
    eapply (MediaTypeDefinition_Validate_flat fuel2 m p
              (withType att String_)); [done| |right; by eexists|done..].
    rewrite Hh2, Hheap. apply lookup_insert_eq.
  - intros r2 st2' Hrun2. by eapply Hlater.
Qed.

(** A pass over the media type Bottle, started with no marker. *)
Lemma bottle_pass :
  MediaTypeDefinition_Validate 1 bottleMedia (initial bottleHeap)
  = Ok (Some [nilTypeOf bottleMedia;
              (MediaTypeDef "application/vnd.bottle", NoDefaultView)],
        afterBottlePass).
Proof. vm_compute. reflexivity. Qed.

Lemma MediaTypeDefinition_Validate_sets_type_witness :
  ∃ r st',
    MediaTypeDefinition_Validate 1 bottleMedia (initial bottleHeap)
    = Ok (r, st')
    ∧ heap st' = <[0 := withType nilTypeAttribute String_]> bottleHeap
    ∧ nilTypeOf bottleMedia ∈ default [] r
    ∧ ∃ r2 st2',
        MediaTypeDefinition_Validate 1 bottleMedia st' = Ok (r2, st2')
        ∧ heap st2' = heap st'
        ∧ nilTypeOf bottleMedia ∉ default [] r2.
Proof.
  destruct (MediaTypeDefinition_Validate_sets_nil_type_to_String 1 bottleMedia
              0 nilTypeAttribute (initial bottleHeap)
              eq_refl eq_refl eq_refl) as [Hreturns Hthen].
  destruct (Hreturns eq_refl eq_refl (Nat.lt_0_1)) as (r & st' & Hrun).
  destruct (Hthen r st' Hrun) as (Hheap & Hdiag & Hlater).
  destruct (Hlater 1 st' eq_refl) as [Hreturns2 Hthen2].
  destruct (Hreturns2 eq_refl eq_refl (Nat.lt_0_1)) as (r2 & st2' & Hrun2).
  destruct (Hthen2 r2 st2' Hrun2) as [Hheap2 Hdiag2].
  exists r, st'. split_and!; [done|done|by apply Hdiag|].
  by exists r2, st2'.
Defined.

(** ** Validation: the markers, and the whole pass *)


(** A pass over the cyclic type Node returns, with both attributes marked. *)
Lemma node_pass :
  APIDefinition_Validate noEnv 3 nodeAPI nodeAPI (initial nodeHeap)
  = Ok (None, {| heap := nodeHeap; validated := {[0; 1]}; visits := [0; 1] |}).
Proof. vm_compute. reflexivity. Qed.


(** C2.  What the code does on an API with one action that has a parameter
    of nil type: the top-level Validate panics in the middle of the pass,
    and no aggregate is returned. *)
Theorem Validate_aborts_on_parameter_of_nil_type env fuel :
  APIDefinition_Validate env fuel nilParamAPI nilParamAPI (initial nilParamHeap)
  = Panic.
Proof. reflexivity. Qed.

Lemma AsError_None {E} (verr : ValidationErrors E) :
  AsError verr = None ↔ verr = [].
Proof. by destruct verr. Qed.

(** When the top-level Validate returns, it returns nil or an aggregate
    that is not empty. *)
Lemma APIDefinition_Validate_not_empty env fuel Design a :
  ensures (APIDefinition_Validate env fuel Design a) (λ r, r ≠ Some []).
Proof.
  unfold APIDefinition_Validate.
  eapply ensures_bind; [apply ensures_True|]. intros verr _. cbv zeta.
  eapply ensures_bind; [apply ensures_True|]. intros [verr' allRoutes] _.
  eapply ensures_bind; [apply ensures_True|]. intros conflicts _.
  eapply ensures_bind; [apply ensures_True|]. intros verr1 _.
  eapply ensures_bind; [apply ensures_True|]. intros verr2 _.
  eapply ensures_bind; [apply ensures_True|]. intros verr3 _.
  apply ensures_ret. by destruct (foldl _ _ _).
Qed.

(** * Further properties of the code *)

(** ** Wildcards and route conflicts *)


Lemma differentFrom_Panic rws i ows res :
  i ≤ length rws →
  differentFrom rws i ows res = Panic ↔ length rws < i + length ows.
Proof.
  revert i res. induction ows as [|wc ows IH]; intros i res Hi; simpl.
  - split; [done|lia].
  - destruct (rws !! i) as [rw|] eqn:Hrw.
    + apply lookup_lt_Some in Hrw. rewrite IH by lia. lia.
    + apply lookup_ge_None in Hrw. split; [lia|done].
Qed.

(** X1.  DifferentWildcards reads the wildcards of its receiver at the
    positions of the wildcards of the other route: it panics exactly when
    the other route has more wildcards than the receiver; otherwise it
    returns the pairs of wildcards at the same position whose names
    differ. *)
Theorem DifferentWildcards_bounds r other :
  (DifferentWildcards r other = Panic
   ↔ length (Wildcards r) < length (Wildcards other))
  ∧ (length (Wildcards other) ≤ length (Wildcards r) →
     ∃ d, DifferentWildcards r other = Ok d
          ∧ ∀ x, x ∈ d ↔ ∃ k, differingAt r other k x).
Proof.
  split; [apply differentFrom_Panic; lia|].
  intros Hle. destruct (differentFrom_ok (Wildcards r) 0 (Wildcards other) [])
    as (d & Hd & Hx); [simpl; lia|].
  exists d. split; [exact Hd|]. intros x. rewrite Hx. unfold differingAt. split.
  - intros (k & rw & wc & H1 & H2 & H3 & ->). exists k. by simpl.
  - intros (k & H1 & H2 & H3). exists k, x.1, x.2. by destruct x.
Qed.

Lemma DifferentWildcards_bounds_witness :
  length (Wildcards showInfo) ≤ length (Wildcards (itemsInfo "widgetId"))
  ∧ ∃ d, DifferentWildcards (itemsInfo "widgetId") showInfo = Ok d
         ∧ ∀ x, x ∈ d ↔ ∃ k, differingAt (itemsInfo "widgetId") showInfo k x.
Proof.
  split; [simpl; lia|].
  apply (proj2 (DifferentWildcards_bounds (itemsInfo "widgetId") showInfo)).
  simpl. lia.
Defined.

Lemma prefix_refl s : String.prefix s s = true.
Proof.
  induction s as [|c s IH]; simpl; [done|].
  by destruct (Ascii.ascii_dec c c).
Qed.

(** X2.  The scan attaches a conflict to the route whose key extends the
    key of the other; two routes with the same key that name a wildcard
    position differently are reported twice, once for each. *)
Theorem conflicts_of_equal_keys_are_reported_twice rs i ri j rj p :
  Forall oneNamePerPlaceholder rs →
  rs !! i = Some ri → rs !! j = Some rj → i ≠ j →
  Key ri = Key rj → differAt ri rj p →
  ∃ found, routeConflicts rs = Ok found
    ∧ reports found (i, ri) (j, rj) ∧ reports found (j, rj) (i, ri).
Proof.
  intros Hwf Hi Hj Hne Hkey Hp.
  destruct (routeConflicts_ordered rs Hwf) as (found & Hrun & Hf).
  exists found. split; [exact Hrun|]. rewrite !Hf. split.
  - split_and!; [done..| |by exists p]. rewrite Hkey. apply prefix_refl.
  - split_and!; [done..| |]. 
    + rewrite Hkey. apply prefix_refl.
    + exists p. by apply differAt_sym.
Qed.

Lemma conflicts_of_equal_keys_witness :
  ∃ found, routeConflicts [itemsInfo "id"; itemsInfo "widgetId"] = Ok found
    ∧ reports found (0, itemsInfo "id") (1, itemsInfo "widgetId")
    ∧ reports found (1, itemsInfo "widgetId") (0, itemsInfo "id").
Proof.
  apply (conflicts_of_equal_keys_are_reported_twice
           [itemsInfo "id"; itemsInfo "widgetId"] 0 _ 1 _ 0).
  - repeat constructor.
  - reflexivity.
  - reflexivity.
  - lia.
  - reflexivity.
  - eexists _, _. split_and!; [reflexivity|reflexivity|]. simpl. discriminate.
Defined.

Section WithEnv.
Context (env : Env).

Lemma duplicateWildcards_inner def parentPath ro rwc wcs verr :
  foldl (λ verr wc,
           if bool_decide (rwc = wc)
           then Add verr def (DuplicateWildcard wc parentPath (Path ro))
           else verr) verr wcs
  = verr ++ (duplicateOf def parentPath ro <$> filter (λ wc, rwc = wc) wcs).
Proof.
  revert verr. induction wcs as [|wc wcs IH]; intros verr; simpl.
  - by rewrite app_nil_r.
  - rewrite IH, filter_cons. case_bool_decide as H.
    + rewrite decide_True by done. unfold Add. by rewrite <-app_assoc.
    + by rewrite decide_False by done.
Qed.

(** What the check of an action route against the base path of its
    resource appends, and when it appends nothing. *)
Lemma duplicateWildcards_adds def parentPath ro verr :
  let rwcs := ExtractWildcards env parentPath in
  let wcs := ExtractWildcards env (Path ro) in
  duplicateWildcards env def parentPath ro verr
  = verr ++ (duplicateOf def parentPath ro
               <$> (rwc ← rwcs; filter (λ wc, rwc = wc) wcs))
  ∧ (duplicateWildcards env def parentPath ro verr = verr
     ↔ ∀ wc, wc ∈ rwcs → wc ∉ wcs).
Proof.
  intros rwcs wcs.
  assert (duplicateWildcards env def parentPath ro verr
          = verr ++ (duplicateOf def parentPath ro
                       <$> (rwc ← rwcs; filter (λ wc, rwc = wc) wcs))) as Heq.
  { unfold duplicateWildcards. fold rwcs wcs. clearbody rwcs wcs. revert verr.
    induction rwcs as [|rwc rwcs IH]; intros verr; simpl.
    - by rewrite app_nil_r.
    - rewrite duplicateWildcards_inner, IH, fmap_app. by rewrite <-app_assoc. }
  split; [exact Heq|]. rewrite Heq. split.
  - intros H wc Hr Hw.
    assert (duplicateOf def parentPath ro
              <$> (rwc ← rwcs; filter (λ wc, rwc = wc) wcs) = []) as Hnil.
    { apply (app_inv_head verr). by rewrite app_nil_r. }
    apply fmap_nil_inv in Hnil.
    assert (wc ∈ (rwc ← rwcs; filter (λ wc, rwc = wc) wcs)) as Hin.
    { apply list_elem_of_bind. exists wc. split; [|done].
      by apply list_elem_of_filter. }
    rewrite Hnil in Hin. by apply not_elem_of_nil in Hin.
  - intros H. 
    assert ((rwc ← rwcs; filter (λ wc, rwc = wc) wcs) = []) as ->.
    { apply elem_of_nil_inv. intros x (rwc & Hx & Hr)%list_elem_of_bind.
      apply list_elem_of_filter in Hx as [-> Hx]. by apply (H x). }
    by rewrite app_nil_r.
Qed.

(** X3.  The check of an action route against the base path of its
    resource adds one diagnostic for each pair of a wildcard of the base
    path and an equal wildcard of the route, and so adds nothing exactly
    when the two paths share no wildcard. *)
Theorem duplicateWildcards_reports_shared_wildcards def parentPath ro verr :
  let rwcs := ExtractWildcards env parentPath in
  let wcs := ExtractWildcards env (Path ro) in
  duplicateWildcards env def parentPath ro verr
  = verr ++ (duplicateOf def parentPath ro
               <$> (rwc ← rwcs; filter (λ wc, rwc = wc) wcs))
  ∧ (duplicateWildcards env def parentPath ro verr = verr
     ↔ ∀ wc, wc ∈ rwcs → wc ∉ wcs).
Proof. apply duplicateWildcards_adds. Qed.

End WithEnv.

(** ** Base parameters and encodings *)

(** A loop that adds a diagnostic for some of the elements it visits
    appends the diagnostics of these elements, in order. *)
Lemma foldl_Add {A} (P : A → bool) (g : A → Definition_ * Msg) l (verr : VErrs) :
  foldl (λ verr x, if P x then verr ++ [g x] else verr) verr l
  = verr ++ (g <$> filter (λ x, P x = true) l).
Proof.
  revert verr. induction l as [|x l IH]; intros verr; simpl.
  - by rewrite app_nil_r.
  - rewrite IH, filter_cons. destruct (P x) eqn:HP.
    + rewrite decide_True by done. by rewrite <-app_assoc.
    + by rewrite decide_False by (by intros ?).
Qed.

Lemma app_eq_self {A} (l k : list A) : l ++ k = l ↔ k = [].
Proof.
  split; [|intros ->; by rewrite app_nil_r].
  intros H. apply (app_inv_head l). by rewrite app_nil_r.
Qed.

Lemma fmap_filter_nil {A B} (P : A → bool) (g : A → B) l :
  g <$> filter (λ x, P x = true) l = [] ↔ ∀ x, x ∈ l → P x = false.
Proof.
  split.
  - intros H%fmap_nil_inv x Hx. destruct (P x) eqn:HP; [|done].
    assert (x ∈ filter (λ x, P x = true) l) as Hin by (by apply list_elem_of_filter).
    rewrite H in Hin. by apply not_elem_of_nil in Hin.
  - intros H. rewrite (elem_of_nil_inv (filter _ l)); [done|].
    intros x [Hx Hin]%list_elem_of_filter. rewrite (H x Hin) in Hx. done.
Qed.

Section WithEnv.
Context (env : Env).

(** What validateBaseParams appends to the aggregate. *)
Lemma validateBaseParams_adds r verr st att :
  deref (heap st) (res_BaseParams r) = Ok att →
  ∃ new, validateBaseParams env r verr st = Ok (verr ++ new, st)
    ∧ (new = []
       ↔ ∃ baseParams, Type_ att = Some (ObjectT baseParams)
           ∧ baseParamsMatch (ExtractWildcards env (BasePath r)) baseParams).
Proof.
  intros Hatt. unfold validateBaseParams, bind, getHeap, lift. simpl.
  rewrite Hatt. simpl.
  assert (∀ x : Definition_ * Msg, [x] ≠ []) as Hne by done.
  destruct (Type_ att) as [[| |baseParams| | |]|];
    try (exists [(ResourceDef (res_Name r), InvalidBaseParamsType)];
         split; [done|]; split; [done|]; by intros (? & ? & ?)).
  unfold baseParamsMatch, ret.
  destruct (ExtractWildcards env (BasePath r)) as [|v vars] eqn:Hvars.
  - simpl. destruct baseParams as [|b baseParams]; simpl.
    + exists []. rewrite app_nil_r. split; [done|]. split; [|done].
      intros _. by exists [].
    + eexists [_]. split; [done|]. split; [done|].
      by intros (? & [= <-] & ?).
  - rewrite bool_decide_true by (simpl; lia).
    set (verr1 := if bool_decide (_ ≠ _) then _ else _).
    set (P := λ v : string, negb (bool_decide (v ∈ baseParams.*1))).
    set (g := λ v : string, (ResourceDef (res_Name r),
                             BasePathVariableUnmatched v (BasePath r))).
    assert (∀ l (w : VErrs),
      foldl (λ verr v, if bool_decide (v ∈ baseParams.*1) then verr
                       else Add verr (ResourceDef (res_Name r))
                              (BasePathVariableUnmatched v (BasePath r))) w l
      = foldl (λ verr x, if P x then verr ++ [g x] else verr) w l) as Hfold.
    { intros l. induction l as [|x l IH]; intros w; simpl; [done|].
      rewrite IH. unfold P. by case_bool_decide. }
    rewrite Hfold, foldl_Add.
    exists ((if bool_decide (length (v :: vars) ≠ length baseParams)
             then [(ResourceDef (res_Name r),
                    BasePathParamsCount (v :: vars) (length baseParams))]
             else []) ++ (g <$> filter (λ x, P x = true) (v :: vars))).
    split.
    { f_equal. f_equal. rewrite app_assoc. f_equal. unfold verr1, Add.
      case_bool_decide; [done|by rewrite app_nil_r]. }
    split.
    + intros [H1 H2]%app_eq_nil. exists baseParams. split; [done|].
      split.
      { destruct (decide (length (v :: vars) = length baseParams)) as [|Hn];
          [done|]. by rewrite bool_decide_true in H1. }
      intros x Hx. rewrite fmap_filter_nil in H2. specialize (H2 x Hx).
      unfold P in H2. apply negb_false_iff, bool_decide_eq_true in H2. done.
    + intros (bp & [= <-] & Hlen & Hall).
      rewrite bool_decide_false by (by intros ?). simpl.
      apply fmap_filter_nil. intros x Hx. unfold P.
      by rewrite bool_decide_true by (by apply Hall).
Qed.

(** X4.  validateBaseParams adds no diagnostic exactly when the base
    parameters are an object given inline that agrees with the wildcards of
    the base path: no parameter when the path has no wildcard; otherwise as
    many parameters as the path has wildcards, each wildcard being the name
    of one. *)
Theorem validateBaseParams_accepts_iff r verr st att :
  deref (heap st) (res_BaseParams r) = Ok att →
  ∃ new, validateBaseParams env r verr st = Ok (verr ++ new, st)
    ∧ (new = []
       ↔ ∃ baseParams, Type_ att = Some (ObjectT baseParams)
           ∧ baseParamsMatch (ExtractWildcards env (BasePath r)) baseParams).
Proof. apply validateBaseParams_adds. Qed.

(** When the validation of an encoding finds nothing. *)
Lemma EncodingDefinition_Validate_empty enc :
  (∃ verr, EncodingDefinition_Validate env enc = Some verr)
  ∧ (EncodingDefinition_Validate env enc = Some []
     ↔ wellFormedEncoding env enc).
Proof.
  unfold EncodingDefinition_Validate, wellFormedEncoding.
  set (def := EncodingDef (MIMETypes enc)).
  case_bool_decide as Hlen.
  { split; [by eexists|]. split; [done|]. intros [Hne _].
    by apply length_zero_iff_nil in Hlen. }
  split; [by eexists|].
  set (P1 := λ m, match ParseMediaType env m with
                  | Some _ => true | None => false end).
  set (g1 := λ m, (def, InvalidMIMEType m (default EmptyString (ParseMediaType env m)))).
  assert (∀ l (w : VErrs),
    foldl (λ verr m, match ParseMediaType env m with
                     | Some err => Add verr def (InvalidMIMEType m err)
                     | None => verr
                     end) w l
    = foldl (λ verr x, if P1 x then verr ++ [g1 x] else verr) w l) as H1.
  { intros l. induction l as [|x l IH]; intros w; simpl; [done|].
    rewrite IH. unfold P1, g1. by destruct (ParseMediaType env x). }
  set (P2 := λ m, negb (bool_decide (m ∈ KnownEncoders env))).
  set (g2 := λ _ : string, (def, EncodersNotKnown (KnownEncoders env))).
  assert (∀ l (w : VErrs),
    foldl (λ verr m, if bool_decide (m ∈ KnownEncoders env) then verr
                     else Add verr def (EncodersNotKnown (KnownEncoders env))) w l
    = foldl (λ verr x, if P2 x then verr ++ [g2 x] else verr) w l) as H2.
  { intros l. induction l as [|x l IH]; intros w; simpl; [done|].
    rewrite IH. unfold P2. by case_bool_decide. }
  rewrite H1, H2, !foldl_Add. simpl.
  assert (MIMETypes enc ≠ []) as Hne.
  { intros Hnil. by rewrite Hnil in Hlen. }
  assert (g1 <$> filter (λ x, P1 x = true) (MIMETypes enc) = []
          ↔ ∀ m, m ∈ MIMETypes enc → ParseMediaType env m = None) as Hparse.
  { rewrite fmap_filter_nil. apply forall_proper. intros m.
    apply forall_proper. intros _. unfold P1.
    by destruct (ParseMediaType env m). }
  assert (g2 <$> filter (λ x, P2 x = true) (MIMETypes enc) = []
          ↔ ∀ m, m ∈ MIMETypes enc → m ∈ KnownEncoders env) as Hknown.
  { rewrite fmap_filter_nil. apply forall_proper. intros m.
    apply forall_proper. intros _. unfold P2.
    by rewrite negb_false_iff, bool_decide_eq_true. }
  destruct (decide (PackagePath enc = EmptyString)) as [Hpkg|Hpkg].
  - rewrite Hpkg. change (String.length EmptyString) with 0.
    rewrite (bool_decide_false (0 < 0)) by lia.
    rewrite (bool_decide_true (EmptyString = EmptyString)) by done.
    rewrite andb_true_r. case_bool_decide as Hfun; unfold Add.
    + split; [by intros [= []%app_eq_nil]|]. by intros (_ & _ & _ & ?).
    + split.
      * intros [= [H3 H4]%app_eq_nil]. rewrite Hparse in H3.
        rewrite Hknown in H4. done.
      * intros (_ & H3 & H4 & _). rewrite <-Hparse in H3.
        rewrite <-Hknown in H4. by rewrite H3, H4.
  - rewrite (bool_decide_false (PackagePath enc = EmptyString)) by done.
    rewrite andb_false_r.
    rewrite bool_decide_true by (destruct (PackagePath enc); [done|simpl; lia]).
    destruct (PackageExists env (PackagePath enc)); unfold Add.
    + rewrite <-Hparse. split; [by intros [= ?]|]. by intros (_ & -> & _).
    + split; [by intros [= []%app_eq_nil]|]. by intros (_ & _ & ?).
Qed.

(** X5.  EncodingDefinition.Validate returns its aggregate itself, never
    nil, and the aggregate is empty exactly when the encoding has a MIME
    type, every MIME type parses and, with a package path, the package
    exists; without one, every MIME type has a known encoder and no
    function is named. *)
Theorem EncodingDefinition_Validate_accepts_iff enc :
  (∃ verr, EncodingDefinition_Validate env enc = Some verr)
  ∧ (EncodingDefinition_Validate env enc = Some []
     ↔ wellFormedEncoding env enc).
Proof. apply EncodingDefinition_Validate_empty. Qed.

End WithEnv.

Lemma validateBaseParams_accepts_witness :
  ∃ att, deref (heap (initial accountHeap)) (res_BaseParams (withBaseParams 0))
         = Ok att
    ∧ ∃ new, validateBaseParams noEnv (withBaseParams 0) [] (initial accountHeap)
             = Ok ([] ++ new, initial accountHeap)
        ∧ (new = []
           ↔ ∃ baseParams, Type_ att = Some (ObjectT baseParams)
               ∧ baseParamsMatch (ExtractWildcards noEnv "/accounts") baseParams).
Proof.
  eexists. split; [reflexivity|].
  apply (validateBaseParams_accepts_iff noEnv (withBaseParams 0) []
           (initial accountHeap)).
  reflexivity.
Defined.

(** ** Validation of attributes: what a nil result guarantees *)

(** A loop keeps an invariant of the elements it has visited, the
    aggregate and the state. *)
Lemma range_inv {A V} (I : list A → V → State → Prop) (l : list A)
    (body : A → V → M V) v st v' st' :
  I [] v st →
  (∀ seen x v st v' st',
     I seen v st → body x v st = Ok (v', st') → I (seen ++ [x]) v' st') →
  range l body v st = Ok (v', st') → I l v' st'.
Proof.
  intros H0 Hstep.
  assert (∀ seen v st, I seen v st → range l body v st = Ok (v', st') →
                       I (seen ++ l) v' st') as Hgen.
  { induction l as [|x l IH]; intros seen w s Hw; simpl.
    - intros [= <- <-]. by rewrite app_nil_r.
    - intros (w1 & s1 & H1 & H2)%bind_Ok.
      rewrite cons_middle, app_assoc. eapply IH; [|exact H2].
      by eapply Hstep. }
  intros Hrun. by apply (Hgen [] v st).
Qed.

Lemma Merge_app (verr : VErrs) e : Merge verr e = verr ++ default [] e.
Proof. destruct e; simpl; [done|by rewrite app_nil_r]. Qed.

Lemma AsError_default (verr : VErrs) : default [] (AsError verr) = verr.
Proof. by destruct verr. Qed.

Lemma requiredMissing_app parent ctx required o (verr : VErrs) :
  ∃ new, requiredMissing parent ctx required o verr = verr ++ new
         ∧ (new = [] → ∀ n, n ∈ required → n ∈ o.*1).
Proof.
  unfold requiredMissing. revert verr.
  induction required as [|n required IH]; intros verr; simpl.
  - exists []. rewrite app_nil_r. split; [done|]. by intros _ n ?%elem_of_nil.
  - case_bool_decide as Hn.
    + destruct (IH verr) as (new & -> & Hnew). exists new. split; [done|].
      intros Hnil m [->|Hm]%elem_of_cons; [done|by apply Hnew].
    + destruct (IH (Add verr parent (RequiredFieldMissing ctx n)))
        as (new & -> & Hnew).
      eexists (_ :: new). unfold Add. rewrite <-app_assoc. split; [done|].
      done.
Qed.

(** What a call of the attribute validation leaves behind: the heap as it
    was, more markers, the attribute itself marked, and for every
    attribute it marked, the attributes it leads to marked as well; when
    the call reports nothing, every attribute it marked is well formed. *)
Lemma AttributeDefinition_Validate_closure fuel a ctx parent st e st' :
  AttributeDefinition_Validate fuel a ctx parent st = Ok (e, st') →
  heap st' = heap st
  ∧ validated st ⊆ validated st'
  ∧ (∀ p, a = Some p → p ∈ validated st')
  ∧ ∀ q, q ∈ validated st' → q ∉ validated st →
      (∀ c, child (heap st) q c → c ∈ validated st')
      ∧ (default [] e = [] → wellFormedAttribute (heap st) q).
Proof.
  revert a ctx parent st e st'.
  induction fuel as [|fuel IH]; intros a ctx parent st e st'; [done|].
  destruct a as [p|]; [|done]. rewrite AttributeDefinition_Validate_S.
  case_bool_decide as Hp.
  { intros [= <- <-]. split_and!; [done|done|by intros ? [= <-]|done]. }
  cbv zeta. change (heap (mark p st)) with (heap st).
  destruct (heap st !! p) as [att|] eqn:Hatt; [|done].
  assert (validated st ⊆ validated (mark p st)) as Hsub by (simpl; set_solver).
  assert (p ∈ validated (mark p st)) as Hpin by (simpl; set_solver).
  assert (∀ q, q ∈ validated (mark p st) → q ∉ validated st → q = p) as Hq.
  { simpl. set_solver. }
  destruct (Type_ att) as [t|] eqn:Ht; cycle 1.
  { intros [= <- <-]. split_and!; [done|done|by intros ? [= <-]|].
    intros q Hq1 Hq2. rewrite (Hq q Hq1 Hq2). split; [|done].
    intros c Hc. destruct Hc; congruence. }
  intros (o & st1 & [Ho ->]%lift_Ok & Hrun)%bind_Ok.
  change (heap (mark p st)) with (heap st) in Ho.
  destruct o as [o|].
  - apply bind_Ok in Hrun as (v & st2 & Hrange & [-> ->]%ret_Ok).
    destruct (requiredMissing_app parent
                (if bool_decide (ctx = EmptyString) then ctx
                 else ctx +:+ " - ") (AllRequired att) o [])
      as (verr0 & Hverr0 & Hreq).
    rewrite Hverr0 in Hrange. simpl in Hrange.
    apply (range_inv (λ seen v stc,
             heap stc = heap st
             ∧ validated (mark p st) ⊆ validated stc
             ∧ (∀ n f, (n, Some f) ∈ seen → f ∈ validated stc)
             ∧ (v = [] → verr0 = [])
             ∧ ∀ q, q ∈ validated stc → q ∉ validated (mark p st) →
                 (∀ c, child (heap st) q c → c ∈ validated stc)
                 ∧ (v = [] → wellFormedAttribute (heap st) q))) in Hrange.
    + destruct Hrange as (Hh & Hv & Hseen & Hverr & Hcl).
      rewrite AsError_default.
      split_and!; [done|set_solver|intros ? [= <-]; set_solver|].
      intros q Hq1 Hq2. destruct (decide (q = p)) as [->|Hne].
      * split.
        -- intros c Hc. destruct Hc as [att' t' o' n f H1 H2 H3 H4|att' t' c H1 H2 H3 H4];
             assert (att' = att) as -> by congruence;
             assert (t' = t) as -> by congruence.
           ++ assert (o' = o) as -> by congruence. by eapply Hseen.
           ++ congruence.
        -- intros Hnil. exists att, t. split_and!; [done..|].
           intros o' Ho'. assert (o' = o) as -> by congruence.
           apply Hreq. by apply Hverr.
      * apply Hcl; [done|]. simpl. set_solver.
    + split_and!; [done|done|by intros ?? ?%elem_of_nil|done|].
      intros q Hq1 Hq2. done.
    + clear Hrange. intros seen [n c] w s w' s' (Hh & Hv & Hseen & Hverr & Hcl).
      intros (r & s1 & Hcall & [-> ->]%ret_Ok)%bind_Ok.
      apply IH in Hcall as (Hh' & Hv' & Hc' & Hcl').
      rewrite Merge_app. split_and!.
      * congruence.
      * set_solver.
      * intros m f [Hin|Hin%list_elem_of_singleton]%elem_of_app.
        -- apply Hv'. by eapply Hseen.
        -- injection Hin as -> <-. by apply Hc'.
      * intros [Hw _]%app_eq_nil. by apply Hverr.
      * intros q Hq1 Hq2. destruct (decide (q ∈ validated s)) as [Hqs|Hqs].
        -- destruct (Hcl q Hqs Hq2) as [Hch Hwf]. split.
           ++ intros c' Hc''. apply Hv'. by apply Hch.
           ++ intros [Hw _]%app_eq_nil. by apply Hwf.
        -- destruct (Hcl' q Hq1 Hqs) as [Hch Hwf]. rewrite Hh in Hch, Hwf.
           split; [done|]. intros [_ Hr]%app_eq_nil. by apply Hwf.
  - apply bind_Ok in Hrun as (isArray & st2 & [Harr ->]%lift_Ok & Hrun).
    change (heap (mark p st)) with (heap st) in Harr.
    destruct isArray.
    + apply bind_Ok in Hrun as (arr & st2 & [Hto ->]%lift_Ok & Hrun).
      change (heap (mark p st)) with (heap st) in Hto.
      destruct arr as [elemType|]; [|by apply lift_Ok in Hrun as [? _]].
      apply bind_Ok in Hrun as (r & st2 & Hcall & [-> ->]%ret_Ok).
      apply IH in Hcall as (Hh' & Hv' & Hc' & Hcl').
      change (heap (mark p st)) with (heap st) in Hh', Hcl'.
      rewrite AsError_default. simpl.
      split_and!; [done|set_solver|intros ? [= <-]; set_solver|].
      intros q Hq1 Hq2. destruct (decide (q = p)) as [->|Hne].
      * split.
        -- intros c Hc. destruct Hc as [att' t' o' n f H1 H2 H3 H4|att' t' c H1 H2 H3 H4];
             assert (att' = att) as -> by congruence;
             assert (t' = t) as -> by congruence.
           ++ congruence.
           ++ apply Hc'. congruence.
        -- intros _. exists att, t. split_and!; [done..|].
           intros o' Ho'. congruence.
      * assert (q ∉ validated (mark p st)) as Hqm by (simpl; set_solver).
        destruct (Hcl' q Hq1 Hqm) as [Hch Hwf]. split; [done|].
        intros Hnil. apply Hwf. by destruct r.
    + apply ret_Ok in Hrun as [-> ->].
      split_and!; [done|done|by intros ? [= <-]|].
      intros q Hq1 Hq2. rewrite (Hq q Hq1 Hq2). split.
      * intros c Hc. destruct Hc as [att' t' o' n f H1 H2 H3 H4|att' t' c H1 H2 H3 H4];
          assert (att' = att) as -> by congruence;
          assert (t' = t) as -> by congruence.
        -- congruence.
        -- unfold IsArray in Harr. rewrite H4 in Harr. done.
      * intros _. exists att, t. split_and!; [done..|].
        intros o' Ho'. congruence.
Qed.

(** X6.  Started with no marker set, a call of AttributeDefinition.Validate
    that returns nil guarantees every attribute that can be reached from
    the receiver through fields of objects and elements of arrays, cyclic
    graphs included: each has a type, and the names it requires are fields
    of its object. *)
Theorem accepted_attribute_graph_is_well_formed fuel p ctx parent st st' :
  validated st = ∅ →
  AttributeDefinition_Validate fuel (Some p) ctx parent st = Ok (None, st') →
  ∀ q, rtc (child (heap st)) p q → wellFormedAttribute (heap st) q.
Proof.
  intros Hfresh Hrun.
  apply AttributeDefinition_Validate_closure in Hrun as (_ & _ & Hp & Hcl).
  assert (∀ q, rtc (child (heap st)) p q → q ∈ validated st') as Hmarked.
  { intros q Hq. apply rtc_nsteps in Hq as [n Hq]. revert q Hq.
    induction n as [|n IHn]; intros q Hq.
    - inversion Hq; subst. by apply Hp.
    - apply nsteps_inv_r in Hq as (q' & Hq' & Hc).
      apply (Hcl q'); [by apply IHn|set_solver|done]. }
  intros q Hq. apply (Hcl q); [by apply Hmarked|set_solver|done].
Qed.

Lemma accepted_attribute_graph_witness :
  validated (initial nodeHeap) = ∅
  ∧ ∀ q, rtc (child nodeHeap) 0 q → wellFormedAttribute nodeHeap q.
Proof.
  split; [reflexivity|].
  apply (accepted_attribute_graph_is_well_formed 3 0 EmptyString DesignDef
           (initial nodeHeap)
           {| heap := nodeHeap; validated := {[0; 1]}; visits := [0; 1] |}).
  - reflexivity.
  - vm_compute. reflexivity.
Defined.

(** ** Validation of actions and resources: what a nil result guarantees *)

Lemma ValidateParams_keepsHeap fuel a : keepsHeap (ValidateParams fuel a).
Proof. unfold ValidateParams. repeat keepsHeap_step. Qed.

#[global] Hint Resolve ValidateParams_keepsHeap : keepsHeap.

Lemma ActionDefinition_Validate_keepsHeap fuel a :
  keepsHeap (ActionDefinition_Validate fuel a).
Proof. unfold ActionDefinition_Validate. repeat keepsHeap_step. Qed.

#[global] Hint Resolve ActionDefinition_Validate_keepsHeap : keepsHeap.

Lemma validateActions_keepsHeap fuel r verr :
  keepsHeap (validateActions fuel r verr).
Proof. unfold validateActions. repeat keepsHeap_step. Qed.

Lemma validateBaseParams_keepsHeap env r verr :
  keepsHeap (validateBaseParams env r verr).
Proof. unfold validateBaseParams. repeat keepsHeap_step. Qed.

#[global] Hint Resolve validateActions_keepsHeap validateBaseParams_keepsHeap
  : keepsHeap.

Lemma ResourceDefinition_Validate_keepsHeap env fuel Design r :
  keepsHeap (ResourceDefinition_Validate env fuel Design r).
Proof. unfold ResourceDefinition_Validate. repeat keepsHeap_step. Qed.

#[global] Hint Resolve ResourceDefinition_Validate_keepsHeap : keepsHeap.

Lemma validateActionRoutes_keepsHeap env r ac acc :
  keepsHeap (validateActionRoutes env r ac acc).
Proof. unfold validateActionRoutes. repeat keepsHeap_step. Qed.

#[global] Hint Resolve validateActionRoutes_keepsHeap : keepsHeap.

(** A response that its validation accepts has a status. *)
Lemma ResponseDefinition_Validate_accepts fuel r st e st' :
  ResponseDefinition_Validate fuel r st = Ok (e, st') →
  default [] e = [] → Status r ≠ 0.
Proof.
  unfold ResponseDefinition_Validate.
  intros (verr & st1 & _ & [-> ->]%ret_Ok)%bind_Ok.
  rewrite AsError_default. case_bool_decide; [|done].
  unfold Add. by intros [_ ?]%app_eq_nil.
Qed.

(** A loop over the responses that merges the result of each validation
    ends with an empty aggregate only if it started with one and every
    response has a status. *)
Lemma responses_accepted {K} fuel (l : list (K * ResponseDefinition))
    (v : VErrs) st v' st' :
  range l (λ '(_, resp) verr,
             e <~ ResponseDefinition_Validate fuel resp ;;
             ret (Merge verr e)) v st = Ok (v', st') →
  v' = [] → v = [] ∧ ∀ i resp, (i, resp) ∈ l → Status resp ≠ 0.
Proof.
  refine (range_inv (λ seen w _,
            w = [] → v = [] ∧ ∀ i resp, (i, resp) ∈ seen → Status resp ≠ 0)
            _ _ _ _ _ _ _ _).
  - intros ->. split; [done|]. by intros ?? ?%elem_of_nil.
  - clear. intros seen [i resp] w s w' s' Hinv.
    intros (e & s1 & Hcall & [-> ->]%ret_Ok)%bind_Ok.
    rewrite Merge_app. intros [Hw He]%app_eq_nil.
    destruct (Hinv Hw) as [-> Hseen]. split; [done|].
    intros j resp' [Hin|Hin%list_elem_of_singleton]%elem_of_app.
    + by eapply Hseen.
    + injection Hin as -> ->. by eapply ResponseDefinition_Validate_accepts.
Qed.

(** An iteration of the loop over the parameters that leaves the aggregate
    empty found it empty, and a parameter with a name and a type that is no
    object. *)
Lemma validateParam_accepts fuel def n p (v : VErrs) st v' st' :
  validateParam fuel def (n, p) v st = Ok (v', st') →
  v' = [] →
  v = [] ∧ n ≠ EmptyString
  ∧ ∃ t, typeOf (heap st) p = Ok t ∧ KindOf t ≠ ObjectKind.
Proof.
  unfold validateParam.
  intros (h & st1 & [-> ->]%getHeap_Ok & Hrun)%bind_Ok.
  apply bind_Ok in Hrun as (verr1 & st1 & Hchain & Hrun).
  apply bind_Ok in Hrun as (t & st2 & [Ht ->]%lift_Ok & Hrun).
  cbv zeta in Hrun.
  apply bind_Ok in Hrun as (e & st2 & Hcall & [-> ->]%ret_Ok).
  rewrite Merge_app. intros [Hverr _]%app_eq_nil.
  assert (verr1 = [] ∧ KindOf t ≠ ObjectKind) as [-> Hk].
  { case_bool_decide; [|done]. unfold Add in Hverr.
    by apply app_eq_nil in Hverr as [_ ?]. }
  clear Hverr.
  assert (v = [] ∧ n ≠ EmptyString) as [-> Hn].
  { case_bool_decide as Hn.
    - apply ret_Ok in Hchain as [Hc _]. unfold Add in Hc.
      symmetry in Hc. by apply app_eq_nil in Hc as [_ ?].
    - destruct p as [p|].
      + apply bind_Ok in Hchain as (att & st3 & _ & [Hc _]%ret_Ok).
        destruct (Type_ att); [done|]. unfold Add in Hc.
        symmetry in Hc. by apply app_eq_nil in Hc as [_ ?].
      + apply ret_Ok in Hchain as [Hc _]. unfold Add in Hc.
        symmetry in Hc. by apply app_eq_nil in Hc as [_ ?]. }
  split_and!; [done..|]. by exists t.
Qed.

(** ValidateParams returns nil only for parameters that are well formed,
    and then every response of the action has a status. *)
Lemma ValidateParams_accepts fuel a st e st' :
  ValidateParams fuel a st = Ok (e, st') → default [] e = [] →
  wellFormedParams (heap st) a.
Proof.
  unfold ValidateParams, wellFormedParams.
  destruct (act_Params a) as [p|] eqn:Hp; [|done].
  intros (h & st1 & [-> ->]%getHeap_Ok & Hrun)%bind_Ok.
  apply bind_Ok in Hrun as (patt & st1 & [Hpatt ->]%lift_Ok & Hrun).
  intros Hacc _. exists patt.
  destruct (Type_ patt) as [[| |o| | |]|] eqn:Ht;
    try (apply bind_Ok in Hrun as (v1 & st1 & H1 & Hrun);
         apply bind_Ok in Hrun as (v2 & st2 & H2 & [-> ->]%ret_Ok);
         rewrite AsError_default in Hacc;
         apply (responses_accepted _ _ _ _ _ _ H2) in Hacc as [-> _];
         apply ret_Ok in H1 as [? _]; done).
  apply bind_Ok in Hrun as (v1 & st1 & H1 & Hrun).
  apply bind_Ok in Hrun as (v2 & st2 & H2 & [-> ->]%ret_Ok).
  rewrite AsError_default in Hacc.
  apply (responses_accepted _ _ _ _ _ _ H2) in Hacc as [-> _].
  exists o. split_and!; [done..|].
  apply (range_inv (λ seen w s,
           heap s = heap st
           ∧ (w = [] → ∀ n q, (n, q) ∈ seen →
                n ≠ EmptyString
                ∧ ∃ t, typeOf (heap st) q = Ok t ∧ KindOf t ≠ ObjectKind)))
    in H1.
  - destruct H1 as [_ H1]. by apply H1.
  - split; [done|]. by intros _ ?? ?%elem_of_nil.
  - clear. intros seen [n q] w s w' s' [Hh Hinv] Hbody. split.
    + rewrite <-Hh. by eapply validateParam_keepsHeap.
    + intros Hw'. destruct (validateParam_accepts _ _ _ _ _ _ _ _ Hbody Hw')
        as (-> & Hn & Hq). rewrite Hh in Hq.
      intros m q' [Hin|Hin%list_elem_of_singleton]%elem_of_app.
      * by apply Hinv.
      * by injection Hin as -> ->.
Qed.

(** The inner loop of the check of the response statuses. *)
Lemma duplicateStatus_fold i r (l : list (string * ResponseDefinition))
    (v : VErrs) :
  ∃ new,
    foldl (λ verr '(j, r2),
             if bool_decide (i ≠ j ∧ Status r = Status r2)
             then Add verr (ResponseDef (resp_Name r))
                    (MultipleResponseStatus (Status r))
             else verr) v l = v ++ new
    ∧ (new = [] → ∀ j r2, (j, r2) ∈ l → i ≠ j → Status r ≠ Status r2).
Proof.
  revert v. induction l as [|[j r2] l IH]; intros v; simpl.
  - exists []. rewrite app_nil_r. split; [done|]. by intros _ ?? ?%elem_of_nil.
  - case_bool_decide as Hd.
    + destruct (IH (Add v (ResponseDef (resp_Name r))
                      (MultipleResponseStatus (Status r)))) as (new & -> & _).
      eexists (_ :: new). unfold Add. rewrite <-app_assoc. by split.
    + destruct (IH v) as (new & -> & Hnew). exists new. split; [done|].
      intros Hnil k r3 [[= -> ->]|Hin]%elem_of_cons Hne.
      * intros Hs. by apply Hd.
      * by eapply Hnew.
Qed.

(** An action that its validation accepts is well formed. *)
Lemma ActionDefinition_Validate_accepts fuel a st e st' :
  ActionDefinition_Validate fuel a st = Ok (e, st') → default [] e = [] →
  wellFormedAction (heap st) a.
Proof.
  unfold ActionDefinition_Validate. cbv zeta.
  set (verr0 := if bool_decide (act_Name a = EmptyString) then _ else _).
  set (verr1 := if bool_decide (length (Routes a) = 0) then _ else _).
  intros (verr2 & st1 & Hresp & Hrun)%bind_Ok.
  apply bind_Ok in Hrun as (e1 & st2 & Hparams & Hrun).
  apply bind_Ok in Hrun as (verr4 & st3 & Hpayload & [-> ->]%ret_Ok).
  rewrite AsError_default. intros Hacc.
  assert (verr4 = [] ∧ act_Parent a ≠ None) as [-> Hparent].
  { destruct (act_Parent a); simpl in Hacc; [done|].
    unfold Add in Hacc. by apply app_eq_nil in Hacc as [_ ?]. }
  clear Hacc.
  assert (verr2 ++ default [] e1 = []) as [-> He1]%app_eq_nil.
  { rewrite <-Merge_app. destruct (Payload a) as [u|].
    - apply bind_Ok in Hpayload as (e2 & st4 & _ & [Hm _]%ret_Ok).
      rewrite Merge_app in Hm. symmetry in Hm. by apply app_eq_nil in Hm as [? _].
    - by apply ret_Ok in Hpayload as [<- _]. }
  assert (heap st1 = heap st) as Hheap.
  { revert Hresp.
    match goal with
    | |- ?m st = _ → _ => assert (keepsHeap m) as Hk by repeat keepsHeap_step
    end.
    apply Hk. }
  apply ValidateParams_accepts in Hparams; [|done]. rewrite Hheap in Hparams.
  revert Hresp.
  refine (λ Hresp,
    let H := range_inv (λ seen w _,
               w = [] →
               verr1 = []
               ∧ ∀ i ri, (i, ri) ∈ seen →
                   Status ri ≠ 0
                   ∧ ∀ j rj, (j, rj) ∈ act_Responses a → i ≠ j →
                       Status ri ≠ Status rj) _ _ _ _ _ _ _ _ Hresp in _).
  Unshelve.
  - destruct (H eq_refl) as [Hverr1 Hall]. clear H.
    assert (verr0 = [] ∧ Routes a ≠ []) as [Hverr0 Hroutes].
    { unfold verr1 in Hverr1. case_bool_decide as Hlen.
      - unfold Add in Hverr1. by apply app_eq_nil in Hverr1 as [_ ?].
      - split; [done|]. intros Hnil. by rewrite Hnil in Hlen. }
    assert (act_Name a ≠ EmptyString) as Hname.
    { unfold verr0 in Hverr0. by case_bool_decide. }
    split_and!; [done..| | |done].
    + intros i ri Hin. by apply (Hall i ri).
    + intros i ri j rj Hi Hj. by apply (Hall i ri).
  - intros ->. split; [done|]. by intros ?? ?%elem_of_nil.
  - clear. intros seen [i r] w s w' s' Hinv.
    intros (e & s1 & Hcall & [-> ->]%ret_Ok)%bind_Ok.
    destruct (duplicateStatus_fold i r (act_Responses a) w) as (new & -> & Hnew).
    rewrite Merge_app. intros [[Hw ->]%app_eq_nil He]%app_eq_nil.
    destruct (Hinv Hw) as [Hverr1 Hseen]. split; [done|].
    intros k rk [Hin|Hin%list_elem_of_singleton]%elem_of_app.
    + by apply Hseen.
    + injection Hin as -> ->. split.
      * by eapply ResponseDefinition_Validate_accepts.
      * by apply Hnew.
Qed.

(** A loop that merges the result of a validation of each element ends
    with an empty aggregate only if it started with one and each of the
    validations returned nil. *)
Lemma range_Merge_accepts {A} (C : Heap → A → Prop)
    (call : A → M (option VErrs)) (l : list A) body (v : VErrs) st v' st' :
  (∀ x w, body x w = (e <~ call x ;; ret (Merge w e))) →
  (∀ x, keepsHeap (call x)) →
  (∀ x s e s', call x s = Ok (e, s') → default [] e = [] → C (heap s) x) →
  range l body v st = Ok (v', st') →
  heap st' = heap st ∧ (v' = [] → v = [] ∧ ∀ x, x ∈ l → C (heap st) x).
Proof.
  intros Hbody Hkeep Hcall.
  refine (range_inv (λ seen w s,
            heap s = heap st
            ∧ (w = [] → v = [] ∧ ∀ x, x ∈ seen → C (heap st) x))
            _ _ _ _ _ _ _ _).
  - split; [done|]. intros ->. split; [done|]. by intros ? ?%elem_of_nil.
  - intros seen x w s w' s' [Hh Hinv]. rewrite Hbody.
    intros (e & s1 & Hrun & [-> ->]%ret_Ok)%bind_Ok. split.
    + rewrite <-Hh. by eapply Hkeep.
    + rewrite Merge_app. intros [Hw He]%app_eq_nil.
      destruct (Hinv Hw) as [-> Hseen]. split; [done|].
      intros y [Hin|Hin%list_elem_of_singleton]%elem_of_app; [by apply Hseen|].
      subst y. rewrite <-Hh. by eapply Hcall.
Qed.

Section WithEnv.
Context (env : Env).

Lemma validateActions_accepts fuel r (v : VErrs) st v' st' :
  validateActions fuel r v st = Ok (v', st') → v' = [] →
  v = []
  ∧ (CanonicalActionName r ≠ EmptyString →
     CanonicalActionName r ∈ act_Name <$> Actions r)
  ∧ ∀ a, a ∈ Actions r → wellFormedAction (heap st) a.
Proof.
  unfold validateActions.
  intros (v1 & st1 & Hrange & [-> ->]%ret_Ok)%bind_Ok. cbv zeta.
  intros Hacc.
  assert (v1 = []
          ∧ (CanonicalActionName r ≠ EmptyString →
             CanonicalActionName r ∈ act_Name <$> Actions r)) as [-> Hcan].
  { destruct (bool_decide (CanonicalActionName r ≠ EmptyString)) eqn:Hne;
      simpl in Hacc.
    - destruct (bool_decide (CanonicalActionName r ∈ act_Name <$> Actions r))
        eqn:Hin; simpl in Hacc.
      + split; [done|]. intros _. by apply bool_decide_eq_true in Hin.
      + unfold Add in Hacc. by apply app_eq_nil in Hacc as [_ ?].
    - split; [done|]. intros Hn. by apply bool_decide_eq_false in Hne. }
  apply (range_Merge_accepts wellFormedAction (ActionDefinition_Validate fuel))
    in Hrange as [_ Hrange].
  - destruct (Hrange eq_refl) as [-> Hall]. done.
  - done.
  - intros x. apply ActionDefinition_Validate_keepsHeap.
  - intros x s e s'. apply ActionDefinition_Validate_accepts.
Qed.

Lemma validateParent_accepts Design r (v : VErrs) :
  validateParent env Design r v = [] →
  v = [] ∧ ∃ p, p ∈ Resources Design ∧ res_Name p = ParentName r
                ∧ is_Some (CanonicalAction env p).
Proof.
  unfold validateParent.
  destruct (list_find _ _) as [[i p]|] eqn:Hfind.
  - apply list_find_Some in Hfind as (Hi & Hp & _).
    destruct (CanonicalAction env p) eqn:Hc.
    + intros ->. split; [done|]. exists p. split_and!; [|done|by rewrite Hc].
      by eapply list_elem_of_lookup_2.
    + unfold Add. by intros [_ ?]%app_eq_nil.
  - unfold Add. by intros [_ ?]%app_eq_nil.
Qed.

(** A resource that its validation accepts is well formed. *)
Lemma ResourceDefinition_Validate_accepts fuel Design r st e st' :
  ResourceDefinition_Validate env fuel Design r st = Ok (e, st') →
  default [] e = [] → wellFormedResource env Design (heap st) r.
Proof.
  unfold ResourceDefinition_Validate. cbv zeta.
  set (verr0 := if bool_decide (res_Name r = EmptyString) then _ else _).
  intros (verr1 & st1 & Hactions & Hrun)%bind_Ok.
  apply bind_Ok in Hrun as (verr2 & st2 & Hbase & Hrun).
  apply bind_Ok in Hrun as (verr4 & st3 & Hresp & Hrun).
  apply bind_Ok in Hrun as (verr5 & st4 & Hparams & [-> ->]%ret_Ok).
  rewrite AsError_default. intros ->.
  assert (verr4 = []) as ->.
  { destruct (res_Params r).
    - apply bind_Ok in Hparams as (e2 & st5 & _ & [Hm _]%ret_Ok).
      rewrite Merge_app in Hm. symmetry in Hm. by apply app_eq_nil in Hm as [? _].
    - by apply ret_Ok in Hparams as [<- _]. }
  apply (range_Merge_accepts (λ _ resp, Status resp ≠ 0)
           (ResponseDefinition_Validate fuel)) in Hresp as [_ Hresp];
    [|done|intros x; apply ResponseDefinition_Validate_keepsHeap
     |intros x s e s'; apply ResponseDefinition_Validate_accepts].
  destruct (Hresp eq_refl) as [Hverr3 Hresponses]. clear Hresp.
  assert (heap st1 = heap st) as Hheap1.
  { by eapply validateActions_keepsHeap. }
  assert (verr2 = []
          ∧ (ParentName r ≠ EmptyString →
             ∃ p, p ∈ Resources Design ∧ res_Name p = ParentName r
                  ∧ is_Some (CanonicalAction env p))) as [-> Hparent].
  { case_bool_decide as Hpn.
    - apply validateParent_accepts in Hverr3 as [-> ?]. done.
    - split; [done|]. intros Hn. done. }
  assert (verr1 = []
          ∧ (res_BaseParams r ≠ None →
             ∃ att baseParams, deref (heap st) (res_BaseParams r) = Ok att
               ∧ Type_ att = Some (ObjectT baseParams)
               ∧ baseParamsMatch (ExtractWildcards env (BasePath r))
                                 baseParams)) as [-> Hbp].
  { destruct (res_BaseParams r) as [p|] eqn:Hp.
    - destruct (deref (heap st1) (Some p)) as [att| |] eqn:Hatt.
      + rewrite <-Hp in Hatt.
        destruct (validateBaseParams_adds env r verr1 st1 att Hatt)
          as (new & Hrun & Hiff).
        rewrite Hrun in Hbase. injection Hbase as Hb _.
        apply app_eq_nil in Hb as [-> ->]. split; [done|]. intros _.
        destruct (proj1 Hiff eq_refl) as (bp & Hbp1 & Hbp2).
        exists att, bp. rewrite <-Hheap1, <-Hp. done.
      + unfold validateBaseParams, bind, getHeap, lift in Hbase. simpl in Hbase.
        rewrite Hp in Hbase. by rewrite Hatt in Hbase.
      + unfold validateBaseParams, bind, getHeap, lift in Hbase. simpl in Hbase.
        rewrite Hp in Hbase. by rewrite Hatt in Hbase.
    - apply ret_Ok in Hbase as [<- _]. done. }
  apply validateActions_accepts in Hactions as (Hverr0 & Hcan & Hacts); [|done].
  split_and!; [|done..].
  intros Hn. unfold verr0 in Hverr0. by rewrite bool_decide_true in Hverr0.
Qed.

End WithEnv.

(** ** The top-level validation: what a nil result guarantees *)

Lemma UserTypeDefinition_Validate_accepts fuel u ctx parent st e st' :
  UserTypeDefinition_Validate fuel u ctx parent st = Ok (e, st') →
  default [] e = [] → TypeName u ≠ EmptyString.
Proof.
  unfold UserTypeDefinition_Validate. cbv zeta.
  intros (e1 & st1 & _ & [-> ->]%ret_Ok)%bind_Ok.
  rewrite AsError_default, Merge_app. intros [Hv _]%app_eq_nil Hn.
  by rewrite bool_decide_true in Hv.
Qed.

(** The media type validation only adds to the diagnostics of the
    validation of its user type, with which it starts. *)
Lemma MediaTypeDefinition_Validate_accepts_named fuel m st e st' :
  MediaTypeDefinition_Validate fuel m st = Ok (e, st') →
  default [] e = [] → TypeName (mt_UserTypeDefinition m) ≠ EmptyString.
Proof.
  intros Hrun Hacc.
  assert (ensures (MediaTypeDefinition_Validate fuel m)
            (λ e, default [] e = [] →
                  TypeName (mt_UserTypeDefinition m) ≠ EmptyString)) as Hens;
    [|by eapply Hens].
  clear. unfold MediaTypeDefinition_Validate. cbv zeta.
  set (def := MediaTypeDef (Identifier m)).
  set (Q := λ v : VErrs,
         v = [] → TypeName (mt_UserTypeDefinition m) ≠ EmptyString).
  assert (∀ (v : VErrs) e, Q v → Q (Merge v e)) as HMerge.
  { intros v e Hv. rewrite Merge_app. intros [? _]%app_eq_nil. by apply Hv. }
  assert (∀ (v : VErrs) d msg, Q (Add v d msg)) as HAdd.
  { intros v d msg. unfold Add. by intros [_ ?]%app_eq_nil. }
  eapply ensures_bind.
  { intros st e st' Hrun. exact (UserTypeDefinition_Validate_accepts _ _ _ _ _ _ _ Hrun). }
  intros e He. simpl in He.
  assert (Q (Merge [] e)) as Hverr.
  { rewrite Merge_app. simpl. exact He. }
  generalize dependent (Merge [] e). clear e He. intros verr Hverr.
  eapply ensures_bind; [apply ensures_True|]. intros h _.
  eapply ensures_bind; [apply ensures_True|]. intros att _.
  eapply ensures_bind; [apply ensures_True|]. intros _ _.
  eapply ensures_bind; [apply ensures_True|]. intros h' _.
  eapply ensures_bind; [apply ensures_True|]. intros t _.
  eapply ensures_bind; [apply ensures_True|]. intros a _.
  eapply (ensures_bind _ _ (λ vo, Q vo.1)).
  { destruct a as [[elem|]|].
    - eapply ensures_bind; [apply ensures_True|]. intros err _.
      destruct err as [err|].
      + apply ensures_ret. by apply HMerge.
      + eapply ensures_bind; [apply ensures_True|]. intros h'' _.
        eapply ensures_bind; [apply ensures_True|]. intros eatt _.
        destruct (Type_ eatt) as [[| | | | |]|];
          try (eapply ensures_bind; [apply ensures_True|]; intros ? _;
               apply ensures_ret; first [exact Hverr|apply HAdd]).
        apply ensures_lift_Panic.
    - apply ensures_ret. apply HAdd.
    - eapply ensures_bind; [apply ensures_True|]. intros o _.
      by apply ensures_ret. }
  intros [verr1 obj] Hverr1. simpl in Hverr1.
  eapply (ensures_bind _ _ Q).
  { destruct obj as [o|]; [|by apply ensures_ret].
    apply ensures_range; [done|]. intros [n att'] v Hv.
    unfold mediaTypeAttribute.
    eapply ensures_bind; [apply ensures_True|]. intros e _.
    eapply ensures_bind; [apply ensures_True|]. intros h'' _.
    eapply ensures_bind; [apply ensures_True|]. intros a' _.
    case_bool_decide; [apply ensures_ret; by apply HMerge|].
    destruct (Type_ a') as [[| | | | |cmt]|];
      try apply ensures_lift_Panic.
    destruct (hasView _ _); apply ensures_ret; [by apply HMerge|apply HAdd]. }
  intros verr2 Hverr2.
  eapply ensures_bind; [apply ensures_True|]. intros h'' _.
  eapply ensures_bind; [apply ensures_True|]. intros t' _.
  eapply ensures_bind; [apply ensures_True|]. intros isArray _.
  eapply (ensures_bind _ _ Q).
  { destruct isArray; [by apply ensures_ret|].
    eapply (ensures_bind _ _ Q).
    - apply ensures_range; [done|]. intros [n v] w Hw.
      eapply ensures_bind; [apply ensures_True|]. intros e _.
      apply ensures_ret. by apply HMerge.
    - intros w Hw. apply ensures_ret. destruct (hasView _ _); [done|apply HAdd]. }
  intros verr3 Hverr3.
  eapply (ensures_bind _ _ Q).
  { apply ensures_range; [done|]. intros [n l] w Hw.
    eapply ensures_bind; [apply ensures_True|]. intros e _.
    apply ensures_ret. by apply HMerge. }
  intros verr4 Hverr4. apply ensures_ret. by rewrite AsError_default.
Qed.

(** A loop that merges the result of a validation of each element, and
    may change the heap: an empty aggregate at the end was empty at the
    start, and each validation returned nil. *)
Lemma range_Merge_accepts_any {A} (C : A → Prop)
    (call : A → M (option VErrs)) (l : list A) body (v : VErrs) st v' st' :
  (∀ x w, body x w = (e <~ call x ;; ret (Merge w e))) →
  (∀ x s e s', call x s = Ok (e, s') → default [] e = [] → C x) →
  range l body v st = Ok (v', st') →
  v' = [] → v = [] ∧ ∀ x, x ∈ l → C x.
Proof.
  intros Hbody Hcall.
  refine (range_inv (λ seen w s, w = [] → v = [] ∧ ∀ x, x ∈ seen → C x)
            _ _ _ _ _ _ _ _).
  - intros ->. split; [done|]. by intros ? ?%elem_of_nil.
  - intros seen x w s w' s' Hinv. rewrite Hbody.
    intros (e & s1 & Hrun & [-> ->]%ret_Ok)%bind_Ok.
    rewrite Merge_app. intros [Hw He]%app_eq_nil.
    destruct (Hinv Hw) as [-> Hseen]. split; [done|].
    intros y [Hin|Hin%list_elem_of_singleton]%elem_of_app; [by apply Hseen|].
    subst y. by eapply Hcall.
Qed.

Section WithEnv.
Context (env : Env).

Lemma validateURL_accepts url def msg (v : VErrs) :
  validateURL env url def msg v = [] → v = [] ∧ validURL env url.
Proof.
  unfold validateURL, validURL. destruct url as [u|]; [|by intros ->].
  case_bool_decide as Hu; [intros ->; split; [done|]; by intros ? [= <-]|].
  destruct (ParseRequestURI env u) eqn:Hparse.
  - unfold Add. by intros [_ ?]%app_eq_nil.
  - intros ->. split; [done|]. by intros ? [= <-].
Qed.

(** The loop over the routes of an action leaves the state alone, appends
    the routes to the list of all routes, and ends with an empty aggregate
    only for an action that is well routed. *)
Lemma validateActionRoutes_accepts r ac (acc acc' : VErrs * list routeInfo)
    st st' :
  validateActionRoutes env r ac acc st = Ok (acc', st') →
  st' = st
  ∧ acc'.2 = acc.2 ++ (newRouteInfo env r ac <$> Routes ac)
  ∧ (acc'.1 = [] → acc.1 = [] ∧ wellRoutedAction env ac).
Proof.
  unfold validateActionRoutes, wellRoutedAction. cbv zeta.
  set (def := ActionDef (act_Name ac)).
  set (verr := validateURL env (act_Docs ac) def InvalidActionDocsURL acc.1).
  intros Hrun.
  apply (range_inv (λ seen (w : VErrs * list routeInfo) s,
           s = st
           ∧ w.2 = acc.2 ++ (newRouteInfo env r ac <$> seen)
           ∧ (w.1 = [] →
              verr = []
              ∧ ∀ ro, ro ∈ seen →
                  ∃ parentPath, act_Parent ac = Some parentPath
                    ∧ ∀ wc, wc ∈ ExtractWildcards env parentPath →
                            wc ∉ ExtractWildcards env (Path ro))))
    in Hrun.
  - destruct Hrun as (-> & Hroutes & Hacc). split_and!; [done..|].
    intros Hnil. destruct (Hacc Hnil) as [Hverr Hall].
    apply validateURL_accepts in Hverr as [? ?]. done.
  - simpl. rewrite app_nil_r. split_and!; [done..|].
    intros ->. split; [done|]. by intros ? ?%elem_of_nil.
  - clear Hrun. intros seen ro [w routes] s [w' routes'] s' (-> & Hroutes & Hinv).
    simpl in *. destruct (act_Parent ac) as [parentPath|] eqn:Hparent;
      [|by intros [? _]%lift_Ok].
    intros [[= -> ->] ->]%ret_Ok. split_and!; [done| |].
    + rewrite Hroutes, fmap_app. simpl. by rewrite <-app_assoc.
    + destruct (duplicateWildcards_adds env def parentPath ro w) as [Heq Hiff].
      cbv zeta in Heq, Hiff. rewrite Heq. intros [-> Hnew]%app_eq_nil.
      destruct (Hinv eq_refl) as [Hverr Hseen]. split; [done|].
      intros ro' [Hin|Hin%list_elem_of_singleton]%elem_of_app; [by apply Hseen|].
      subst ro'. exists parentPath. split; [done|]. apply Hiff.
      rewrite Heq, Hnew. done.
Qed.

Lemma encodings_accepted (l : list EncodingDefinition) (v : VErrs) :
  foldl (λ verr enc, Merge verr (EncodingDefinition_Validate env enc)) v l = [] →
  v = [] ∧ ∀ enc, enc ∈ l → wellFormedEncoding env enc.
Proof.
  revert v. induction l as [|enc l IH]; intros v; simpl.
  - intros ->. split; [done|]. by intros ? ?%elem_of_nil.
  - intros [Hm Hall]%IH. rewrite Merge_app in Hm.
    apply app_eq_nil in Hm as [-> He]. split; [done|].
    intros enc' [->|Hin]%elem_of_cons; [|by apply Hall].
    destruct (EncodingDefinition_Validate_empty env enc) as [[verr Hsome] Hiff].
    apply Hiff. rewrite Hsome in He |- *. simpl in He. by rewrite He.
Qed.

(** The top-level validation returns nil only for an API that is well
    formed. *)
Lemma APIDefinition_Validate_accepts fuel Design a st e st' :
  APIDefinition_Validate env fuel Design a st = Ok (e, st') →
  default [] e = [] → wellFormedAPI env Design (heap st) a.
Proof.
  unfold APIDefinition_Validate. cbv zeta.
  intros (verr0 & st0 & Hbase & Hrun)%bind_Ok.
  apply bind_Ok in Hrun as ([verrR allRoutes] & st1 & Hres & Hrun).
  apply bind_Ok in Hrun as (conflicts & st2 & [Hconf ->]%lift_Ok & Hrun).
  apply bind_Ok in Hrun as (verrM & st3 & Hmedia & Hrun).
  apply bind_Ok in Hrun as (verrT & st4 & Htypes & Hrun).
  apply bind_Ok in Hrun as (verrP & st5 & Hresp & [-> ->]%ret_Ok).
  rewrite AsError_default.
  intros [[-> Hcons]%encodings_accepted Hprod]%encodings_accepted.
  apply (range_Merge_accepts (λ _ resp, Status resp ≠ 0)
           (ResponseDefinition_Validate fuel)) in Hresp as [_ Hresp];
    [|done|intros x; apply ResponseDefinition_Validate_keepsHeap
     |intros x s e s'; apply ResponseDefinition_Validate_accepts].
  destruct (Hresp eq_refl) as [-> Hresponses]. clear Hresp.
  apply (range_Merge_accepts (λ _ t, TypeName t ≠ EmptyString)
           (λ t, UserTypeDefinition_Validate fuel t EmptyString DesignDef))
    in Htypes as [_ Htypes];
    [|done|intros x; apply UserTypeDefinition_Validate_keepsHeap
     |intros x s e s'; apply UserTypeDefinition_Validate_accepts].
  destruct (Htypes eq_refl) as [-> Hnamed]. clear Htypes.
  apply (range_Merge_accepts_any
           (λ m, TypeName (mt_UserTypeDefinition m) ≠ EmptyString)
           (MediaTypeDefinition_Validate fuel)) in Hmedia;
    [|done|intros x s e s'; apply MediaTypeDefinition_Validate_accepts_named
     |done].
  destruct Hmedia as [[-> Hnoconf]%app_eq_nil Hmedia].
  apply fmap_nil_inv in Hnoconf. subst conflicts.
  assert (heap st0 = heap st) as Hheap0.
  { destruct (api_BaseParams a).
    - apply bind_Ok in Hbase as (e0 & s0 & Hb & [_ ->]%ret_Ok).
      by eapply AttributeDefinition_Validate_keepsHeap.
    - by apply ret_Ok in Hbase as [_ ->]. }
  apply (range_inv (λ seen (w : VErrs * list routeInfo) s,
           heap s = heap st
           ∧ w.2 = (r ← seen; ac ← Actions r;
                    newRouteInfo env r ac <$> Routes ac)
           ∧ (w.1 = [] →
              validateURL env (api_Docs a) DesignDef InvalidDocsURL
                (validateURL env (License a) DesignDef InvalidLicenseURL
                   (validateURL env (Contact a) DesignDef InvalidContactURL
                      verr0)) = []
              ∧ ∀ r, r ∈ seen →
                  wellFormedResource env Design (heap st) r
                  ∧ ∀ ac, ac ∈ Actions r → wellRoutedAction env ac)))
    in Hres.
  - destruct Hres as (_ & Hroutes & Hacc). simpl in Hroutes, Hacc.
    destruct (Hacc eq_refl) as [Hurls Hresources].
    apply validateURL_accepts in Hurls as [Hurls Hdocs].
    apply validateURL_accepts in Hurls as [Hurls Hlicense].
    apply validateURL_accepts in Hurls as [_ Hcontact].
    unfold wellFormedAPI, routesOf. rewrite <-Hroutes.
    split_and!; [done..|].
    intros enc [Hin|Hin]%elem_of_app; [by apply Hcons|by apply Hprod].
  - split_and!; [done|done|]. simpl. intros Hurls. split; [done|].
    by intros ? ?%elem_of_nil.
  - clear Hres Hconf. intros seen r [w routes] s [w' routes'] s'
      (Hh & Hroutes & Hinv). simpl in Hroutes, Hinv.
    intros (e & s1 & Hcall & Hacts)%bind_Ok.
    assert (heap s1 = heap st) as Hh1.
    { rewrite <-Hh. by eapply ResourceDefinition_Validate_keepsHeap. }
    apply (range_inv (λ seenA (x : VErrs * list routeInfo) s2,
             s2 = s1
             ∧ x.2 = routes ++ (ac ← seenA; newRouteInfo env r ac <$> Routes ac)
             ∧ (x.1 = [] →
                Merge w e = []
                ∧ ∀ ac, ac ∈ seenA → wellRoutedAction env ac))) in Hacts.
    + destruct Hacts as (-> & Hroutes' & Hacc'). simpl in Hroutes', Hacc'.
      split_and!; [done| |].
      * simpl. rewrite Hroutes', Hroutes, bind_app. simpl.
        by rewrite app_nil_r.
      * simpl. intros ->. destruct (Hacc' eq_refl) as [Hm Hrouted].
        rewrite Merge_app in Hm. apply app_eq_nil in Hm as [-> He].
        destruct (Hinv eq_refl) as [Hurls Hseen]. split; [done|].
        intros r' [Hin|Hin%list_elem_of_singleton]%elem_of_app;
          [by apply Hseen|].
        subst r'. split; [|done]. rewrite <-Hh.
        by eapply ResourceDefinition_Validate_accepts.
    + simpl. rewrite app_nil_r. split_and!; [done..|].
      intros Hm. split; [done|]. by intros ? ?%elem_of_nil.
    + clear. intros seenA ac x s2 x' s2' (-> & Hroutes & Hinv).
      intros (-> & Hr & Hacc)%validateActionRoutes_accepts.
      split_and!; [done| |].
      * rewrite Hr, Hroutes, bind_app. simpl.
        by rewrite app_nil_r, <-app_assoc.
      * intros Hnil. destruct (Hacc Hnil) as [Hx Hrouted].
        destruct (Hinv Hx) as [Hm Hseen]. split; [done|].
        intros ac' [Hin|Hin%list_elem_of_singleton]%elem_of_app;
          [by apply Hseen|by subst ac'].
Qed.

End WithEnv.

(** X7.  An action for which ActionDefinition.Validate returns nil has a
    name, at least one route and a parent resource; its responses all have
    a status, no two of them the same; and its parameters, when it has
    any, are an object given inline whose entries have a name and a type
    that is no object. *)
Theorem accepted_action_is_well_formed fuel a st st' :
  ActionDefinition_Validate fuel a st = Ok (None, st') →
  wellFormedAction (heap st) a.
Proof.
  intros Hrun. eapply ActionDefinition_Validate_accepts; [exact Hrun|].
  reflexivity.
Qed.

Lemma accepted_action_witness :
  wellFormedAction ∅ (widgetsAction "show" showRoute).
Proof.
  apply (accepted_action_is_well_formed 1 (widgetsAction "show" showRoute)
           (initial ∅) (initial ∅)).
  vm_compute. reflexivity.
Defined.

(** X8.  A resource for which ResourceDefinition.Validate returns nil has a
    name; its canonical action, when named, is one of its actions; its
    parent, when named, is a resource of the design that has a canonical
    action; its base parameters, when set, agree with the wildcards of its
    base path; its responses have a status; and each of its actions is
    well formed. *)
Theorem accepted_resource_is_well_formed env fuel Design r st st' :
  ResourceDefinition_Validate env fuel Design r st = Ok (None, st') →
  wellFormedResource env Design (heap st) r.
Proof.
  intros Hrun. eapply ResourceDefinition_Validate_accepts; [exact Hrun|].
  reflexivity.
Qed.

Lemma accepted_resource_witness :
  wellFormedResource noEnv (withResources [showResource]) ∅ showResource.
Proof.
  apply (accepted_resource_is_well_formed noEnv 1
           (withResources [showResource]) showResource (initial ∅) (initial ∅)).
  vm_compute. reflexivity.
Defined.

(** X9.  An API for which the top-level Validate returns nil is well
    formed: the contact, license and documentation URLs parse; every
    resource is well formed, the documentation URL of each of its actions
    parses and no route of an action reuses a wildcard of the base path;
    the routes of the API have no conflict; media types and user types have
    a name; responses have a status; and every encoding is well formed. *)
Theorem accepted_API_is_well_formed env fuel Design a st st' :
  APIDefinition_Validate env fuel Design a st = Ok (None, st') →
  wellFormedAPI env Design (heap st) a.
Proof.
  intros Hrun. eapply APIDefinition_Validate_accepts; [exact Hrun|].
  reflexivity.
Qed.

Lemma accepted_API_witness :
  wellFormedAPI noEnv (withResources [showResource]) ∅
    (withResources [showResource]).
Proof.
  apply (accepted_API_is_well_formed noEnv 1 (withResources [showResource])
           (withResources [showResource]) (initial ∅) (initial ∅)).
  vm_compute. reflexivity.
Defined.

(** ** Hashes, links and responses *)

Lemma underlying_HashT h k e : underlying h (HashT k e) = Ok (HashT k e).
Proof. unfold underlying. by destruct (size h). Qed.

(** X10.  The validation of an attribute whose type is a hash, directly or
    through named types, marks the attribute and returns nil without
    going on to the key and the element of the hash: what is wrong with
    them, a nil type included, is not reported. *)
Theorem hash_key_and_element_are_not_validated fuel p att t k e ctx parent st :
  heap st !! p = Some att → Type_ att = Some t →
  underlying (heap st) t = Ok (HashT k e) → p ∉ validated st →
  AttributeDefinition_Validate (S fuel) (Some p) ctx parent st
  = Ok (None, mark p st).
Proof.
  intros Hatt Ht Hu Hp. rewrite AttributeDefinition_Validate_S.
  rewrite bool_decide_false by done. cbv zeta.
  change (heap (mark p st)) with (heap st). rewrite Hatt, Ht.
  unfold bind, lift, ToObject, IsArray, ToArray. by rewrite Hu.
Qed.

Lemma hash_key_and_element_witness :
  AttributeDefinition_Validate 1 (Some 0) EmptyString DesignDef (initial hashHeap)
  = Ok (None, mark 0 (initial hashHeap)).
Proof.
  apply (hash_key_and_element_are_not_validated 0 0
           (plain (HashT (Some 1) (Some 2))) (HashT (Some 1) (Some 2))
           (Some 1) (Some 2)).
  - reflexivity.
  - reflexivity.
  - apply underlying_HashT.
  - simpl. set_solver.
Defined.

(** When LinkDefinition.Validate returns, the state is as it was, the
    diagnostic of the nil parent is not in the aggregate, and a nil
    aggregate means a link that is well formed. *)
Lemma LinkDefinition_Validate_returns l st e st' :
  LinkDefinition_Validate l st = Ok (e, st') →
  st' = st
  ∧ (∀ d, (d, LinkNoParent) ∉ default [] e)
  ∧ (default [] e = [] → wellFormedLink (heap st) l).
Proof.
  unfold LinkDefinition_Validate, wellFormedLink. cbv zeta.
  set (def := LinkDef (link_Name l)).
  set (verr0 := if bool_decide (link_Name l = EmptyString) then _ else _).
  revert e st'.
  intros e st'. unfold bind, getHeap, ret. simpl.
  destruct (link_Parent l) as [parent|] eqn:Hparent; [|done].
  rewrite (bool_decide_false (Some parent = None)) by done.
  unfold lift. destruct (ToObject (heap st) (UserTypeT parent)) as [o| |] eqn:Ho;
    [|done..].
  simpl.
  assert (∀ d, (d, LinkNoParent) ∉ verr0) as Hno0.
  { intros d. unfold verr0. case_bool_decide; [|apply not_elem_of_nil].
    unfold Add. simpl. by intros [=]%list_elem_of_singleton. }
  set (verr1 := if bool_decide (o = None) then _ else _).
  assert (∀ d, (d, LinkNoParent) ∉ verr1) as Hno1.
  { intros d. unfold verr1. case_bool_decide; [|done].
    unfold Add. intros [?|[=]%list_elem_of_singleton]%elem_of_app.
    by eapply Hno0. }
  assert (∀ msg, verr1 = [] → Add verr1 def msg ≠ []) as Hadd.
  { intros msg ->. done. }
  assert (verr1 = [] → link_Name l ≠ EmptyString ∧ ∃ o', o = Some o')
    as Hverr1.
  { unfold verr1, verr0. case_bool_decide as Ho'.
    - unfold Add. by intros [_ ?]%app_eq_nil.
    - case_bool_decide; [done|]. intros _. split; [done|].
      destruct o; [by eexists|done]. }
  assert (∀ msg d, msg ≠ LinkNoParent →
            (d, LinkNoParent) ∉ default [] (AsError (Add verr1 def msg)))
    as Hno2.
  { intros msg d Hmsg. rewrite AsError_default. unfold Add.
    intros [?|[=]%list_elem_of_singleton]%elem_of_app; [by eapply Hno1|done]. }
  destruct (lookupField (default [] o) (link_Name l)) as [att|] eqn:Hfield.
  - destruct (deref (heap st) att) as [a| |] eqn:Ha; simpl; [|done..].
    destruct (Type_ a) as [[| | | | |mediaType]|] eqn:Hta.
    all: try (intros [= <- <-]; split_and!; [done|intros d; by apply Hno2|];
           rewrite AsError_default; unfold Add; by intros [_ ?]%app_eq_nil).
    destruct (hasView (Views mediaType) (link_View l)) eqn:Hview.
    + intros [= <- <-]. rewrite AsError_default. split_and!; [done|done|].
      intros Hnil. destruct (Hverr1 Hnil) as [Hname [o' ->]].
      split; [done|]. exists parent, o', att, a, mediaType.
      split_and!; [done..|]. unfold hasView in Hview.
      by apply bool_decide_eq_true in Hview.
    + intros [= <- <-]. split_and!; [done|intros d; by apply Hno2|].
      rewrite AsError_default. unfold Add. by intros [_ ?]%app_eq_nil.
  - intros [= <- <-]. split_and!; [done|intros d; by apply Hno2|].
    rewrite AsError_default. unfold Add. by intros [_ ?]%app_eq_nil.
Qed.

(** X11.  LinkDefinition.Validate reads the object of the parent media type
    after it has noted that the parent is nil: for a link without parent
    it panics, so that "Link must have a parent media type" is in no
    aggregate that it returns.  It leaves the state alone, and returns nil
    only for a link that is well formed. *)
Theorem LinkDefinition_Validate_needs_parent l st :
  (link_Parent l = None → LinkDefinition_Validate l st = Panic)
  ∧ ∀ e st', LinkDefinition_Validate l st = Ok (e, st') →
      st' = st
      ∧ (∀ d, (d, LinkNoParent) ∉ default [] e)
      ∧ (default [] e = [] → wellFormedLink (heap st) l).
Proof.
  split.
  - intros Hnil. unfold LinkDefinition_Validate, bind, getHeap. simpl.
    by rewrite Hnil.
  - intros e st'. apply LinkDefinition_Validate_returns.
Qed.

Lemma LinkDefinition_Validate_witness :
  LinkDefinition_Validate ownerLink (initial linkHeap)
  = Ok (None, initial linkHeap)
  ∧ wellFormedLink linkHeap ownerLink.
Proof.
  assert (LinkDefinition_Validate ownerLink (initial linkHeap)
          = Ok (None, initial linkHeap)) as Hrun.
  { vm_compute. reflexivity. }
  split; [exact Hrun|].
  apply (proj2 (LinkDefinition_Validate_needs_parent ownerLink
                  (initial linkHeap)) None (initial linkHeap) Hrun).
  reflexivity.
Defined.

(** The validation of a response without status reports it. *)
Lemma ResponseDefinition_Validate_noStatus fuel resp st e st' :
  ResponseDefinition_Validate fuel resp st = Ok (e, st') →
  Status resp = 0 → noStatus resp ∈ default [] e.
Proof.
  unfold ResponseDefinition_Validate. cbv zeta.
  intros (verr & st1 & _ & [-> ->]%ret_Ok)%bind_Ok Hs.
  rewrite AsError_default, bool_decide_true by done. unfold Add.
  apply elem_of_app. right. by apply list_elem_of_singleton.
Qed.

(** A loop over the responses whose iterations keep what is in the
    aggregate and merge the result of the validation of the response
    reports every response without status. *)
Lemma responses_reported {K} (l : list (K * ResponseDefinition)) body
    (v : VErrs) st v' st' i resp :
  (∀ x w s w' s', body x w s = Ok (w', s') →
     (∀ d, d ∈ w → d ∈ w')
     ∧ (Status x.2 = 0 → noStatus x.2 ∈ w')) →
  range l body v st = Ok (v', st') →
  (i, resp) ∈ l → Status resp = 0 → noStatus resp ∈ v'.
Proof.
  intros Hbody Hrun Hin Hs. revert Hrun.
  refine (λ Hrun,
    let H := range_inv (λ seen w _, (i, resp) ∈ seen → noStatus resp ∈ w)
               _ _ _ _ _ _ _ _ Hrun in _).
  Unshelve.
  - by apply H.
  - by intros ?%elem_of_nil.
  - clear -Hbody Hs. intros seen x w s w' s' Hinv Hrun.
    destruct (Hbody _ _ _ _ _ Hrun) as [Hmono Hnew].
    intros [Hin|Hin%list_elem_of_singleton]%elem_of_app.
    + by apply Hmono, Hinv.
    + subst x. by apply Hnew.
Qed.

(** X12.  ValidateParams validates the responses of the action, which
    ActionDefinition.Validate has validated already: for an action with
    parameters, a response without status is reported twice. *)
Theorem response_without_status_is_reported_twice fuel a st e st' i resp :
  ActionDefinition_Validate fuel a st = Ok (e, st') →
  act_Params a ≠ None → (i, resp) ∈ act_Responses a → Status resp = 0 →
  [noStatus resp; noStatus resp] `sublist_of` default [] e.
Proof.
  unfold ActionDefinition_Validate. cbv zeta.
  intros (verr2 & st1 & Hresp & Hrun)%bind_Ok Hparams Hin Hs.
  apply bind_Ok in Hrun as (e1 & st2 & Hvp & Hrun).
  apply bind_Ok in Hrun as (verr4 & st3 & Hpayload & [-> ->]%ret_Ok).
  rewrite AsError_default.
  assert (noStatus resp ∈ verr2) as H1.
  { eapply (responses_reported _ _ _ _ _ _ i resp); [|exact Hresp|done..].
    clear. intros [j r] w s w' s'.
    intros (e & s1 & Hcall & [-> ->]%ret_Ok)%bind_Ok.
    destruct (duplicateStatus_fold j r (act_Responses a) w) as (new & -> & _).
    rewrite Merge_app. split.
    - intros d Hd. apply elem_of_app. left. apply elem_of_app. by left.
    - intros Hs. apply elem_of_app. right.
      by eapply ResponseDefinition_Validate_noStatus. }
  assert (noStatus resp ∈ default [] e1) as H2.
  { unfold ValidateParams in Hvp.
    destruct (act_Params a) as [p|]; [|done].
    apply bind_Ok in Hvp as (h & s1 & _ & Hvp).
    apply bind_Ok in Hvp as (patt & s2 & _ & Hvp).
    destruct (match Type_ patt with
              | Some (ObjectT o) => (o, [])
              | _ => ([], Add [] (ActionDef (act_Name a)) ParamsNotObject)
              end) as [params verr] eqn:Hmatch.
    assert (∃ w s3 s4,
              range (act_Responses a)
                (λ '(_, resp) verr,
                   e <~ ResponseDefinition_Validate fuel resp ;;
                   ret (Merge verr e)) w s3 = Ok (default [] e1, s4))
      as (w & s3 & s4 & Hloop).
    { destruct (Type_ patt) as [[| |o| | |]|]; injection Hmatch as <- <-;
        apply bind_Ok in Hvp as (w1 & s3 & _ & Hvp);
        apply bind_Ok in Hvp as (w2 & s4 & Hloop & [-> ->]%ret_Ok);
        rewrite AsError_default; eauto. }
    eapply (responses_reported _ _ _ _ _ _ i resp); [|exact Hloop|done..].
    clear. intros [j r] w s w' s'.
    intros (e & s1 & Hcall & [-> ->]%ret_Ok)%bind_Ok.
    rewrite Merge_app. split.
    - intros d Hd. apply elem_of_app. by left.
    - intros Hs. apply elem_of_app. right.
      by eapply ResponseDefinition_Validate_noStatus. }
  assert (∃ rest, verr4 = verr2 ++ default [] e1 ++ rest) as [rest ->].
  { destruct (Payload a).
    - apply bind_Ok in Hpayload as (e2 & s & _ & [-> _]%ret_Ok).
      rewrite !Merge_app, <-app_assoc. by eexists.
    - apply ret_Ok in Hpayload as [-> _]. rewrite Merge_app.
      exists []. by rewrite app_nil_r. }
  apply list_elem_of_split in H1 as (l1 & l2 & ->).
  apply list_elem_of_split in H2 as (l3 & l4 & ->).
  set (tail := if bool_decide (act_Parent a = None) then _ else _).
  assert (∃ k, tail = (l1 ++ noStatus resp :: l2)
                       ++ (l3 ++ noStatus resp :: l4) ++ k) as [k ->].
  { unfold tail. destruct (bool_decide (act_Parent a = None)).
    - unfold Add. eexists (rest ++ [_]). by rewrite <-!app_assoc.
    - by exists rest. }
  change [noStatus resp; noStatus resp]
    with ([noStatus resp] ++ [noStatus resp]).
  apply sublist_app; [by apply sublist_inserts_l, sublist_skip, sublist_nil_l|].
  apply sublist_inserts_r.
  by apply sublist_inserts_l, sublist_skip, sublist_nil_l.
Qed.

Lemma response_without_status_witness :
  ∃ e st',
    ActionDefinition_Validate 1 noStatusAction (initial paramsHeap)
    = Ok (e, st')
    ∧ [noStatus noStatusResponse; noStatus noStatusResponse]
      `sublist_of` default [] e.
Proof.
  eexists _, _. split; [vm_compute; reflexivity|].
  eapply (response_without_status_is_reported_twice 1 noStatusAction
            (initial paramsHeap) _ _ "OK" noStatusResponse).
  - vm_compute. reflexivity.
  - discriminate.
  - apply list_elem_of_here.
  - reflexivity.
Defined.

(** ** What validation writes to the heap *)

Lemma stringified_refl P h : stringified P h h.
Proof. intros p. by left. Qed.

Lemma stringified_trans P h1 h2 h3 :
  stringified P h1 h2 → stringified P h2 h3 → stringified P h1 h3.
Proof.
  intros H12 H23 p. destruct (H12 p) as [Heq|(HP & att & H1 & Ht & H2)].
  - destruct (H23 p) as [Heq'|(HP & att & H2 & Ht & H3)].
    + left. congruence.
    + right. split; [done|]. exists att. rewrite <-Heq. done.
  - destruct (H23 p) as [Heq'|(_ & att' & H2' & Ht' & _)].
    + right. split; [done|]. exists att. rewrite Heq'. done.
    + rewrite H2 in H2'. injection H2' as <-. done.
Qed.

Lemma stringified_weaken (P Q : nat → Prop) h h' :
  (∀ p, P p → Q p) → stringified P h h' → stringified Q h h'.
Proof.
  intros HPQ H p. destruct (H p) as [?|[HP ?]]; [by left|right].
  split; [by apply HPQ|done].
Qed.

(** The validation of a media type writes to the heap at most the type
    String, in the place of the nil type of the media type. *)
Lemma MediaTypeDefinition_Validate_frame fuel m st e st' :
  MediaTypeDefinition_Validate fuel m st = Ok (e, st') →
  stringified
    (λ p, ut_AttributeDefinition (mt_UserTypeDefinition m) = Some p)
    (heap st) (heap st').
Proof.
  unfold MediaTypeDefinition_Validate. cbv zeta.
  intros (e1 & st1 & He & H)%bind_Ok.
  pose proof (UserTypeDefinition_Validate_keepsHeap _ _ _ _ _ _ _ He) as Hh1.
  apply bind_Ok in H as (h & ? & [-> ->]%getHeap_Ok & H).
  apply bind_Ok in H as (att & ? & [Hd ->]%lift_Ok & H).
  apply bind_Ok in H as ([] & st2 & Hset & H).
  assert (heap st' = heap st2) as ->.
  { match type of H with
    | ?c _ = _ => assert (keepsHeap c) as Hk by (repeat keepsHeap_step)
    end.
    by rewrite (Hk _ _ _ H). }
  rewrite <-Hh1. clear H He Hh1.
  destruct (ut_AttributeDefinition (mt_UserTypeDefinition m)) as [p|] eqn:Hself;
    [|done].
  destruct (Type_ att) eqn:Ht.
  { apply ret_Ok in Hset as [_ ->]. apply stringified_refl. }
  unfold setType in Hset. simpl in Hd.
  destruct (heap st1 !! p) as [att'|] eqn:Hp; [|done].
  injection Hd as ->. injection Hset as <-. simpl.
  intros q. destruct (decide (q = p)) as [->|Hne].
  - right. split; [done|]. exists att. by rewrite lookup_insert_eq.
  - left. by rewrite lookup_insert_ne.
Qed.

(** The top-level validation writes to the heap at most the type String,
    in the place of the nil type of media types of the API. *)
Lemma APIDefinition_Validate_frame env fuel Design a st e st' :
  APIDefinition_Validate env fuel Design a st = Ok (e, st') →
  stringified (mediaTypeOf a) (heap st) (heap st').
Proof.
  intros Hrun.
  revert Hrun. unfold APIDefinition_Validate. cbv zeta.
  intros (verr0 & st0 & Hbase & Hrun)%bind_Ok.
  apply bind_Ok in Hrun as ([verrR allRoutes] & st1 & Hres & Hrun).
  apply bind_Ok in Hrun as (conflicts & st2 & [Hconf ->]%lift_Ok & Hrun).
  apply bind_Ok in Hrun as (verrM & st3 & Hmedia & Hrun).
  assert (heap st' = heap st3) as ->.
  { match type of Hrun with
    | ?c _ = _ => assert (keepsHeap c) as Hk by (repeat keepsHeap_step)
    end.
    by rewrite (Hk _ _ _ Hrun). }
  assert (heap st1 = heap st) as Hh1.
  { transitivity (heap st0).
    - match type of Hres with
      | ?c _ = _ => assert (keepsHeap c) as Hk by (repeat keepsHeap_step)
      end.
      by rewrite (Hk _ _ _ Hres).
    - match type of Hbase with
      | ?c _ = _ => assert (keepsHeap c) as Hk by (repeat keepsHeap_step)
      end.
      by rewrite (Hk _ _ _ Hbase). }
  rewrite <-Hh1. clear Hbase Hres Hconf Hrun Hh1.
  apply (range_inv (λ seen _ s,
           stringified
             (λ p, ∃ m, m ∈ seen
                ∧ ut_AttributeDefinition (mt_UserTypeDefinition m) = Some p)
             (heap st1) (heap s))) in Hmedia.
  - eapply stringified_weaken; [|exact Hmedia]. intros p (m & Hm & Hp).
    by exists m.
  - apply stringified_refl.
  - clear. intros seen m w s w' s' Hinv.
    intros (e & s1 & Hcall & [_ ->]%ret_Ok)%bind_Ok.
    apply MediaTypeDefinition_Validate_frame in Hcall.
    eapply stringified_trans.
    + eapply stringified_weaken; [|exact Hinv]. intros p (m' & Hm & Hp).
      exists m'. split; [|done]. apply elem_of_app. by left.
    + eapply stringified_weaken; [|exact Hcall]. intros p Hp.
      exists m. split; [|done]. apply elem_of_app. right.
      by apply list_elem_of_singleton.
Qed.

(** X13.  The only writes of the top-level Validate to the definitions are
    those of MediaTypeDefinition.Validate: when it returns, every
    attribute is as it was, except that the nil type of a media type of
    the API may have become String.  An API without media types is
    validated without any change to it. *)
Theorem Validate_writes_only_nil_media_types env fuel Design a st e st' :
  APIDefinition_Validate env fuel Design a st = Ok (e, st') →
  stringified (mediaTypeOf a) (heap st) (heap st')
  ∧ (MediaTypes a = [] → heap st' = heap st).
Proof.
  intros Hrun.
  pose proof (APIDefinition_Validate_frame _ _ _ _ _ _ _ Hrun) as Hframe.
  split; [exact Hframe|]. intros Hnil. apply map_eq. intros p.
  destruct (Hframe p) as [?|[(m & Hm & _) _]]; [done|].
  rewrite Hnil in Hm. by apply elem_of_nil in Hm.
Qed.

Lemma Validate_writes_witness :
  APIDefinition_Validate noEnv 1 (withMediaTypes [bottleMedia])
    (withMediaTypes [bottleMedia]) (initial bottleHeap)
  = Ok (Some [nilTypeOf bottleMedia;
              (MediaTypeDef "application/vnd.bottle", NoDefaultView)],
        afterBottlePass)
  ∧ stringified (mediaTypeOf (withMediaTypes [bottleMedia]))
      bottleHeap (heap afterBottlePass).
Proof.
  assert (APIDefinition_Validate noEnv 1 (withMediaTypes [bottleMedia])
            (withMediaTypes [bottleMedia]) (initial bottleHeap)
          = Ok (Some [nilTypeOf bottleMedia;
                      (MediaTypeDef "application/vnd.bottle", NoDefaultView)],
                afterBottlePass)) as Hrun.
  { vm_compute. reflexivity. }
  split; [exact Hrun|].
  apply (proj1 (Validate_writes_only_nil_media_types noEnv 1
                  (withMediaTypes [bottleMedia])
                  (withMediaTypes [bottleMedia]) (initial bottleHeap) _ _
                  Hrun)).
Defined.

(** ** Validation of media types: what a nil result guarantees *)

(** The attribute validation returns nil or an aggregate that is not
    empty. *)
Lemma AttributeDefinition_Validate_nonempty fuel a ctx parent st e st' :
  AttributeDefinition_Validate fuel a ctx parent st = Ok (e, st') →
  e ≠ Some [].
Proof.
  destruct fuel as [|fuel]; [done|]. destruct a as [p|]; [|done].
  rewrite AttributeDefinition_Validate_S.
  case_bool_decide; [by intros [= <- _]|]. cbv zeta.
  destruct (heap (mark p st) !! p) as [att|]; [|done].
  destruct (Type_ att) as [t|]; [|by intros [= <- _]].
  assert (∀ v : VErrs, AsError v ≠ Some []) as HAs by (by intros []).
  intros (o & s1 & _ & Hrun)%bind_Ok. destruct o as [o|].
  - by apply bind_Ok in Hrun as (v & s2 & _ & [-> _]%ret_Ok).
  - apply bind_Ok in Hrun as ([] & s2 & _ & Hrun).
    + apply bind_Ok in Hrun as ([c|] & s3 & _ & Hrun).
      * by apply bind_Ok in Hrun as (r & s4 & _ & [-> _]%ret_Ok).
      * by apply lift_Ok in Hrun as [? _].
    + by apply ret_Ok in Hrun as [-> _].
Qed.

Lemma ViewDefinition_Validate_accepts fuel v st e st' :
  ViewDefinition_Validate fuel v st = Ok (e, st') →
  default [] e = [] → view_Parent v ≠ None.
Proof.
  unfold ViewDefinition_Validate. cbv zeta.
  intros (e1 & st1 & _ & [-> ->]%ret_Ok)%bind_Ok.
  rewrite AsError_default, Merge_app. intros [Hv _]%app_eq_nil Hn.
  by rewrite bool_decide_true in Hv.
Qed.

(** An iteration of the loop over the attributes of a media type that
    leaves the aggregate empty found it empty, and an attribute whose view,
    if it names one, exists. *)
Lemma mediaTypeAttribute_accepts fuel def n att (v : VErrs) st v' st' :
  mediaTypeAttribute fuel def (n, att) v st = Ok (v', st') →
  v' = [] →
  v = []
  ∧ ∃ a, deref (heap st) att = Ok a
      ∧ (View a ≠ EmptyString →
         ∃ cmt, Type_ a = Some (MediaTypeT cmt) ∧ View a ∈ (Views cmt).*1).
Proof.
  unfold mediaTypeAttribute. cbv zeta.
  intros (e & st1 & Hcall & Hrun)%bind_Ok.
  pose proof (AttributeDefinition_Validate_keepsHeap _ _ _ _ _ _ _ Hcall) as Hh.
  apply bind_Ok in Hrun as (h & ? & [-> ->]%getHeap_Ok & Hrun).
  apply bind_Ok in Hrun as (a & ? & [Ha ->]%lift_Ok & Hrun).
  rewrite Hh in Ha. clear Hcall.
  destruct (decide (View a = EmptyString)) as [Hview|Hview].
  - rewrite bool_decide_true in Hrun by done.
    apply ret_Ok in Hrun as [-> _]. rewrite Merge_app.
    intros [-> _]%app_eq_nil. split; [done|]. by exists a.
  - rewrite bool_decide_false in Hrun by done.
    destruct (Type_ a) as [[| | | | |cmt]|] eqn:Ht;
      try (by apply lift_Ok in Hrun as [? _]).
    destruct (hasView (Views cmt) (View a)) eqn:Hhas.
    + apply ret_Ok in Hrun as [-> _]. rewrite Merge_app.
      intros [-> _]%app_eq_nil. split; [done|]. exists a. split; [done|].
      intros _. exists cmt. split; [done|].
      by apply bool_decide_eq_true in Hhas.
    + apply ret_Ok in Hrun as [-> _]. unfold Add. by intros [_ ?]%app_eq_nil.
Qed.

(** The end of the validation of a media type that is no array: the loop
    over the views, then the check of the view "default". *)
Lemma views_accepted fuel (m : MediaTypeDefinition) def (v : VErrs) st r st' :
  (verr <~ range (Views m) (λ '(_, v) verr,
             e <~ ViewDefinition_Validate fuel v ;;
             ret (Merge verr e)) v ;;
   ret (if hasView (Views m) "default" then verr
        else Add verr def NoDefaultView)) st = Ok (r, st') →
  r = [] →
  v = [] ∧ "default" ∈ (Views m).*1
  ∧ ∀ n w, (n, w) ∈ Views m → view_Parent w ≠ None.
Proof.
  intros (w & s & Hr & [-> ->]%ret_Ok)%bind_Ok Hnil.
  assert (w = [] ∧ "default" ∈ (Views m).*1) as [-> Hdefault].
  { destruct (hasView (Views m) "default") eqn:Hhas.
    - split; [done|]. by apply bool_decide_eq_true in Hhas.
    - unfold Add in Hnil. by apply app_eq_nil in Hnil as [_ ?]. }
  apply (range_Merge_accepts_any (λ x, view_Parent x.2 ≠ None)
           (λ x, ViewDefinition_Validate fuel x.2)) in Hr.
  - destruct Hr as [-> Hall]. split_and!; [done..|].
    intros n w Hin. by apply (Hall (n, w)).
  - by intros [] ?.
  - intros [n w] s1 e s2. apply ViewDefinition_Validate_accepts.
  - done.
Qed.

(** A media type that its validation accepts is well formed, in the heap
    that the validation leaves. *)
Lemma MediaTypeDefinition_Validate_accepts fuel m st e st' :
  MediaTypeDefinition_Validate fuel m st = Ok (e, st') →
  default [] e = [] → wellFormedMediaType (heap st') m.
Proof.
  intros Hrun Hacc.
  pose proof (MediaTypeDefinition_Validate_accepts_named _ _ _ _ _ Hrun Hacc)
    as Hnamed.
  revert Hrun. unfold MediaTypeDefinition_Validate. cbv zeta.
  set (def := MediaTypeDef (Identifier m)).
  set (self := ut_AttributeDefinition (mt_UserTypeDefinition m)).
  intros (e1 & st1 & He & H)%bind_Ok.
  apply bind_Ok in H as (h & ? & [-> ->]%getHeap_Ok & H).
  apply bind_Ok in H as (att & ? & [Hd ->]%lift_Ok & H).
  apply bind_Ok in H as ([] & st2 & Hset & H).
  apply bind_Ok in H as (h & ? & [-> ->]%getHeap_Ok & H).
  apply bind_Ok in H as (t & ? & [Ht ->]%lift_Ok & H).
  apply bind_Ok in H as (a & ? & [Ha ->]%lift_Ok & H).
  apply bind_Ok in H as ([verr1 obj] & st3 & Hvo & H).
  apply bind_Ok in H as (verr2 & st4 & Hattrs & H).
  apply bind_Ok in H as (h & ? & [-> ->]%getHeap_Ok & H).
  apply bind_Ok in H as (t' & ? & [Ht' ->]%lift_Ok & H).
  apply bind_Ok in H as (isArray & ? & [HisArray ->]%lift_Ok & H).
  apply bind_Ok in H as (verr3 & st5 & Hviews & H).
  apply bind_Ok in H as (verr4 & st6 & Hlinks & [-> ->]%ret_Ok).
  rewrite AsError_default in Hacc. subst verr4.
  (* the heap does not change after the type has been set *)
  assert (heap st3 = heap st2) as Hh3.
  { match type of Hvo with
    | ?c _ = _ => assert (keepsHeap c) as Hk by (repeat keepsHeap_step)
    end.
    by rewrite (Hk _ _ _ Hvo). }
  assert (heap st4 = heap st2) as Hh4.
  { rewrite <-Hh3.
    match type of Hattrs with
    | ?c _ = _ => assert (keepsHeap c) as Hk by (repeat keepsHeap_step)
    end.
    by rewrite (Hk _ _ _ Hattrs). }
  assert (heap st5 = heap st2) as Hh5.
  { rewrite <-Hh4.
    match type of Hviews with
    | ?c _ = _ => assert (keepsHeap c) as Hk by (repeat keepsHeap_step)
    end.
    by rewrite (Hk _ _ _ Hviews). }
  (* the links *)
  apply (range_inv (λ seen w s,
           s = st5
           ∧ (w = [] → verr3 = []
              ∧ ∀ n l, (n, l) ∈ seen → wellFormedLink (heap st5) l)))
    in Hlinks; cycle 1.
  { split; [done|]. intros ->. split; [done|]. by intros ?? ?%elem_of_nil. }
  { clear. intros seen [n l] w s w' s' [-> Hinv].
    intros (e & s1 & Hcall & [-> ->]%ret_Ok)%bind_Ok.
    apply LinkDefinition_Validate_returns in Hcall as (-> & _ & Hwf).
    split; [done|]. rewrite Merge_app. intros [Hw He]%app_eq_nil.
    destruct (Hinv Hw) as [-> Hseen]. split; [done|].
    intros n' l' [Hin|Hin%list_elem_of_singleton]%elem_of_app.
    - by eapply Hseen.
    - injection Hin as -> ->. by apply Hwf. }
  destruct Hlinks as [-> Hlinks]. destruct (Hlinks eq_refl) as [-> Hwfl].
  clear Hlinks. rewrite Hh5 in Hwfl |- *.
  rewrite Hh4 in Ht', HisArray.
  assert (t' = t) as -> by congruence.
  assert (isArray = bool_decide (is_Some a)) as ->.
  { unfold IsArray in HisArray. rewrite Ha in HisArray. simpl in HisArray.
    congruence. }
  split_and!; [done|done|]. exists t. split; [done|].
  (* the attributes *)
  assert (verr1 = []
          ∧ ∀ o, obj = Some o → viewsResolve (heap st2) o) as [-> Hresolve].
  { destruct obj as [o|].
    - apply (range_inv (λ seen w s,
               heap s = heap st2
               ∧ (w = [] → verr1 = []
                  ∧ ∀ n c, (n, c) ∈ seen →
                      ∃ a, deref (heap st2) c = Ok a
                        ∧ (View a ≠ EmptyString →
                           ∃ cmt, Type_ a = Some (MediaTypeT cmt)
                                  ∧ View a ∈ (Views cmt).*1))))
        in Hattrs.
      + destruct Hattrs as [_ Hattrs].
        assert (verr2 = []) as ->.
        { destruct (bool_decide (is_Some a)).
          - by apply ret_Ok in Hviews as [-> _].
          - by apply views_accepted in Hviews as [? _]. }
        destruct (Hattrs eq_refl) as [-> Hall]. split; [done|].
        intros o' [= <-]. exact Hall.
      + split; [done|]. intros ->. split; [done|]. by intros ?? ?%elem_of_nil.
      + clear. intros seen [n c] w s w' s' [Hh Hinv] Hbody. split.
        * rewrite <-Hh. by eapply mediaTypeAttribute_keepsHeap.
        * intros Hw'.
          destruct (mediaTypeAttribute_accepts _ _ _ _ _ _ _ _ Hbody Hw')
            as (-> & Hc). rewrite Hh in Hc.
          destruct (Hinv eq_refl) as [-> Hseen]. split; [done|].
          intros n' c' [Hin|Hin%list_elem_of_singleton]%elem_of_app.
          -- by eapply Hseen.
          -- by injection Hin as -> ->.
    - apply ret_Ok in Hattrs as [-> _]. split; [|done].
      destruct (bool_decide (is_Some a)).
      + by apply ret_Ok in Hviews as [-> _].
      + by apply views_accepted in Hviews as [? _]. }
  destruct a as [[elem|]|].
  - (* an array *)
    right. apply bind_Ok in Hvo as (err & s & Hcall & Hvo).
    pose proof (AttributeDefinition_Validate_keepsHeap _ _ _ _ _ _ _ Hcall)
      as Hhs.
    pose proof (AttributeDefinition_Validate_nonempty _ _ _ _ _ _ _ Hcall)
      as Hne.
    destruct err as [err|].
    { apply ret_Ok in Hvo as [[= Hv _] _]. rewrite Merge_app in Hv.
      symmetry in Hv. apply app_eq_nil in Hv as [_ Hv]. simpl in Hv.
      by subst err. }
    apply bind_Ok in Hvo as (h & ? & [-> ->]%getHeap_Ok & Hvo).
    apply bind_Ok in Hvo as (eatt & ? & [Heatt ->]%lift_Ok & Hvo).
    rewrite Hhs in Heatt, Hvo. simpl in Heatt.
    destruct (heap st2 !! elem) as [eatt'|] eqn:Helem; [|done].
    injection Heatt as ->.
    destruct (Type_ eatt) as [[| | | | |em]|] eqn:Hte;
      try (apply bind_Ok in Hvo as (name & ? & _ & [[= Hv _] _]%ret_Ok);
           unfold Add in Hv; symmetry in Hv;
           by apply app_eq_nil in Hv as [_ ?]);
      [|by apply lift_Ok in Hvo as [? _]].
    apply bind_Ok in Hvo as (o & ? & [Ho ->]%lift_Ok & [[= _ <-] _]%ret_Ok).
    exists elem, eatt, em. split_and!; [done..|].
    intros o' Ho'. apply Hresolve. congruence.
  - (* an array whose element type is nil *)
    apply ret_Ok in Hvo as [[= Hv _] _]. unfold Add in Hv. symmetry in Hv.
    by apply app_eq_nil in Hv as [_ ?].
  - (* no array *)
    left. apply bind_Ok in Hvo as (o & ? & [Ho ->]%lift_Ok & [[= _ <-] _]%ret_Ok).
    rewrite bool_decide_false in Hviews by (by intros [? ?]).
    apply views_accepted in Hviews as (_ & Hdefault & Hparents); [|done].
    split_and!; [done..|].
    intros o' Ho'. apply Hresolve. congruence.
Qed.

(** X14.  A media type for which MediaTypeDefinition.Validate returns nil is
    well formed in the definitions as the validation leaves them: it has a
    name and well-formed links; when its type is no array it defines the
    view "default", its views have a parent, and every view that an
    attribute of its object names exists on the media type of that
    attribute; when its type is an array, the elements are of a media
    type, about whose attributes the same holds. *)
Theorem accepted_media_type_is_well_formed fuel m st st' :
  MediaTypeDefinition_Validate fuel m st = Ok (None, st') →
  wellFormedMediaType (heap st') m.
Proof.
  intros Hrun. eapply MediaTypeDefinition_Validate_accepts; [exact Hrun|].
  reflexivity.
Qed.

Lemma accepted_media_type_witness :
  wellFormedMediaType accountMediaHeap accountMedia.
Proof.
  apply (accepted_media_type_is_well_formed 3 accountMedia
           (initial accountMediaHeap)
           {| heap := accountMediaHeap; validated := {[0; 1]};
              visits := [0; 1] |}).
  vm_compute. reflexivity.
Defined.

(** ** What a pass validates *)

(** *** The attribute graph when nil types become String *)

Lemma stringified_typed P h h' p att t :
  stringified P h h' → h !! p = Some att → Type_ att = Some t →
  h' !! p = Some att.
Proof.
  intros H Hp Ht. destruct (H p) as [->|(_ & att' & Hp' & Ht' & _)]; [done|].
  congruence.
Qed.

Lemma stringified_typed_inv P h h' p att t :
  stringified P h h' → h' !! p = Some att → Type_ att = Some t →
  h !! p = Some att ∨ t = String_.
Proof.
  intros H Hp Ht. destruct (H p) as [<-|(_ & att' & Hp' & Ht' & Hp'')];
    [by left|].
  right. rewrite Hp in Hp''. injection Hp'' as ->. simpl in Ht. congruence.
Qed.

Lemma stringified_size P h h' : stringified P h h' → size h' = size h.
Proof.
  intros H. rewrite <-!size_dom. f_equal. apply set_eq. intros p.
  rewrite !elem_of_dom.
  destruct (H p) as [->|(_ & att & -> & _ & ->)]; [done|].
  split; by eexists.
Qed.

Lemma typeOf_stringified P h h' a t :
  stringified P h h' → typeOf h a = Ok t → typeOf h' a = Ok t.
Proof.
  intros H. unfold typeOf. destruct a as [p|]; [|done]. simpl.
  destruct (h !! p) as [att|] eqn:Hp; [|done]. simpl.
  destruct (Type_ att) as [t'|] eqn:Ht; [|done]. intros [= ->].
  rewrite (stringified_typed _ _ _ _ _ _ H Hp Ht). simpl. by rewrite Ht.
Qed.

Lemma typeOf_stringified_inv P h h' a t :
  stringified P h h' → typeOf h' a = Ok t →
  typeOf h a = Ok t ∨ t = String_.
Proof.
  intros H. unfold typeOf. destruct a as [p|]; [|done]. simpl.
  destruct (h' !! p) as [att|] eqn:Hp; [|done]. simpl.
  destruct (Type_ att) as [t'|] eqn:Ht; [|done]. intros [= ->].
  destruct (stringified_typed_inv _ _ _ _ _ _ H Hp Ht) as [Hp'| ->];
    [|by right].
  left. rewrite Hp'. simpl. by rewrite Ht.
Qed.

Lemma unwrap_stringified P h h' fuel t t' :
  stringified P h h' → unwrap fuel h t = Ok t' → unwrap fuel h' t = Ok t'.
Proof.
  intros H. revert t. induction fuel as [|fuel IH]; intros t;
    destruct t; simpl; try done.
  - intros (t0 & Ht0 & Hrest)%rbind_Ok.
    rewrite (typeOf_stringified _ _ _ _ _ H Ht0). by apply IH.
  - intros (t0 & Ht0 & Hrest)%rbind_Ok.
    rewrite (typeOf_stringified _ _ _ _ _ H Ht0). by apply IH.
Qed.

Lemma unwrap_String fuel h : unwrap fuel h String_ = Ok String_.
Proof. by destruct fuel. Qed.

Lemma unwrap_stringified_inv P h h' fuel t t' :
  stringified P h h' → unwrap fuel h' t = Ok t' → t' ≠ String_ →
  unwrap fuel h t = Ok t'.
Proof.
  intros H. revert t. induction fuel as [|fuel IH]; intros t;
    destruct t; simpl; try done.
  - intros (t0 & Ht0 & Hrest)%rbind_Ok Hne.
    destruct (typeOf_stringified_inv _ _ _ _ _ H Ht0) as [->| ->].
    + by apply IH.
    + rewrite unwrap_String in Hrest. congruence.
  - intros (t0 & Ht0 & Hrest)%rbind_Ok Hne.
    destruct (typeOf_stringified_inv _ _ _ _ _ H Ht0) as [->| ->].
    + by apply IH.
    + rewrite unwrap_String in Hrest. congruence.
Qed.

Lemma underlying_stringified P h h' t t' :
  stringified P h h' → underlying h t = Ok t' → underlying h' t = Ok t'.
Proof.
  intros H. unfold underlying. rewrite (stringified_size _ _ _ H).
  by apply (unwrap_stringified P).
Qed.

Lemma underlying_stringified_inv P h h' t t' :
  stringified P h h' → underlying h' t = Ok t' → t' ≠ String_ →
  underlying h t = Ok t'.
Proof.
  intros H. unfold underlying. rewrite (stringified_size _ _ _ H).
  by apply (unwrap_stringified_inv P).
Qed.

(** The shape of a type that is an object or an array. *)
Lemma ToObject_Some h t o :
  ToObject h t = Ok (Some o) ↔ underlying h t = Ok (ObjectT o).
Proof.
  unfold ToObject. split.
  - intros (t' & -> & Ht')%rbind_Ok. by destruct t'; simplify_eq.
  - by intros ->.
Qed.

Lemma ToArray_Some h t e :
  ToArray h t = Ok (Some e) ↔ underlying h t = Ok (ArrayT e).
Proof.
  unfold ToArray. split.
  - intros (t' & -> & Ht')%rbind_Ok. by destruct t'; simplify_eq.
  - by intros ->.
Qed.

Lemma child_iff h q c :
  child h q c
  ↔ ∃ att t, h !! q = Some att ∧ Type_ att = Some t
      ∧ ((∃ o n, underlying h t = Ok (ObjectT o) ∧ (n, Some c) ∈ o)
         ∨ underlying h t = Ok (ArrayT (Some c))).
Proof.
  split.
  - intros [att t o n f H1 H2 H3 H4|att t e H1 H2 H3 H4];
      exists att, t; (split_and!; [done..|]).
    + left. exists o, n. by rewrite <-ToObject_Some.
    + right. by rewrite <-ToArray_Some.
  - intros (att & t & H1 & H2 & [(o & n & H3 & H4)|H3]).
    + eapply child_field; [done..| |done]. by rewrite ToObject_Some.
    + eapply child_elem; [done..| |by rewrite ToArray_Some].
      unfold ToObject. by rewrite H3.
Qed.

(** The attributes an attribute leads to are the same before and after. *)
Lemma child_stringified P h h' q c :
  stringified P h h' → child h q c ↔ child h' q c.
Proof.
  intros H. rewrite !child_iff. split.
  - intros (att & t & H1 & H2 & H3). exists att, t.
    split_and!; [by eapply stringified_typed|done|].
    destruct H3 as [(o & n & H3 & H4)|H3].
    + left. exists o, n. split; [|done]. by eapply underlying_stringified.
    + right. by eapply underlying_stringified.
  - intros (att & t & H1 & H2 & H3).
    assert (∃ t', underlying h' t = Ok t' ∧ t' ≠ String_) as (t' & Ht' & Hne).
    { destruct H3 as [(o & n & H3 & _)|H3]; by eexists. }
    destruct (stringified_typed_inv _ _ _ _ _ _ H H1 H2) as [H1'| ->].
    + exists att, t. split_and!; [done..|].
      destruct H3 as [(o & n & H3 & H4)|H3].
      * left. exists o, n. split; [|done].
        by eapply underlying_stringified_inv.
      * right. by eapply underlying_stringified_inv.
    + unfold underlying in Ht'. rewrite unwrap_String in Ht'. congruence.
Qed.


Lemma closed_stringified P st st' :
  stringified P (heap st) (heap st') → validated st' = validated st →
  closed st → closed st'.
Proof.
  intros H Hv Hcl p c Hp Hc. rewrite Hv in *.
  apply (Hcl p c Hp). by apply (child_stringified _ _ _ _ _ H).
Qed.


(** *** Relations that every step of a validation respects *)

Create HintDb respects.

Section Respects.
Context (T : State → State → Prop) `{!PreOrder T}.

Lemma respects_ret {A} (a : A) : respects T (ret a).
Proof. by intros st b st' [_ ->]%ret_Ok. Qed.

Lemma respects_lift {A} (r : result A) : respects T (lift r).
Proof. by intros st b st' [_ ->]%lift_Ok. Qed.

Lemma respects_getHeap : respects T getHeap.
Proof. by intros st b st' [_ ->]%getHeap_Ok. Qed.

Lemma respects_bind {A B} (m : M A) (k : A → M B) :
  respects T m → (∀ a, respects T (k a)) → respects T (bind m k).
Proof.
  intros Hm Hk st b st'' (a & st' & H1 & H2)%bind_Ok.
  etrans; [by eapply Hm|by eapply Hk].
Qed.

Lemma respects_range {A V} (l : list A) (body : A → V → M V) (v : V) :
  (∀ x v, respects T (body x v)) → respects T (range l body v).
Proof.
  intros Hbody. revert v. induction l as [|x l IH]; intros v; simpl.
  - apply respects_ret.
  - apply respects_bind; [apply Hbody|apply IH].
Qed.

End Respects.

Ltac respects_step :=
  first
    [ solve [auto with respects]
    | progress cbv zeta
    | apply respects_ret; solve [tc_solve]
    | apply respects_getHeap; solve [tc_solve]
    | apply respects_lift; solve [tc_solve]
    | apply respects_bind; [tc_solve| |intros ?]
    | apply respects_range; [tc_solve|intros ? ?]
    | match goal with
      | |- respects _ (match ?x with _ => _ end) => destruct x
      | |- respects _ (let '(_, _) := ?x in _) => destruct x
      | |- respects _ ((let '(_, _) := ?x in _) _) => destruct x
      end
    | progress unfold ResponseDefinition_Validate, UserTypeDefinition_Validate,
        ViewDefinition_Validate, LinkDefinition_Validate, mediaTypeAttribute,
        MediaTypeDefinition_Validate, validateParam, ValidateParams,
        ActionDefinition_Validate, validateActions, validateBaseParams,
        ResourceDefinition_Validate, validateActionRoutes,
        APIDefinition_Validate ].

#[global] Instance logs_PreOrder : PreOrder logs.
Proof.
  split.
  - intros st. split_and!; [done|done|by left].
  - intros st1 st2 st3 (Hv1 & Hl1 & Hn1) (Hv2 & Hl2 & Hn2). split_and!.
    + set_solver.
    + intros q Hq. by apply Hl2, Hl1.
    + intros q Hq. destruct (Hn2 q Hq) as [Hq'|Hq']; [|by right].
      destruct (Hn1 q Hq') as [?|?]; [by left|right]. by apply Hl2.
Qed.

#[global] Instance closes_PreOrder : PreOrder closes.
Proof.
  split.
  - intros st. split; [apply stringified_refl|done].
  - intros st1 st2 st3 [Hh1 Hc1] [Hh2 Hc2]. split.
    + by eapply stringified_trans.
    + intros Hc. by apply Hc2, Hc1.
Qed.


(** *** The attribute validation *)

Lemma mark_logs p st : logs st (mark p st).
Proof.
  split_and!; simpl.
  - set_solver.
  - intros q Hq. apply elem_of_app. by left.
  - intros q [->%elem_of_singleton|Hq]%elem_of_union; [|by left].
    right. apply elem_of_app. right. by apply list_elem_of_singleton.
Qed.

Lemma AttributeDefinition_Validate_logs fuel a ctx parent :
  respects logs (AttributeDefinition_Validate fuel a ctx parent).
Proof.
  revert a ctx parent.
  induction fuel as [|fuel IH]; intros a ctx parent st e st'; [done|].
  destruct a as [p|]; [|done]. rewrite AttributeDefinition_Validate_S.
  case_bool_decide as Hp; [by intros [= _ ->]|].
  cbv zeta. change (heap (mark p st)) with (heap st).
  destruct (heap st !! p) as [att|]; [|done].
  destruct (Type_ att) as [t|]; [|intros [= _ <-]; apply mark_logs].
  match goal with
  | |- ?m (mark p st) = _ → _ => assert (respects logs m) as Hm
  end.
  { repeat (respects_step || apply IH). }
  intros Hrun. etrans; [apply mark_logs|by eapply Hm].
Qed.

Lemma setType_logs p t : respects logs (setType p t).
Proof.
  intros st [] st'. unfold setType. destruct (heap st !! p); [|done].
  intros [= <-]. split_and!; [done|done|by left].
Qed.

#[global] Hint Resolve AttributeDefinition_Validate_logs setType_logs
  : respects.

Lemma AttributeDefinition_Validate_closes fuel a ctx parent :
  respects closes (AttributeDefinition_Validate fuel a ctx parent).
Proof.
  intros st e st' Hrun.
  apply AttributeDefinition_Validate_closure in Hrun as (Hh & Hv & _ & Hcl).
  split; [rewrite Hh; apply stringified_refl|].
  intros Hclosed p c Hp Hc. rewrite Hh in Hc.
  destruct (decide (p ∈ validated st)) as [Hin|Hnin].
  - apply Hv. by eapply Hclosed.
  - by apply (Hcl p Hp Hnin).
Qed.

#[global] Hint Resolve AttributeDefinition_Validate_closes : respects.

(** The assignment of String to the nil type of a media type. *)
Lemma setType_closes p att st st' :
  heap st !! p = Some att → Type_ att = None →
  setType p String_ st = Ok (tt, st') → closes st st'.
Proof.
  intros Hp Ht. unfold setType. rewrite Hp. intros [= <-].
  assert (stringified (λ _, True) (heap st)
            (<[p:=withType att String_]> (heap st))) as Hs.
  { intros q. destruct (decide (q = p)) as [->|Hne].
    - right. split; [done|]. exists att. by rewrite lookup_insert_eq.
    - left. by rewrite lookup_insert_ne. }
  split; [done|]. by apply (closed_stringified (λ _, True)).
Qed.

Lemma MediaTypeDefinition_Validate_closes fuel m :
  respects closes (MediaTypeDefinition_Validate fuel m).
Proof.
  intros st r st'. unfold MediaTypeDefinition_Validate. cbv zeta.
  intros (e1 & st1 & He & H)%bind_Ok.
  apply bind_Ok in H as (h & ? & [-> ->]%getHeap_Ok & H).
  apply bind_Ok in H as (att & ? & [Hd ->]%lift_Ok & H).
  apply bind_Ok in H as ([] & st2 & Hset & H).
  assert (closes st st1) as H01.
  { revert He. match goal with |- ?c _ = _ → _ => assert (respects closes c) as Hk by (repeat respects_step) end.
    apply Hk. }
  assert (closes st1 st2) as H12.
  { destruct (ut_AttributeDefinition (mt_UserTypeDefinition m)) as [p|] eqn:Hself;
      [|done].
    simpl in Hd. destruct (heap st1 !! p) as [att'|] eqn:Hp; [|done].
    injection Hd as ->.
    destruct (Type_ att) eqn:Ht.
    - apply ret_Ok in Hset as [_ ->]. reflexivity.
    - by eapply setType_closes. }
  assert (closes st2 st') as H23.
  { revert H. match goal with |- ?c _ = _ → _ => assert (respects closes c) as Hk by (repeat respects_step) end.
    apply Hk. }
  by do 2 (etrans; [|done]).
Qed.

#[global] Hint Resolve MediaTypeDefinition_Validate_closes : respects.



(** *** The attributes a validation starts from *)






















(** *** Validation returns on a graph without loose ends *)











(** * Further properties of the transformation code *)

(** ** computeMapping *)

(** What is in the map that keyMap returns was in the map it was given, or
    is the name of a field under the match key of the field. *)
Lemma keyMap_sound h word o ctx m m' k n :
  keyMap h word o ctx m = Ok (inl m') → m' !! k = Some n →
  m !! k = Some n ∨ ∃ a, (n, a) ∈ o ∧ matchKey h n a = Some k.
Proof.
  revert m. induction o as [|[n0 a0] o IH]; intros m; simpl.
  - intros [= ->]. by left.
  - intros (att & Hatt & Hrun)%rbind_Ok Hk.
    assert (∀ key, matchKey h n0 a0 = Some key →
              keyMap h word o ctx (<[key := n0]> m) = Ok (inl m') →
              m !! k = Some n
              ∨ ∃ a, (n, a) ∈ (n0, a0) :: o ∧ matchKey h n a = Some k) as Hstep.
    { intros key Hkey Hrun'. destruct (IH _ Hrun' Hk) as [Hm|(a & Hin & Ha)].
      - destruct (decide (key = k)) as [->|Hne].
        + rewrite lookup_insert_eq in Hm. injection Hm as ->.
          right. exists a0. split; [left|done].
        + rewrite lookup_insert_ne in Hm by done. by left.
      - right. exists a. split; [by right|done]. }
    unfold matchKey in Hstep. rewrite Hatt in Hstep.
    destruct (Metadata att !! TransformMapKey) as [[|key keys]|]; [done|..];
      by eapply Hstep.
Qed.

(** What is in the join of two key maps comes from a key of both. *)
Lemma joinMaps_sound (sm tm : gmap string string) s t :
  joinMaps sm tm !! s = Some t → ∃ k, sm !! k = Some s ∧ tm !! k = Some t.
Proof.
  unfold joinMaps.
  assert (∀ l (acc : gmap string string),
            foldl (λ attributeMap '(key, attName),
                     match tm !! key with
                     | Some targetAtt => <[attName := targetAtt]> attributeMap
                     | None => attributeMap
                     end) acc l !! s = Some t →
            acc !! s = Some t ∨ ∃ k, (k, s) ∈ l ∧ tm !! k = Some t) as Hfold.
  { induction l as [|[k0 n0] l IH]; intros acc; simpl; [by left|].
    intros [Hacc|(k & Hin & Hk)]%IH.
    - destruct (tm !! k0) as [t0|] eqn:Hk0; [|by left].
      destruct (decide (n0 = s)) as [->|Hne].
      + rewrite lookup_insert_eq in Hacc. injection Hacc as ->.
        right. exists k0. split; [left|done].
      + rewrite lookup_insert_ne in Hacc by done. by left.
    - right. exists k. split; [by right|done]. }
  intros [Hempty|(k & Hin & Hk)]%Hfold; [by rewrite lookup_empty in Hempty|].
  exists k. split; [|done]. by apply elem_of_map_to_list.
Qed.

(** X15.  Whatever the metadata of the fields, computeMapping only maps a
    field of the source to a field of the target with the same match key:
    fields whose match key no field of the other object has are in no pair
    of the mapping. *)
Theorem computeMapping_only_maps_equal_keys h source target sctx tctx m s t :
  computeMapping h source target sctx tctx = Ok (Some m, None) →
  m !! s = Some t → matched h source target s t.
Proof.
  unfold computeMapping.
  intros ([sm|e] & Hsm & Hrun)%rbind_Ok; [|done].
  apply rbind_Ok in Hrun as ([tm|e] & Htm & [= <-]).
  intros (k & Hs & Ht)%joinMaps_sound.
  destruct (keyMap_sound _ _ _ _ _ _ _ _ Hsm Hs) as [?|(sa & Hsa & Hks)];
    [by rewrite lookup_empty in *|].
  destruct (keyMap_sound _ _ _ _ _ _ _ _ Htm Ht) as [?|(ta & Hta & Hkt)];
    [by rewrite lookup_empty in *|].
  by exists sa, ta, k.
Qed.

Lemma computeMapping_only_maps_witness :
  matched aliasHeap [("id", Some 0)] [("uid", Some 1)] "id" "uid".
Proof.
  apply (computeMapping_only_maps_equal_keys aliasHeap [("id", Some 0)]
           [("uid", Some 1)] "source" "target" {[ "id" := "uid" ]}).
  - vm_compute. reflexivity.
  - reflexivity.
Defined.

(** The error of keyMap names the first field without value. *)
Lemma keyMap_error h word o ctx m r :
  keyMap h word o ctx m = Ok r →
  match r with
  | inl _ => ¬ malformed h o
  | inr e => ∃ n, firstMalformed h o n ∧ e = missingKeyValue word n ctx
  end.
Proof.
  revert m. induction o as [|[n0 a0] o IH]; intros m; simpl.
  - intros [= <-]. intros (n & a & att & Hin & _). by apply elem_of_nil in Hin.
  - intros (att & Hatt & Hrun)%rbind_Ok.
    assert (∀ m1, Metadata att !! TransformMapKey ≠ Some [] →
              keyMap h word o ctx m1 = Ok r →
              match r with
              | inl _ => ¬ malformed h ((n0, a0) :: o)
              | inr e => ∃ n, firstMalformed h ((n0, a0) :: o) n
                              ∧ e = missingKeyValue word n ctx
              end) as Hstep.
    { intros m1 Hmeta Hrun'. specialize (IH _ Hrun'). destruct r as [m'|e].
      - intros (n & a & att' & [[= -> ->]|Hin]%elem_of_cons & Ha & Hm).
        + congruence.
        + apply IH. by exists n, a, att'.
      - destruct IH as (n & (before & a & att' & after & -> & Hb & Ha & Hm) & ->).
        exists n. split; [|done].
        exists ((n0, a0) :: before), a, att', after. split_and!; [done| |done..].
        intros (n' & a' & att'' & [[= -> ->]|Hin]%elem_of_cons & Ha' & Hm').
        + congruence.
        + apply Hb. by exists n', a', att''. }
    destruct (Metadata att !! TransformMapKey) as [[|key keys]|] eqn:Hmeta.
    + injection Hrun as <-. exists n0. split; [|done].
      exists [], a0, att, o. split_and!; [done| |done..].
      intros (n & a & att' & Hin & _). by apply elem_of_nil in Hin.
    + by eapply Hstep.
    + by eapply Hstep.
Qed.

(** X16.  When computeMapping fails, its error names the first field, in the
    order of its loops, that declares the mapping metadata without a
    value, and the context of the object of this field; a field of the
    target is named only when no field of the source is at fault.  The
    two messages differ in the spelling of "attribute". *)
Theorem computeMapping_error_names_first_field h source target sctx tctx e :
  computeMapping h source target sctx tctx = Ok (None, Some e) →
  (∃ n, firstMalformed h source n ∧ e = missingKeyValue "attribte" n sctx)
  ∨ (¬ malformed h source
     ∧ ∃ n, firstMalformed h target n
            ∧ e = missingKeyValue "attribute" n tctx).
Proof.
  unfold computeMapping.
  intros ([sm|e1] & Hsm & Hrun)%rbind_Ok.
  - apply rbind_Ok in Hrun as ([tm|e2] & Htm & [= <-]).
    right. split.
    + apply (keyMap_error _ _ _ _ _ _ Hsm).
    + apply (keyMap_error _ _ _ _ _ _ Htm).
  - injection Hrun as <-. left. apply (keyMap_error _ _ _ _ _ _ Hsm).
Qed.

Lemma computeMapping_error_witness :
  (∃ n, firstMalformed emptyKeyHeap [("id", Some 0)] n
        ∧ missingKeyValue "attribte" "id" "source"
          = missingKeyValue "attribte" n "source")
  ∨ (¬ malformed emptyKeyHeap [("id", Some 0)]
     ∧ ∃ n, firstMalformed emptyKeyHeap [("uid", Some 1)] n
            ∧ missingKeyValue "attribte" "id" "source"
              = missingKeyValue "attribute" n "target").
Proof.
  apply (computeMapping_error_names_first_field emptyKeyHeap
           [("id", Some 0)] [("uid", Some 1)] "source" "target").
  vm_compute. reflexivity.
Defined.

(** ** GoTypeTransform *)

Lemma shape_tests h t t' :
  underlying h t = Ok t' →
  IsObject h t = Ok (match t' with ObjectT _ => true | _ => false end)
  ∧ IsArray h t = Ok (match t' with ArrayT _ => true | _ => false end)
  ∧ IsHash h t = Ok (match t' with HashT _ _ => true | _ => false end).
Proof.
  intros Hu. unfold IsObject, IsArray, IsHash, ToObject, ToArray, ToHash.
  rewrite Hu. simpl. by destruct t'.
Qed.

(** X17.  When the source is an object, an array or a hash and the target
    is not of the same shape, GoTypeTransform returns no text and the
    error "source is an object (an array, a hash) but target type is"
    followed by the name of the type of the target. *)
Theorem GoTypeTransform_shape_mismatch te h fuel source target pkg fn s t w :
  underlying h (UserTypeT source) = Ok s →
  underlying h (UserTypeT target) = Ok t →
  shapeWord s = Some w → sameShape s t = false →
  GoTypeTransform te h fuel source target pkg fn
  = Ok (EmptyString,
        Some ("source is " +:+ w +:+ " but target type is " +:+ shapeName t)).
Proof.
  intros Hs Ht Hw Hdiff. unfold GoTypeTransform.
  destruct (shape_tests _ _ _ Hs) as (-> & -> & ->).
  destruct (shape_tests _ _ _ Ht) as (-> & -> & ->).
  rewrite (named_type_Name _ _ _ Ht).
  destruct s; try done; injection Hw as <-; by destruct t.
Qed.

Lemma GoTypeTransform_shape_mismatch_witness :
  GoTypeTransform plainText elemHeap 1 elemSource primitiveTarget
    "pkg" "Convert"
  = Ok (EmptyString,
        Some ("source is " +:+ "an array" +:+ " but target type is "
              +:+ shapeName Integer)).
Proof.
  apply (GoTypeTransform_shape_mismatch plainText elemHeap 1 elemSource
           primitiveTarget "pkg" "Convert" (ArrayT (Some 1)) Integer).
  - reflexivity.
  - reflexivity.
  - reflexivity.
  - reflexivity.
Defined.

(** X18.  GoTypeTransform panics for a source that is a primitive type: it
    has a case for objects, arrays and hashes only. *)
Theorem GoTypeTransform_panics_on_primitive_source te h fuel source target
    pkg fn k :
  underlying h (UserTypeT source) = Ok (PrimitiveT k) →
  GoTypeTransform te h fuel source target pkg fn = Panic.
Proof.
  intros Hs. unfold GoTypeTransform.
  by destruct (shape_tests _ _ _ Hs) as (-> & -> & ->).
Qed.

Lemma GoTypeTransform_panics_witness :
  GoTypeTransform plainText primitiveHeap 1 primitiveType primitiveType
    "pkg" "Convert" = Panic.
Proof.
  apply (GoTypeTransform_panics_on_primitive_source plainText primitiveHeap 1
           primitiveType primitiveType "pkg" "Convert" StringKind).
  reflexivity.
Defined.

(** X19.  GoTypeTransform returns an error without any text, or a text
    without error; the text is the declaration of a function with the name
    asked for, whose parameter is of the type of the source. *)
Theorem GoTypeTransform_returns_function_or_error te h fuel source target
    pkg fn text err :
  GoTypeTransform te h fuel source target pkg fn = Ok (text, err) →
  match err with
  | Some _ => text = EmptyString
  | None =>
    ∃ sref tref impl,
      GoTypeRef te h (UserTypeT source) [] 0 = Some sref
      ∧ text = transformFunction fn sref tref impl
  end.
Proof.
  unfold GoTypeTransform.
  intros (sObject & _ & ([impl [e'|]] & _ & H)%rbind_Ok)%rbind_Ok.
  - by injection H as <- <-.
  - apply rbind_Ok in H as (t & _ & (sref & Hsref & H)%rbind_Ok).
    injection H as <- <-. eexists sref, _, impl. split; [|reflexivity].
    unfold orPanic in Hsref.
    destruct (GoTypeRef te h (UserTypeT source) [] 0); [|done].
    by injection Hsref as ->.
Qed.

Lemma checkKinds_primitive h source target sctx tctx m pairs :
  primitivePairs h source target m →
  (∀ s t, (s, t) ∈ pairs → m !! s = Some t) →
  checkKinds h source target sctx tctx pairs = Ok None.
Proof.
  intros Hprim. induction pairs as [|[s t] pairs IH]; intros Hin; [done|].
  destruct (Hprim s t) as (sa & ta & k & Hsa & Hta & Hst & Htt).
  { apply Hin. left. }
  cbn [checkKinds]. rewrite Hsa, Hta. cbn [from_option id]. rewrite Hst, Htt.
  cbn [rbind KindOf]. rewrite bool_decide_false by (by intros ?).
  apply IH. intros s' t' Hin'. apply Hin. by right.
Qed.

Lemma sortedPairs_lookup (m : gmap string string) s t :
  (s, t) ∈ sortedPairs m → m !! s = Some t.
Proof.
  unfold sortedPairs. rewrite merge_sort_Permutation.
  apply elem_of_map_to_list.
Qed.

(** X20.  For two named types that are objects, when every pair of fields
    that computeMapping matches is a pair of fields of the same primitive
    kind, GoTypeTransform returns, without error, the declaration of the
    function whose body creates the target and then assigns each matched
    field of the source to its field of the target, one line for each
    pair, in the order of the names of the source fields. *)
Theorem GoTypeTransform_of_primitive_fields te h fuel source target pkg fn
    so to m sref tref :
  underlying h (UserTypeT source) = Ok (ObjectT so) →
  underlying h (UserTypeT target) = Ok (ObjectT to) →
  computeMapping h so to "source" "target" = Ok (Some m, None) →
  primitivePairs h so to m →
  TypeName target ≠ EmptyString →
  GoTypeRef te h (UserTypeT source) [] 0 = Some sref →
  GoTypeRef te h (UserTypeT target) [] 0 = Some tref →
  GoTypeTransform te h (S fuel) source target pkg fn
  = Ok (transformFunction fn sref (qualified pkg tref)
          (objectPlan te 1 pkg (TypeName target) "source" "target" m),
        None).
Proof.
  intros Hs Ht Hm Hprim Hname Hsref Htref. unfold GoTypeTransform.
  destruct (shape_tests _ _ _ Hs) as (-> & _ & _).
  destruct (shape_tests _ _ _ Ht) as (-> & _ & _).
  unfold ToObject. rewrite Hs, Ht, Hsref, Htref.
  cbn [rbind orPanic from_option id].
  assert (transformObject te h (S fuel) so to pkg (TypeName target)
            "source" "target" 1
          = Ok (objectPlan te 1 pkg (TypeName target) "source" "target" m,
                None)) as ->; [|done].
  cbn [transformObject]. rewrite Hm. cbn [rbind from_option id].
  rewrite (checkKinds_primitive _ _ _ _ _ m) by
    (done || (intros s t ?; by apply elem_of_map_to_list)).
  cbn [rbind]. rewrite bool_decide_false by done. cbn [rbind].
  unfold objectPlan.
  pose proof (sortedPairs_lookup m) as Hpairs.
  generalize dependent (sortedPairs m). intros pairs.
  match goal with
  | |- context [foldl _ ?header pairs] => generalize header
  end.
  induction pairs as [|[s t] pairs IH]; intros header Hpairs; [done|].
  destruct (Hprim s t) as (sa & ta & k & Hsa & Hta & Hst & Htt).
  { apply Hpairs. left. }
  cbn [foldl]. rewrite <-IH by (intros ???; apply Hpairs; by right).
  rewrite Hsa. cbn [from_option id]. rewrite Hst. cbn [rbind].
  destruct (shape_tests h (PrimitiveT k) (PrimitiveT k)
              (underlying_PrimitiveT h k)) as (-> & -> & ->).
  cbn [rbind]. reflexivity.
Qed.

Lemma GoTypeTransform_of_primitive_fields_witness :
  GoTypeTransform plainText flatHeap 1 flatSource flatTarget "pkg" "Convert"
  = Ok (transformFunction "Convert" "object" (qualified "pkg" "object")
          (objectPlan plainText 1 "pkg" "Target" "source" "target"
             {[ "id" := "uid" ]}),
        None).
Proof.
  apply (GoTypeTransform_of_primitive_fields plainText flatHeap 0 flatSource
           flatTarget "pkg" "Convert" [("id", Some 1)] [("uid", Some 3)]
           {[ "id" := "uid" ]} "object" "object").
  - reflexivity.
  - reflexivity.
  - vm_compute. reflexivity.
  - intros s t Hst. apply lookup_singleton_Some in Hst as [<- <-].
    exists (Some 1), (Some 3), StringKind. split_and!; reflexivity.
  - discriminate.
  - reflexivity.
  - reflexivity.
Defined.

Lemma GoTypeTransform_returns_witness :
  ∃ sref tref impl,
    GoTypeRef plainText flatHeap (UserTypeT flatSource) [] 0 = Some sref
    ∧ transformFunction "Convert" "object" (qualified "pkg" "object")
        (objectPlan plainText 1 "pkg" "Target" "source" "target"
           {[ "id" := "uid" ]})
      = transformFunction "Convert" sref tref impl.
Proof.
  apply (GoTypeTransform_returns_function_or_error plainText flatHeap 1
           flatSource flatTarget "pkg" "Convert" _ None).
  vm_compute. reflexivity.
Defined.

(** * Further properties of the identifiers *)

Import identifiers.

Lemma fixReserved_not_reserved w : fixReserved w ∉ (runesOf <$> reserved).
Proof.
  unfold fixReserved. case_bool_decide as Hw; [|done].
  assert (Forall (λ r, r ++ runesOf "_" ∉ (runesOf <$> reserved))
                 (runesOf <$> reserved)) as Hall.
  { compute_done. }
  rewrite Forall_forall in Hall. by apply Hall.
Qed.

(** X21.  fixReserved never returns a reserved word: it returns the word it
    is given when the word is not reserved, and the word followed by an
    underscore, which is not reserved either, when it is. *)
Theorem fixReserved_is_not_reserved w :
  (fixReserved w ∉ (runesOf <$> reserved))
  ∧ (w ∉ (runesOf <$> reserved) → fixReserved w = w)
  ∧ (w ∈ (runesOf <$> reserved) → fixReserved w = w ++ runesOf "_").
Proof.
  split_and!; [apply fixReserved_not_reserved|..]; unfold fixReserved.
  - intros Hw. by rewrite bool_decide_false.
  - intros Hw. by rewrite bool_decide_true.
Qed.

Lemma fixReserved_witness :
  fixReserved (runesOf "type") = runesOf "type" ++ runesOf "_".
Proof.
  apply (proj2 (proj2 (fixReserved_is_not_reserved (runesOf "type")))).
  compute_done.
Defined.

(** ** Goify returns *)

Section Goify.
Context (u : Unicode).

Lemma underscores_le rest n : n ≤ underscores rest n ≤ n + length rest.
Proof.
  revert n. induction rest as [|r rest IH]; intros n; simpl; [lia|].
  case_bool_decide; [|lia]. specialize (IH (S n)). lia.
Qed.

(** The first part of an iteration returns; it does not lengthen the
    runes, and leaves the position after [i] within them. *)
Lemma scan_returns runes i :
  i + 1 ≤ length runes →
  ∃ runes' eow, scan u runes i = Ok (runes', eow)
    ∧ i + 1 ≤ length runes' ≤ length runes.
Proof.
  intros Hi. unfold scan. case_bool_decide as Hlast; [eexists _, _; split; [done|lia]|].
  unfold at_. destruct (lookup_lt_is_Some_2 runes i) as [ri ->]; [lia|].
  cbn [orPanic rbind].
  destruct (validIdentifier u ri); cbn [negb]; cycle 1.
  { eexists _, _. split; [done|].
    rewrite length_app, length_take, length_drop. lia. }
  destruct (lookup_lt_is_Some_2 runes (i + 1)) as [ri1 ->]; [lia|].
  cbn [orPanic rbind]. case_bool_decide.
  - eexists _, _. split; [done|].
    pose proof (underscores_le (drop (i + 2) runes) 1) as Hn.
    rewrite length_drop in Hn.
    rewrite length_app, length_take, length_drop. lia.
  - destruct (IsLower u ri && negb (IsLower u ri1));
      eexists _, _; (split; [done|lia]).
Qed.

Lemma update_returns runes w f :
  w < length runes →
  ∃ out, update runes w f = Ok out ∧ length out = length runes.
Proof.
  intros Hw. unfold update, at_.
  destruct (lookup_lt_is_Some_2 runes w) as [r ->]; [lia|].
  eexists. split; [done|]. by rewrite length_insert.
Qed.

(** The second part of an iteration returns, and keeps the length of the
    runes. *)
Lemma capitalize_returns firstUpper runes w i :
  w < i ≤ length runes →
  ∃ out, capitalize u firstUpper runes w i = Ok out
         ∧ length out = length runes.
Proof.
  intros Hwi. unfold capitalize. rewrite bool_decide_true by lia. cbv zeta.
  set (word := take (i - w) (drop w runes)).
  assert (length word = i - w) as Hword.
  { unfold word. rewrite length_take, length_drop. lia. }
  match goal with
  | |- ∃ out, rbind ?first ?second = _ ∧ _ =>
    assert (∃ mid, first = Ok mid ∧ length mid = length runes)
      as (mid & -> & Hmid)
  end.
  { case_bool_decide.
    - eexists. split; [done|].
      rewrite !length_app, !length_take, length_drop.
      destruct firstUpper; [|case_bool_decide];
        rewrite ?length_fmap, Hword; lia.
    - destruct (bool_decide (0 < w) && _); [apply update_returns; lia|].
      destruct (bool_decide (w = 0) && _ && firstUpper);
        [apply update_returns; lia|]. by eexists. }
  cbn [rbind].
  destruct (bool_decide (w = 0) && negb firstUpper).
  - destruct (update_returns mid w (ToLower u)) as (out & -> & Hout); [lia|].
    exists out. split; [done|lia].
  - by exists mid.
Qed.

(** The loop returns when it is given as many steps as there are runes
    after the position it starts from. *)
Lemma words_returns fuel firstUpper runes w i :
  w ≤ i ≤ length runes → length runes - i ≤ fuel →
  ∃ out, words u fuel firstUpper runes w i = Ok out
         ∧ length out ≤ length runes.
Proof.
  revert runes w i. induction fuel as [|fuel IH]; intros runes w i Hwi Hfuel.
  - cbn [words]. rewrite bool_decide_false by lia. by exists runes.
  - cbn [words]. case_bool_decide as Hi; [|by exists runes].
    destruct (scan_returns runes i Hi) as (runes' & eow & -> & Hlen).
    cbn [rbind]. destruct eow.
    + destruct (capitalize_returns firstUpper runes' w (i + 1))
        as (runes'' & -> & Hlen'); [lia|].
      cbn [rbind].
      destruct (IH runes'' (i + 1) (i + 1)) as (out & -> & Hout); [lia..|].
      exists out. split; [done|lia].
    + destruct (IH runes' w (i + 1)) as (out & -> & Hout); [lia..|].
      exists out. split; [done|lia].
Qed.

(** X22.  Goify returns for every string: no index of its loop is out of
    range, and the loop ends after at most as many iterations as the
    string has runes.  The identifier is no reserved word, and it has at
    most one rune more than the string, the underscore that fixReserved
    appends. *)
Theorem Goify_returns fuel str firstUpper :
  length str ≤ fuel →
  ∃ out, Goify u fuel str firstUpper = Ok out
         ∧ (out ∉ (runesOf <$> reserved))
         ∧ length out ≤ S (length str).
Proof.
  intros Hfuel. unfold Goify.
  destruct (words_returns fuel firstUpper str 0 0) as (out & -> & Hout);
    [lia..|].
  cbn [rbind]. eexists. split_and!; [done|apply fixReserved_not_reserved|].
  unfold fixReserved. case_bool_decide; [|lia].
  rewrite length_app. simpl. lia.
Qed.


(** ** Goify keeps the last rune *)

(** The index of a lookup is that of the last rune. *)
Local Ltac lastIndex runes :=
  match goal with
  | |- context [_ !! ?n] => replace n with (length runes - 1) by lia
  end.

Lemma underscores_lt c rest n :
  c ≠ underscore → endsWith c rest → underscores rest n < n + length rest.
Proof.
  unfold endsWith. intros Hc. revert n.
  induction rest as [|r rest IH]; intros n Hlast; [done|].
  simpl. case_bool_decide as Hr; [|lia].
  destruct rest as [|r' rest].
  - simpl in Hlast. congruence.
  - assert (underscores (r' :: rest) (S n) < S n + length (r' :: rest)); [|lia].
    apply IH. simpl in *. by rewrite Nat.sub_0_r in *.
Qed.

Lemma update_endsWith c runes w f out :
  f c = c → endsWith c runes →
  update runes w f = Ok out → endsWith c out.
Proof.
  unfold endsWith. intros Hf Hlast. unfold update, at_.
  destruct (runes !! w) as [r|] eqn:Hw; [|done]. intros [= <-].
  rewrite length_insert. destruct (decide (w = length runes - 1)) as [->|Hne].
  - rewrite list_lookup_insert_eq by (by eapply lookup_lt_Some). congruence.
  - by rewrite list_lookup_insert_ne.
Qed.

Lemma capitalize_endsWith c firstUpper runes w i out :
  ToUpper u c = c → ToLower u c = c → endsWith c runes →
  w < i ≤ length runes →
  capitalize u firstUpper runes w i = Ok out → endsWith c out.
Proof.
  intros Hup Hlow Hlast Hwi. unfold capitalize.
  rewrite bool_decide_true by lia. cbv zeta.
  set (word := take (i - w) (drop w runes)).
  assert (length word = i - w) as Hword.
  { unfold word. rewrite length_take, length_drop. lia. }
  intros (mid & Hmid & Hout)%rbind_Ok.
  assert (endsWith c mid) as Hlast'.
  { clear Hout. revert Hmid. unfold endsWith in *.
    destruct (bool_decide (_ ∈ runesOf <$> commonInitialisms)).
    - set (up := if firstUpper then _ else _).
      assert (∃ f, up = f <$> word ∧ f c = c) as (f & Hupf & Hf).
      { unfold up. destruct firstUpper; [|destruct (bool_decide (w = 0))].
        - exists (ToUpper u ∘ ToUpper u). split; [by rewrite list_fmap_compose|].
          simpl. congruence.
        - exists (ToLower u ∘ ToUpper u). split; [by rewrite list_fmap_compose|].
          simpl. congruence.
        - by exists (ToUpper u). }
      clearbody up. subst up. intros [= <-].
      rewrite !length_app, !length_take, length_drop, !length_fmap, Hword.
      rewrite (take_ge (f <$> word)) by (rewrite length_fmap; lia).
      destruct (decide (i = length runes)) as [->|Hne].
      + rewrite lookup_app_r by (rewrite length_take; lia).
        rewrite length_take, lookup_app_l by (rewrite length_fmap; lia).
        rewrite list_lookup_fmap. unfold word.
        rewrite lookup_take_lt by lia. rewrite lookup_drop.
        lastIndex runes.
        by rewrite Hlast; simpl; rewrite Hf.
      + rewrite lookup_app_r by (rewrite length_take; lia).
        rewrite length_take, lookup_app_r by (rewrite length_fmap; lia).
        rewrite length_fmap, Hword, lookup_drop.
        lastIndex runes.
        done.
    - destruct (bool_decide (0 < w) && _); [by apply update_endsWith|].
      destruct (bool_decide (w = 0) && _ && firstUpper);
        [by apply update_endsWith|]. by intros [= <-]. }
  destruct (bool_decide (w = 0) && negb firstUpper).
  - by eapply update_endsWith.
  - by injection Hout as <-.
Qed.

Lemma scan_endsWith c runes i runes' eow :
  c ≠ underscore → endsWith c runes → i + 1 ≤ length runes →
  scan u runes i = Ok (runes', eow) →
  endsWith c runes' ∧ i + 1 ≤ length runes'.
Proof.
  unfold endsWith. intros Hc Hlast Hi. unfold scan.
  case_bool_decide as Hend; [intros [= <- <-]; split; [done|lia]|].
  intros (ri & Hri & Hrun)%rbind_Ok.
  destruct (validIdentifier u ri); cbn [negb] in Hrun.
  - apply rbind_Ok in Hrun as (ri1 & Hri1 & Hrun).
    case_bool_decide as Hus.
    + injection Hrun as <- <-.
      assert (i + 2 < length runes) as Hi2.
      { destruct (decide (i + 2 = length runes)) as [Heq|]; [|lia].
        unfold at_ in Hri1. replace (length runes - 1) with (i + 1) in Hlast by lia.
        rewrite Hlast in Hri1. simpl in Hri1. congruence. }
      pose proof (underscores_le (drop (i + 2) runes) 1) as Hn1.
      pose proof (underscores_lt c (drop (i + 2) runes) 1 Hc) as Hn2.
      unfold endsWith in Hn2. rewrite length_drop in Hn1, Hn2.
      rewrite lookup_drop in Hn2.
      replace (i + 2 + (length runes - (i + 2) - 1)) with (length runes - 1)
        in Hn2 by lia.
      specialize (Hn2 Hlast).
      set (n := underscores (drop (i + 2) runes) 1) in *.
      rewrite length_app, length_take, length_drop. split; [|lia].
      rewrite lookup_app_r by (rewrite length_take; lia).
      rewrite length_take, lookup_drop.
      lastIndex runes.
      done.
    + destruct (IsLower u ri && negb (IsLower u ri1));
        injection Hrun as <- <-; (split; [done|lia]).
  - injection Hrun as <- <-.
    rewrite length_app, length_take, length_drop. split; [|lia].
    rewrite lookup_app_r by (rewrite length_take; lia).
    rewrite length_take, lookup_drop.
    lastIndex runes.
    done.
Qed.

Lemma capitalize_length firstUpper runes w i out :
  w < i ≤ length runes →
  capitalize u firstUpper runes w i = Ok out → length out = length runes.
Proof.
  intros Hwi Hrun.
  destruct (capitalize_returns firstUpper runes w i Hwi) as (out' & Hrun' & Hlen).
  congruence.
Qed.

Lemma words_endsWith c fuel firstUpper runes w i out :
  c ≠ underscore → ToUpper u c = c → ToLower u c = c →
  endsWith c runes → w ≤ i ≤ length runes →
  words u fuel firstUpper runes w i = Ok out → endsWith c out.
Proof.
  intros Hc Hup Hlow. revert runes w i.
  induction fuel as [|fuel IH]; intros runes w i Hlast Hwi; cbn [words].
  - case_bool_decide; [done|]. by intros [= <-].
  - case_bool_decide as Hi; [|by intros [= <-]].
    intros ([runes' eow] & Hscan & Hrun)%rbind_Ok.
    destruct (scan_endsWith c _ _ _ _ Hc Hlast Hi Hscan) as [Hlast' Hlen].
    destruct eow.
    + apply rbind_Ok in Hrun as (runes'' & Hcap & Hrun).
      eapply (IH runes'' (i + 1) (i + 1)); [| |exact Hrun].
      * eapply capitalize_endsWith; [done..| |exact Hcap]. lia.
      * assert (length runes'' = length runes') as ->; [|lia].
        eapply capitalize_length; [|exact Hcap]. lia.
    + eapply (IH runes' w (i + 1)); [done| |exact Hrun]. lia.
Qed.

(** X23.  Goify does not remove the last rune of the string when it is no
    underscore and has no case, whether it is a letter or a digit or not:
    the rune ends the identifier, or is followed by the underscore that
    fixReserved appends.  So a string that ends with a hyphen gives an
    identifier that ends with a hyphen. *)
Theorem Goify_keeps_the_last_rune fuel str c firstUpper out :
  c ≠ underscore → ToUpper u c = c → ToLower u c = c →
  Goify u fuel (str ++ [c]) firstUpper = Ok out →
  ∃ front, out = front ++ [c] ∨ out = front ++ [c] ++ runesOf "_".
Proof.
  intros Hc Hup Hlow. unfold Goify.
  intros (runes & Hrun & [= <-])%rbind_Ok.
  apply (words_endsWith c) in Hrun; [|done..| |simpl; lia]; cycle 1.
  { unfold endsWith. rewrite length_app. simpl.
    rewrite lookup_app_r by lia.
    by replace (length str + 1 - 1 - length str) with 0 by lia. }
  assert (∃ front, runes = front ++ [c]) as [front ->].
  { apply last_Some. unfold endsWith in Hrun. rewrite last_lookup. by replace (pred (length runes)) with (length runes - 1) by lia. }
  exists front. unfold fixReserved. case_bool_decide; [|by left].
  right. by rewrite <-app_assoc.
Qed.


(** ** Goify keeps a leading digit *)

Lemma update_head r runes w f out :
  f r = r → runes !! 0 = Some r →
  update runes w f = Ok out → out !! 0 = Some r.
Proof.
  intros Hf Hhead. unfold update, at_.
  destruct (runes !! w) as [rw|] eqn:Hw; [|done]. intros [= <-].
  destruct w as [|w].
  - rewrite list_lookup_insert_eq by (by eapply lookup_lt_Some). congruence.
  - by rewrite list_lookup_insert_ne.
Qed.

Lemma capitalize_head r firstUpper runes w i out :
  ToUpper u r = r → ToLower u r = r → runes !! 0 = Some r →
  w < i ≤ length runes →
  capitalize u firstUpper runes w i = Ok out → out !! 0 = Some r.
Proof.
  intros Hup Hlow Hhead Hwi. unfold capitalize.
  rewrite bool_decide_true by lia. cbv zeta.
  set (word := take (i - w) (drop w runes)).
  assert (length word = i - w) as Hword.
  { unfold word. rewrite length_take, length_drop. lia. }
  intros (mid & Hmid & Hout)%rbind_Ok.
  assert (mid !! 0 = Some r) as Hhead'.
  { clear Hout. revert Hmid.
    destruct (bool_decide (_ ∈ runesOf <$> commonInitialisms)).
    - set (up := if firstUpper then _ else _).
      assert (∃ f, up = f <$> word ∧ f r = r) as (f & Hupf & Hf).
      { unfold up. destruct firstUpper; [|destruct (bool_decide (w = 0))].
        - exists (ToUpper u ∘ ToUpper u). split; [by rewrite list_fmap_compose|].
          simpl. congruence.
        - exists (ToLower u ∘ ToUpper u). split; [by rewrite list_fmap_compose|].
          simpl. congruence.
        - by exists (ToUpper u). }
      clearbody up. subst up. intros [= <-].
      rewrite (take_ge (f <$> word)) by (rewrite length_fmap; lia).
      destruct w as [|w].
      + rewrite take_0, app_nil_l, lookup_app_l by (rewrite length_fmap; lia).
        rewrite list_lookup_fmap. unfold word.
        rewrite lookup_take_lt by lia. rewrite lookup_drop.
        change (0 + 0) with 0. by rewrite Hhead; simpl; rewrite Hf.
      + rewrite lookup_app_l by (rewrite length_take; lia).
        by rewrite lookup_take_lt by lia.
    - destruct (bool_decide (0 < w) && _); [by apply update_head|].
      destruct (bool_decide (w = 0) && _ && firstUpper);
        [by apply update_head|]. by intros [= <-]. }
  destruct (bool_decide (w = 0) && negb firstUpper).
  - by eapply update_head.
  - by injection Hout as <-.
Qed.

Lemma scan_head r runes i runes' eow :
  validIdentifier u r = true → runes !! 0 = Some r →
  scan u runes i = Ok (runes', eow) → runes' !! 0 = Some r.
Proof.
  intros Hvalid Hhead. unfold scan.
  case_bool_decide as Hend; [by intros [= <- <-]|].
  intros (ri & Hri & Hrun)%rbind_Ok.
  destruct (validIdentifier u ri) eqn:Hri'; cbn [negb] in Hrun.
  - apply rbind_Ok in Hrun as (ri1 & Hri1 & Hrun).
    case_bool_decide as Hus.
    + injection Hrun as <- <-.
      assert (i + 1 < length runes) as Hlt.
      { unfold at_ in Hri1. destruct (runes !! (i + 1)) eqn:Hl; [|done].
        by eapply lookup_lt_Some. }
      rewrite lookup_app_l by (rewrite length_take; lia).
      by rewrite lookup_take_lt by lia.
    + by destruct (IsLower u ri && negb (IsLower u ri1));
        injection Hrun as <- <-.
  - injection Hrun as <- <-.
    assert (i < length runes) as Hlt.
    { unfold at_ in Hri. destruct (runes !! i) eqn:Hl; [|done].
      by eapply lookup_lt_Some. }
    destruct i as [|i].
    { unfold at_ in Hri. rewrite Hhead in Hri. simpl in Hri. congruence. }
    rewrite lookup_app_l by (rewrite length_take; lia).
    by rewrite lookup_take_lt by lia.
Qed.

Lemma words_head r fuel firstUpper runes w i out :
  validIdentifier u r = true → ToUpper u r = r → ToLower u r = r →
  runes !! 0 = Some r → w ≤ i ≤ length runes →
  words u fuel firstUpper runes w i = Ok out → out !! 0 = Some r.
Proof.
  intros Hvalid Hup Hlow. revert runes w i.
  induction fuel as [|fuel IH]; intros runes w i Hhead Hwi; cbn [words].
  - case_bool_decide; [done|]. by intros [= <-].
  - case_bool_decide as Hi; [|by intros [= <-]].
    intros ([runes' eow] & Hscan & Hrun)%rbind_Ok.
    pose proof (scan_head r _ _ _ _ Hvalid Hhead Hscan) as Hhead'.
    destruct (scan_returns runes i Hi)
      as (runes1 & eow1 & Hscan1 & Hlen1 & Hlen2).
    rewrite Hscan in Hscan1. injection Hscan1 as <- <-.
    destruct eow.
    + apply rbind_Ok in Hrun as (runes'' & Hcap & Hrun).
      eapply (IH runes'' (i + 1) (i + 1)); [| |exact Hrun].
      * eapply capitalize_head; [done..| |exact Hcap]. lia.
      * assert (length runes'' = length runes') as ->; [|lia].
        eapply capitalize_length; [|exact Hcap]. lia.
    + eapply (IH runes' w (i + 1)); [done| |exact Hrun]. lia.
Qed.

(** X24.  Goify does not make sure that the identifier starts with a letter
    or an underscore: a first rune that is a letter or a digit and has no
    case, such as the digit of "9lives", is the first rune of the
    identifier. *)
Theorem Goify_keeps_a_leading_digit fuel str r firstUpper out :
  validIdentifier u r = true → ToUpper u r = r → ToLower u r = r →
  Goify u fuel (r :: str) firstUpper = Ok out →
  ∃ rest, out = r :: rest.
Proof.
  intros Hvalid Hup Hlow. unfold Goify.
  intros (runes & Hrun & [= <-])%rbind_Ok.
  apply (words_head r) in Hrun; [|done..|simpl; lia].
  destruct runes as [|r' runes]; [done|]. injection Hrun as ->.
  unfold fixReserved. case_bool_decide; eauto.
Qed.

End Goify.

Lemma Goify_returns_witness :
  ∃ out, Goify asciiTables 10 (runesOf "created_at") true = Ok out
         ∧ (out ∉ (runesOf <$> reserved))
         ∧ length out ≤ S (length (runesOf "created_at")).
Proof.
  apply (Goify_returns asciiTables 10 (runesOf "created_at") true).
  vm_compute. lia.
Defined.

Lemma Goify_keeps_the_last_rune_witness :
  ∃ front,
    runesOf "A-" = front ++ [45%N]
    ∨ runesOf "A-" = front ++ [45%N] ++ runesOf "_".
Proof.
  apply (Goify_keeps_the_last_rune asciiTables 2 (runesOf "a") 45%N true).
  - discriminate.
  - reflexivity.
  - reflexivity.
  - vm_compute. reflexivity.
Defined.

Lemma Goify_keeps_a_leading_digit_witness :
  ∃ rest, runesOf "9lives" = 57%N :: rest.
Proof.
  apply (Goify_keeps_a_leading_digit asciiTables 6 (runesOf "lives")
           57%N true).
  - reflexivity.
  - reflexivity.
  - reflexivity.
  - vm_compute. reflexivity.
Defined.

(** ** Tempvar *)

Lemma wrapInt_succ bits x :
  wrapInt bits (wrapInt bits x + 1) = wrapInt bits (x + 1).
Proof.
  unfold wrapInt.
  replace ((x + 2 ^ (bits - 1)) `mod` 2 ^ bits - 2 ^ (bits - 1) + 1
           + 2 ^ (bits - 1))%Z
    with ((x + 2 ^ (bits - 1)) `mod` 2 ^ bits + 1)%Z by lia.
  rewrite Zplus_mod_idemp_l. do 2 f_equal. lia.
Qed.

Lemma Tempvar_name bits n count :
  (Tempvar bits (calls bits n count)).1
  = "tmp" +:+ decimal (wrapInt bits (count + Z.of_nat n + 1)).
Proof.
  unfold Tempvar. cbn [fst]. do 2 f_equal.
  induction n as [|n IH].
  - simpl. f_equal. lia.
  - cbn [calls Tempvar snd]. rewrite IH, wrapInt_succ. f_equal. lia.
Qed.

Lemma decimal_inj a b : decimal a = decimal b → a = b.
Proof.
  unfold decimal. intros Heq. apply DecimalZ.to_int_inj.
  pose proof (DecimalString.NilEmpty.isi (Z.to_int a)) as Ha.
  pose proof (DecimalString.NilEmpty.isi (Z.to_int b)) as Hb.
  rewrite Heq in Ha. congruence.
Qed.

(** X25.  Tempvar gives the same name at its call number n+1 and at its
    call number m+1 exactly when n and m differ by a multiple of 2^bits,
    where bits is the size of an int: the names of fewer than 2^bits calls
    in a row are all different, and the name of a call comes back 2^bits
    calls later. *)
Theorem Tempvar_names_repeat bits count n m :
  (0 < bits)%Z →
  (Tempvar bits (calls bits n count)).1 = (Tempvar bits (calls bits m count)).1
  ↔ ((Z.of_nat n - Z.of_nat m) `mod` 2 ^ bits = 0)%Z.
Proof.
  intros Hbits. rewrite !Tempvar_name.
  assert (0 < 2 ^ bits)%Z as HM by (apply Z.pow_pos_nonneg; lia).
  split.
  - intros Heq. simpl in Heq. injection Heq as Heq%decimal_inj.
    unfold wrapInt in Heq.
    assert (((count + Z.of_nat n + 1 + 2 ^ (bits - 1)) `mod` 2 ^ bits
             = (count + Z.of_nat m + 1 + 2 ^ (bits - 1)) `mod` 2 ^ bits)%Z)
      as Hmod by lia.
    apply Z.cong_iff_0 in Hmod. rewrite <-Hmod. f_equal. lia.
  - intros Hmod. do 2 f_equal. unfold wrapInt. f_equal.
    apply Z.cong_iff_0. rewrite <-Hmod. f_equal. lia.
Qed.

Lemma Tempvar_names_repeat_witness :
  (Tempvar 64 (calls 64 0 0)).1 = (Tempvar 64 (calls 64 1 0)).1
  ↔ ((Z.of_nat 0 - Z.of_nat 1) `mod` 2 ^ 64 = 0)%Z.
Proof.
  apply (Tempvar_names_repeat 64 0 0 1). lia.
Defined.
